(** * tools/internal_test.py of R8: the bot/tester handoff over cloud storage

    The script coordinates a "bot" (producer, [run_bot]) and a "tester"
    (consumer, [run_continuously]) through three magic files in a cloud
    storage bucket, runs the internal test commands under a timeout
    ([execute], [run_once]) and archives their logs ([archive_log]).

    The script is embedded as programs of a small free monad [prog]: every
    call that leaves the Python process (cloud storage, git, the clock, the
    supervised child process, local files) is an [event] whose answer the
    continuation receives.  Two semantics are given to the same programs:
    - [exec], a sequential run against a cloud store (a [gmap]) and an
      arbitrary oracle for everything else, which records the events;
    - [sys_step], an interleaving of a bot and a tester on one store.

    Loops ([while True]) are unrolled with a fuel argument and end in
    [Spin] (still looping) when the fuel is used up.  Calls of [log] and
    [utils.PrintCmd], which only write to the console, are left out. *)

From Stdlib Require Import Ascii.
From stdpp Require Import gmap strings pretty list.

Local Open Scope Z_scope.
Local Open Scope string_scope.
Local Open Scope list_scope.

(** ** Python string helpers *)

Module Py.

(** [s.replace(old, new)] for one-character [old] and [new]. *)
Fixpoint replace (old new : ascii) (s : string) : string :=
  match s with
  | EmptyString => EmptyString
  | String c s' => String (if decide (c = old) then new else c) (replace old new s')
  end.

(** [sep.join(l)]. *)
Fixpoint join (sep : string) (l : list string) : string :=
  match l with
  | [] => ""
  | [x] => x
  | x :: l' => x +:+ sep +:+ join sep l'
  end.

(** [s.startswith(p)]. *)
Fixpoint startswith (s p : string) : bool :=
  match p, s with
  | EmptyString, _ => true
  | String _ _, EmptyString => false
  | String a p', String b s' => bool_decide (a = b) && startswith s' p'
  end.

(** [s.endswith(p)]. *)
Definition endswith (s p : string) : bool :=
  startswith (String.rev s) (String.rev p).

(** [os.path.join(a, b)] on POSIX. *)
Definition os_path_join (a b : string) : string :=
  if startswith b "/" then b
  else if bool_decide (a = "") || endswith a "/" then a +:+ b
  else a +:+ "/" +:+ b.

(** [s.split(sep)] for a one-character separator: never an empty list. *)
Fixpoint split (sep : ascii) (s : string) : list string :=
  match s with
  | EmptyString => [""]
  | String c s' =>
      if decide (c = sep) then "" :: split sep s'
      else match split sep s' with
           | [] => [String c ""]
           | piece :: pieces => String c piece :: pieces
           end
  end.

(** [s.strip()]: white space removed at both ends. *)
Fixpoint lstrip (s : string) : string :=
  match s with
  | String c s' => if Ascii.is_space c then lstrip s' else s
  | EmptyString => EmptyString
  end.
Fixpoint rstrip (s : string) : string :=
  match s with
  | EmptyString => EmptyString
  | String c s' =>
      match rstrip s' with
      | EmptyString => if Ascii.is_space c then EmptyString else String c EmptyString
      | r => String c r
      end
  end.
Definition strip (s : string) : string := rstrip (lstrip s).

(** Python values that the script returns, stores or tests for truth:
    [None], integers, booleans and strings. *)
Inductive value := None_ | Int (n : Z) | Bool (b : bool) | Str (s : string).

Definition truthy (v : value) : bool :=
  match v with
  | None_ => false
  | Int n => bool_decide (n ≠ 0)
  | Bool b => b
  | Str s => bool_decide (s ≠ "")
  end.

(** [any(l)]. *)
Definition any (l : list value) : bool := existsb truthy l.

(** [str(v)]. *)
Definition str (v : value) : string :=
  match v with
  | None_ => "None"
  | Int n => pretty n
  | Bool true => "True"
  | Bool false => "False"
  | Str s => s
  end.

(** The status with which the process ends on [sys.exit(v)]: a string is
    printed and the status is 1. *)
Definition exit_status (v : value) : Z :=
  match v with
  | None_ => 0
  | Int n => n
  | Bool b => if b then 1 else 0
  | Str _ => 1
  end.

End Py.

(** ** Constants of the script *)

Definition PULL_DELAY : Z := 30.
Definition TEST_RESULT_DIR : string := "internal".

Definition READY_FOR_TESTING : string := "READY_FOR_TESTING".
Definition TESTING : string := "TESTING".
Definition TESTING_COMPLETE : string := "TESTING_COMPLETE".
Definition ALL_MAGIC : list string := [READY_FOR_TESTING; TESTING; TESTING_COMPLETE].

Definition STDERR : string := "stderr".
Definition STDOUT : string := "stdout".
Definition EXITCODE : string := "exitcode".
Definition TIMED_OUT : string := "timed_out".

Record benchmark_app := {
  app : string;
  version : string;
  find_xmx_min : Z;
  find_xmx_max : Z;
  find_xmx_range : Z;
  oom_threshold : Z;
  skip_find_xmx_max : bool
}.

Definition BENCHMARK_APPS : list benchmark_app := [
  {| app := "r8"; version := "cf"; find_xmx_min := 128; find_xmx_max := 400;
     find_xmx_range := 16; oom_threshold := 247; skip_find_xmx_max := false |};
  {| app := "chrome"; version := "180917"; find_xmx_min := 256; find_xmx_max := 450;
     find_xmx_range := 16; oom_threshold := 426; skip_find_xmx_max := false |};
  {| app := "youtube"; version := "12.22"; find_xmx_min := 800; find_xmx_max := 1200;
     find_xmx_range := 32; oom_threshold := 1037; skip_find_xmx_max := true |};
  {| app := "iosched"; version := "2019"; find_xmx_min := 128; find_xmx_max := 1024;
     find_xmx_range := 16; oom_threshold := 267; skip_find_xmx_max := false |}
].

(** The two asserts of [find_min_xmx_command] hold for every entry of
    [BENCHMARK_APPS] (see [benchmark_asserts_hold]); the command is built
    without them. *)
Definition find_min_xmx_assert (record : benchmark_app) : bool :=
  bool_decide (find_xmx_min record < find_xmx_max record)
  && bool_decide (find_xmx_range record < find_xmx_max record - find_xmx_min record).

Definition find_min_xmx_command (record : benchmark_app) : list string := [
  "tools/run_on_app.py";
  "--compiler=r8";
  "--compiler-build=lib";
  "--app=" +:+ app record;
  "--version=" +:+ version record;
  "--no-debug";
  "--no-build";
  "--find-min-xmx";
  "--find-min-xmx-min-memory=" +:+ pretty (find_xmx_min record);
  "--find-min-xmx-max-memory=" +:+ pretty (find_xmx_max record);
  "--find-min-xmx-range-size=" +:+ pretty (find_xmx_range record);
  "--find-min-xmx-archive"].

(** [int(t * 1.15)] and [int(t * 0.85)]: the float product truncated.  For
    the four thresholds of [BENCHMARK_APPS] the product is not within
    rounding distance of an integer, and the exact quotient is the result. *)
Definition scale_115 (t : Z) : Z := t * 115 / 100.
Definition scale_085 (t : Z) : Z := t * 85 / 100.

Definition compile_with_memory_max_command (record : benchmark_app) : list string :=
  if skip_find_xmx_max record then [] else [
  "tools/run_on_app.py";
  "--compiler=r8";
  "--compiler-build=lib";
  "--app=" +:+ app record;
  "--version=" +:+ version record;
  "--no-debug";
  "--no-build";
  "--max-memory=" +:+ pretty (scale_115 (oom_threshold record))].

Definition compile_with_memory_min_command (record : benchmark_app) : list string := [
  "tools/run_on_app.py";
  "--compiler=r8";
  "--compiler-build=lib";
  "--app=" +:+ app record;
  "--version=" +:+ version record;
  "--no-debug";
  "--no-build";
  "--expect-oom";
  "--max-memory=" +:+ pretty (scale_085 (oom_threshold record))].

Definition TEST_COMMANDS : list (list string) :=
  [ ["tools/test.py"; "--only_internal"; "--slow_tests"; "--java_max_memory_size=8G"];
    ["tools/run_on_app.py"; "--run-all"; "--out=out"];
    ["tools/gradle.py"; "r8lib"] ]
  ++ (map find_min_xmx_command BENCHMARK_APPS
      ++ map compile_with_memory_max_command BENCHMARK_APPS
      ++ map compile_with_memory_min_command BENCHMARK_APPS).

Definition RUN_TIMEOUT : Z := 3600 * 6.
Definition BOT_RUN_TIMEOUT : Z := RUN_TIMEOUT * Z.of_nat (List.length TEST_COMMANDS).

(** ** Events: the calls that leave the Python process *)

Inductive exn :=
| Exception (msg : string)
| CalledProcessError
| AssertionError
| OSError.

Inductive event :=
(* utils: cloud storage, through gsutil *)
| FileExists (path : string)
| Cat (path : string)
| Delete (path : string)
| Upload (path : string) (content : string)
| Ls (path : string)
(* utils.get_HEAD_sha1 and subprocess *)
| HeadSha1
| Call (argv : list string)
| CheckOutput (argv : list string)
(* time *)
| Time
| Sleep (secs : Z)
(* local files *)
| ReadOwnFile
| ReadFile (path : string)
| TempDir
| RmTemp (path : string)
(* os.environ, the supervised child process *)
| Environ
| Popen (argv : list string) (env : option (gmap string string)) (out err : string)
| Poll
| Terminate
(* gradle.RunGradle(['--stop']), print, run_on_app.print_min_xmx_ranges_for_hash *)
| GradleStop
| Print (line : string)
| PrintMinXmx (hash : string).

Global Instance exn_eq_dec : EqDecision exn.
Proof. solve_decision. Defined.

Global Instance event_eq_dec : EqDecision event.
Proof. solve_decision. Defined.

(** What the call returns.  [Cat], [Ls] and [CheckOutput] answer [None]
    when the command fails, [Popen] answers [false] when the child cannot
    be started, [Poll] answers the return code once the child has ended. *)
Definition ans (e : event) : Type :=
  match e with
  | FileExists _ => bool
  | Cat _ => option string
  | Delete _ => unit
  | Upload _ _ => unit
  | Ls _ => option string
  | HeadSha1 => string
  | Call _ => Z
  | CheckOutput _ => option string
  | Time => Z
  | Sleep _ => unit
  | ReadOwnFile => string
  | ReadFile _ => string
  | TempDir => string
  | RmTemp _ => unit
  | Environ => gmap string string
  | Popen _ _ _ _ => bool
  | Poll => option Z
  | Terminate => unit
  | GradleStop => unit
  | Print _ => unit
  | PrintMinXmx _ => unit
  end.

(** An event together with its answer. *)
Definition obs : Type := sigT ans.

(** ** Programs *)

Inductive prog (A : Type) : Type :=
| Ret (a : A)
| Vis (e : event) (k : ans e → prog A)
| Raise (x : exn)            (* an exception propagates *)
| Exit (code : Z)            (* sys.exit(code) *)
| Execv                      (* os.execv(sys.argv[0], sys.argv) *)
| Spin.                      (* the loop goes on: out of fuel *)
Arguments Ret {A} a.
Arguments Vis {A} e k.
Arguments Raise {A} x.
Arguments Exit {A} code.
Arguments Execv {A}.
Arguments Spin {A}.

Fixpoint bind {A B} (p : prog A) (f : A → prog B) : prog B :=
  match p with
  | Ret a => f a
  | Vis e k => Vis e (λ x, bind (k x) f)
  | Raise x => Raise x
  | Exit c => Exit c
  | Execv => Execv
  | Spin => Spin
  end.

Global Instance prog_ret : MRet prog := @Ret.
Global Instance prog_bind : MBind prog := λ A B f p, bind p f.

Definition trigger (e : event) : prog (ans e) := Vis e Ret.

(** [for x in l: body(x)]. *)
Fixpoint for_each {A} (l : list A) (body : A → prog unit) : prog unit :=
  match l with
  | [] => Ret tt
  | x :: l' => body x ;; for_each l' body
  end.

(** [[f(x) for x in l]]. *)
Fixpoint comprehension {A B} (l : list A) (f : A → prog B) : prog (list B) :=
  match l with
  | [] => Ret []
  | x :: l' => y ← f x; ys ← comprehension l' f; Ret (y :: ys)
  end.

(** [try: p finally: h], and [with utils.TempDir() as temp: body(temp)]. *)
Fixpoint finally {A} (p : prog A) (h : prog unit) : prog A :=
  match p with
  | Ret a => h ;; Ret a
  | Vis e k => Vis e (λ x, finally (k x) h)
  | Raise x => h ;; Raise x
  | Exit c => h ;; Exit c
  | Execv => Execv
  | Spin => Spin
  end.

Arguments finally : simpl never.

Definition with_TempDir {A} (body : string → prog A) : prog A :=
  temp ← trigger TempDir;
  finally (body temp) (trigger (RmTemp temp)).

Definition nl : string := String "010"%char "".

(** ** The script *)

Module utils.

(** Modelled from the spec: tools/utils.py is not part of the sources.
    [archive_value] stores [str(value)] under [gs_dir/name], [archive_file]
    stores the bytes of a local file; [cat_file_on_cloud_storage] returns
    the bytes of a blob and raises when gsutil fails unless errors are
    ignored, in which case the result is the empty string. *)
Definition archive_file (name gs_dir src_file : string) : prog unit :=
  content ← trigger (ReadFile src_file);
  trigger (Upload (gs_dir +:+ "/" +:+ name) content).

Definition archive_value (name gs_dir : string) (value : Py.value) : prog unit :=
  trigger (Upload (gs_dir +:+ "/" +:+ name) (Py.str value)).

Definition cat_file_on_cloud_storage (destination : string) (ignore_errors : bool)
  : prog string :=
  r ← trigger (Cat destination);
  match r with
  | Some content => Ret content
  | None => if ignore_errors then Ret "" else Raise CalledProcessError
  end.

Definition ls_files_on_cloud_storage (destination : string) : prog string :=
  r ← trigger (Ls destination);
  match r with
  | Some listing => Ret listing
  | None => Raise CalledProcessError
  end.

Definition file_exists_on_cloud_storage (destination : string) : prog bool :=
  trigger (FileExists destination).

Definition delete_file_from_cloud_storage (destination : string) : prog unit :=
  trigger (Delete destination).

Definition get_HEAD_sha1 : prog string := trigger HeadSha1.

End utils.

Module subprocess.

Definition call (argv : list string) : prog Z := trigger (Call argv).

Definition check_call (argv : list string) : prog unit :=
  rc ← trigger (Call argv);
  if decide (rc = 0) then Ret tt else Raise CalledProcessError.

Definition check_output (argv : list string) : prog string :=
  r ← trigger (CheckOutput argv);
  match r with
  | Some out => Ret out
  | None => Raise CalledProcessError
  end.

End subprocess.

Record options := {
  continuous : bool;
  print_logs : option string;
  bot : bool;
  archive : bool
}.

Section Script.

(** [utils.R8_TEST_RESULTS_BUCKET], a constant of the absent tools/utils.py. *)
Variable R8_TEST_RESULTS_BUCKET : string.

Definition get_own_file_content : prog string := trigger ReadOwnFile.

Definition restart_if_new_version (original_content : string) : prog unit :=
  new_content ← get_own_file_content;
  (* Restart if the script got updated. *)
  if decide (new_content ≠ original_content) then Execv else Ret tt.

Definition ensure_git_clean : prog unit :=
  diff ← subprocess.check_output ["git"; "diff"];
  if decide (0 < String.length diff)%nat then Exit 1 else Ret tt.

Definition git_pull : prog string :=
  ensure_git_clean ;;
  subprocess.check_call ["git"; "checkout"; "master"] ;;
  subprocess.check_call ["git"; "pull"] ;;
  utils.get_HEAD_sha1.

Definition git_checkout (git_hash : string) : prog (option string) :=
  ensure_git_clean ;;
  (* Ensure that we are up to date to get the commit. *)
  git_pull ;;
  exitcode ← subprocess.call ["git"; "checkout"; git_hash];
  if decide (exitcode ≠ 0) then Ret None
  else sha ← utils.get_HEAD_sha1; Ret (Some sha).

Definition get_test_result_dir : string :=
  Py.os_path_join R8_TEST_RESULTS_BUCKET TEST_RESULT_DIR.

Definition get_sha_destination (sha : string) : string :=
  Py.os_path_join get_test_result_dir sha.

Definition archive_status (failed : Z) : prog unit :=
  sha ← utils.get_HEAD_sha1;
  let gs_destination := "gs://" +:+ get_sha_destination sha in
  utils.archive_value "status" gs_destination (Py.Int failed).

Definition get_status (sha : string) : prog string :=
  let gs_destination := "gs://" +:+ get_sha_destination sha +:+ "/status" in
  utils.cat_file_on_cloud_storage gs_destination false.

Definition archive_log (stdout stderr : string) (exitcode : Z) (timed_out : bool)
    (cmd : string) : prog unit :=
  sha ← utils.get_HEAD_sha1;
  let cmd_dir := Py.replace "/" "_" (Py.replace " " "_" cmd) in
  let destination := Py.os_path_join (get_sha_destination sha) cmd_dir in
  let gs_destination := "gs://" +:+ destination in
  utils.archive_value EXITCODE gs_destination (Py.Int exitcode) ;;
  utils.archive_value TIMED_OUT gs_destination (Py.Bool timed_out) ;;
  utils.archive_file STDOUT gs_destination stdout ;;
  utils.archive_file STDERR gs_destination stderr.

Definition get_magic_file_base_path : string :=
  "gs://" +:+ get_test_result_dir +:+ "/magic".

Definition get_magic_file_gs_path (name : string) : string :=
  get_magic_file_base_path +:+ "/" +:+ name.

Definition get_magic_file_exists (name : string) : prog bool :=
  utils.file_exists_on_cloud_storage (get_magic_file_gs_path name).

Definition delete_magic_file (name : string) : prog unit :=
  utils.delete_file_from_cloud_storage (get_magic_file_gs_path name).

Definition put_magic_file (name sha : string) : prog unit :=
  utils.archive_value name get_magic_file_base_path (Py.Str sha).

Definition get_magic_file_content (name : string) (ignore_errors : bool) : prog string :=
  utils.cat_file_on_cloud_storage (get_magic_file_gs_path name) ignore_errors.

Definition print_magic_file_state : prog unit :=
  for_each ALL_MAGIC (λ magic,
    ex ← get_magic_file_exists magic;
    if ex : bool then
      get_magic_file_content magic true ;; Ret tt
    else Ret tt).

Definition fetch_and_print_logs (hash : string) : prog Py.value :=
  let gs_base := "gs://" +:+ get_sha_destination hash in
  out ← utils.ls_files_on_cloud_storage gs_base;
  let listing := Py.split "010" (Py.strip out) in
  for_each listing (λ entry,
    if negb (Py.endswith entry "/status") then (* Ignore the overall status file *)
      for_each [EXITCODE; TIMED_OUT; STDERR; STDOUT] (λ to_print,
        let gs_location := entry +:+ to_print in
        value ← utils.cat_file_on_cloud_storage gs_location false;
        trigger (Print (nl +:+ nl +:+ to_print +:+ " had value:" +:+ nl +:+ value)))
    else Ret tt) ;;
  trigger (Print (nl +:+ nl +:+ "Printing find-min-xmx ranges for apps")) ;;
  trigger (PrintMinXmx hash) ;;
  Ret Py.None_.

(** The [while True] loop of [run_bot], entered after [begin = time.time()];
    it returns on [break]. *)
Fixpoint run_bot_wait (fuel : nat) (git_hash : string) (begin : Z) : prog unit :=
  match fuel with
  | O => Spin
  | S fuel' =>
      now ← trigger Time;
      if decide (now - begin > BOT_RUN_TIMEOUT) then Raise (Exception "Bot timeout")
      else
        ex ← get_magic_file_exists TESTING_COMPLETE;
        if ex : bool then
          content ← get_magic_file_content TESTING_COMPLETE false;
          if decide (content = git_hash) then Ret tt
          else
            content' ← get_magic_file_content TESTING_COMPLETE false;
            Raise (Exception ("Non matching git hashes " +:+ content'
                              +:+ " and " +:+ git_hash))
        else
          print_magic_file_state ;;
          trigger (Sleep PULL_DELAY) ;;
          run_bot_wait fuel' git_hash begin
  end.

(** The rest of [run_bot] from the [while True] loop on: wait for the
    tester, read the status, delete [TESTING_COMPLETE] and return. *)
Definition run_bot_collect (fuel : nat) (git_hash : string) (begin : Z)
  : prog Py.value :=
  run_bot_wait fuel git_hash begin ;;
  _ ← trigger Time;
  test_status ← get_status git_hash;
  delete_magic_file TESTING_COMPLETE ;;
  if decide (test_status ≠ "0") then
    trigger (Print "Tests failed, you can print the logs by running(googlers only):") ;;
    trigger (Print ("  tools/internal_test.py --print_logs " +:+ git_hash)) ;;
    Ret (Py.Int 1)
  else Ret Py.None_.

Definition run_bot (fuel : nat) : prog Py.value :=
  print_magic_file_state ;;
  (* Ensure that there is nothing currently scheduled (broken/stopped run) *)
  for_each ALL_MAGIC (λ magic,
    ex ← get_magic_file_exists magic;
    if ex : bool then delete_magic_file magic else Ret tt) ;;
  print_magic_file_state ;;
  ex ← get_magic_file_exists READY_FOR_TESTING;
  if ex : bool then Raise AssertionError
  else
    git_hash ← utils.get_HEAD_sha1;
    put_magic_file READY_FOR_TESTING git_hash ;;
    begin ← trigger Time;
    run_bot_collect fuel git_hash begin.

Definition handle_output (archive : bool) (stderr stdout : string) (exitcode : Z)
    (timed_out : bool) (cmd : string) : prog unit :=
  if archive then archive_log stdout stderr exitcode timed_out cmd
  else
    trigger (Print ("Execution of " +:+ cmd +:+ " resulted in:")) ;;
    trigger (Print ("exit code: " +:+ Py.str (Py.Int exitcode) +:+ " ")) ;;
    trigger (Print ("timeout: " +:+ Py.str (Py.Bool timed_out) +:+ " ")) ;;
    err ← trigger (ReadFile stderr);
    trigger (Print ("stderr: " +:+ err)) ;;
    out ← trigger (ReadFile stdout);
    trigger (Print ("stdout: " +:+ out)).

(** The [while popen.poll() == None] loop of [execute]; it returns
    [popen.returncode] and the local [timed_out]. *)
Fixpoint execute_wait (fuel : nat) (begin : Z) (timed_out : bool) : prog (Z * bool) :=
  match fuel with
  | O => Spin
  | S fuel' =>
      r ← trigger Poll;
      match r with
      | Some returncode => Ret (returncode, timed_out)
      | None =>
          now ← trigger Time;
          timed_out' ← (if decide (now - begin > RUN_TIMEOUT)
                        then trigger Terminate ;; Ret true
                        else Ret timed_out);
          trigger (Sleep 2) ;;
          execute_wait fuel' begin timed_out'
      end
  end.

(** [execute]: when [Popen] raises, [exitcode] is still 0 in the [finally]
    block, which then archives nothing; the two [open] calls of the log
    files are left out. *)
Definition execute (fuel : nat) (cmd : list string) (archive : bool)
    (env : option (gmap string string)) : prog Py.value :=
  if decide (cmd = []) then Ret Py.None_
  else
    with_TempDir (λ temp,
      let stderr := Py.os_path_join temp "stderr" in
      let stdout := Py.os_path_join temp "stdout" in
      started ← trigger (Popen cmd env stdout stderr);
      if started : bool then
        begin ← trigger Time;
        '(returncode, timed_out) ← execute_wait fuel begin false;
        let exitcode := returncode in
        (if decide (exitcode ≠ 0)
         then handle_output archive stderr stdout returncode timed_out (Py.join " " cmd)
         else Ret tt) ;;
        Ret (Py.Int exitcode)
      else Raise OSError).

(** [run_once] over a list of commands; the script runs [TEST_COMMANDS]. *)
Definition run_once_on (commands : list (list string)) (fuel : nat) (archive : bool)
  : prog Py.value :=
  _ ← utils.get_HEAD_sha1;
  environ ← trigger Environ;
  (* Bot does not have a lot of memory. *)
  let env := <["R8_GRADLE_CORES_PER_FORK" := "16"]> environ in
  results ← comprehension commands (λ cmd, execute fuel cmd archive (Some env));
  let failed := Py.any results in
  (* Gradle daemon occasionally leaks memory, stop it. *)
  trigger GradleStop ;;
  archive_status (if failed then 1 else 0) ;;
  Ret (Py.Bool failed).

Definition run_once (fuel : nat) (archive : bool) : prog Py.value :=
  run_once_on TEST_COMMANDS fuel archive.

(** [not checked_out] for the result of [git_checkout]. *)
Definition not_checked_out (checked_out : option string) : bool :=
  match checked_out with
  | None => true
  | Some sha => bool_decide (sha = "")
  end.

(** One pass through the body of the [while True] loop of
    [run_continuously]; the result is [false] when the pass ends in
    [continue], which skips the sleep. *)
Definition run_continuously_iteration (cmd_fuel : nat) (own_content : string)
  : prog bool :=
  restart_if_new_version own_content ;;
  print_magic_file_state ;;
  ex ← get_magic_file_exists READY_FOR_TESTING;
  if ex : bool then
    git_hash ← get_magic_file_content READY_FOR_TESTING false;
    checked_out ← git_checkout git_hash;
    if not_checked_out checked_out then
      (* Gerrit change, we don't run these on internal. *)
      archive_status 0 ;;
      put_magic_file TESTING_COMPLETE git_hash ;;
      delete_magic_file READY_FOR_TESTING ;;
      Ret false
    else
      (* If the script changed, we need to restart now to get correct commands
         Note that we have not removed the READY_FOR_TESTING yet, so if we
         execv we will pick up the same version. *)
      restart_if_new_version own_content ;;
      (* Sanity check, if this does not succeed stop. *)
      if decide (checked_out ≠ Some git_hash) then Exit 1
      else
        put_magic_file TESTING git_hash ;;
        delete_magic_file READY_FOR_TESTING ;;
        _ ← run_once cmd_fuel true;
        put_magic_file TESTING_COMPLETE git_hash ;;
        delete_magic_file TESTING ;;
        Ret true
  else Ret true.

Fixpoint run_continuously_loop (fuel cmd_fuel : nat) (own_content : string)
  : prog unit :=
  match fuel with
  | O => Spin
  | S fuel' =>
      sleep ← run_continuously_iteration cmd_fuel own_content;
      (if sleep : bool then trigger (Sleep PULL_DELAY) else Ret tt) ;;
      run_continuously_loop fuel' cmd_fuel own_content
  end.

Definition run_continuously (fuel cmd_fuel : nat) : prog unit :=
  (* If this script changes, we will restart ourselves *)
  own_content ← get_own_file_content;
  run_continuously_loop fuel cmd_fuel own_content.

Definition Main (opts : options) (fuel cmd_fuel : nat) : prog Py.value :=
  if continuous opts then run_continuously fuel cmd_fuel ;; Ret Py.None_
  else if bot opts then run_bot fuel
  else if Py.truthy (from_option Py.Str Py.None_ (print_logs opts))
       then fetch_and_print_logs (default "" (print_logs opts))
       else run_once cmd_fuel (archive opts).

(** [sys.exit(Main())]. *)
Definition script (opts : options) (fuel cmd_fuel : nat) : prog Empty_set :=
  v ← Main opts fuel cmd_fuel;
  Exit (Py.exit_status v).

End Script.

Arguments get_test_result_dir : simpl never.
Arguments get_sha_destination : simpl never.
Arguments get_magic_file_base_path : simpl never.
Arguments get_magic_file_gs_path : simpl never.
Arguments restart_if_new_version : simpl never.
Arguments git_checkout : simpl never.
Arguments archive_status : simpl never.
Arguments get_status : simpl never.
Arguments archive_log : simpl never.
Arguments print_magic_file_state : simpl never.
Arguments fetch_and_print_logs : simpl never.
Arguments run_bot_collect : simpl never.
Arguments run_bot : simpl never.
Arguments handle_output : simpl never.
Arguments execute : simpl never.
Arguments run_once_on : simpl never.
Arguments run_once : simpl never.
Arguments run_continuously_iteration : simpl never.

(** ** The cloud store *)

(** Modelled from the spec: the object store client is not part of the
    sources.  Blobs are kept by key; put, delete, exists and get act on one
    key; a listing of [base] names the blobs directly under [base/] and,
    with a closing slash, the directories under it, one per line, and fails
    when there is none. *)
Fixpoint drop_string (n : nat) (s : string) : string :=
  match n, s with
  | O, _ => s
  | S n', String _ s' => drop_string n' s'
  | S _, EmptyString => EmptyString
  end.

Fixpoint first_segment (s : string) : string :=
  match s with
  | EmptyString => EmptyString
  | String c s' => if decide (c = "/"%char) then "/" else String c (first_segment s')
  end.

Definition ls_entry (base key : string) : option string :=
  if Py.startswith key (base +:+ "/")
  then Some (base +:+ "/" +:+ first_segment (drop_string (String.length base + 1) key))
  else None.

Definition gs_ls (st : gmap string string) (base : string) : option string :=
  let entries := remove_dups (omap (ls_entry base) (map_to_list st).*1) in
  if decide (entries = []) then None
  else Some (foldr (λ entry out, entry +:+ nl +:+ out) "" entries).

Definition gs_step (st : gmap string string) (e : event)
  : option (ans e * gmap string string) :=
  match e return option (ans e * gmap string string) with
  | FileExists path => Some (bool_decide (is_Some (st !! path)), st)
  | Cat path => Some (st !! path, st)
  | Delete path => Some (tt, delete path st)
  | Upload path content => Some (tt, <[path := content]> st)
  | Ls path => Some (gs_ls st path, st)
  | _ => None
  end.

(** ** Sequential runs *)

Inductive outcome (A : Type) :=
| Returned (a : A)
| Raised (x : exn)
| Exited (code : Z)
| Execved
| Spinning.
Arguments Returned {A} a.
Arguments Raised {A} x.
Arguments Exited {A} code.
Arguments Execved {A}.
Arguments Spinning {A}.

Record run (W A : Type) := Run {
  outcome_of : outcome A;
  world_of : W;
  observed : list obs
}.
Arguments Run {W A}.
Arguments outcome_of {W A}.
Arguments world_of {W A}.
Arguments observed {W A}.

(** A handler answers every event from a world of its own choice: the
    theorems stated for every handler hold whatever the cloud store, git,
    the clock, the child process and the other party do. *)
Definition handler (W : Type) : Type := ∀ e : event, W → ans e * W.

Fixpoint exec {W A} (h : handler W) (p : prog A) (w : W) : run W A :=
  match p with
  | Ret a => Run (Returned a) w []
  | Vis e k =>
      let r := exec h (k (h e w).1) (h e w).2 in
      Run (outcome_of r) (world_of r) (existT e (h e w).1 :: observed r)
  | Raise x => Run (Raised x) w []
  | Exit c => Run (Exited c) w []
  | Execv => Run Execved w []
  | Spin => Run Spinning w []
  end.

(** The world of one party alone on the cloud store: the store answers the
    storage events, an oracle with a state of its own answers the rest. *)
Record cloud (S : Type) := Cloud { env : S; gs : gmap string string }.
Arguments Cloud {S}.
Arguments env {S}.
Arguments gs {S}.

Definition on_cloud {S} (oracle : ∀ e : event, S → ans e * S) : handler (cloud S) :=
  λ e w,
    match gs_step (gs w) e with
    | Some (x, st') => (x, Cloud (env w) st')
    | None => let '(x, s') := oracle e (env w) in (x, Cloud s' (gs w))
    end.

(** The exit status of the process: an uncaught exception ends it with
    status 1; [None] while it has not ended. *)
Definition process_exit_code (o : outcome Empty_set) : option Z :=
  match o with
  | Exited c => Some c
  | Raised _ => Some 1
  | _ => None
  end.

(** ** A scripted environment, for running the programs on examples

    Each kind of call takes its answers from a list of its own, in order;
    when the list is used up the call gives a default answer (the clock
    stays at 0, the child has ended with code 0, git succeeds, files are
    empty). *)
Record scripted := Scripted {
  clock : list Z;
  polls : list (option Z);
  own_file : list string;
  heads : list string;
  exit_codes : list Z;
  outputs : list (option string);
  files : list (string * string);
  starts : list bool
}.

Definition pop {A} (d : A) (l : list A) : A * list A :=
  match l with
  | [] => (d, [])
  | x :: l' => (x, l')
  end.

Definition scripted_oracle (e : event) (s : scripted) : ans e * scripted :=
  match e return ans e * scripted with
  | Time =>
      let '(x, l) := pop 0 (clock s) in
      (x, Scripted l (polls s) (own_file s) (heads s) (exit_codes s) (outputs s) (files s) (starts s))
  | Poll =>
      let '(x, l) := pop (Some 0) (polls s) in
      (x, Scripted (clock s) l (own_file s) (heads s) (exit_codes s) (outputs s) (files s) (starts s))
  | ReadOwnFile =>
      let '(x, l) := pop "" (own_file s) in
      (x, Scripted (clock s) (polls s) l (heads s) (exit_codes s) (outputs s) (files s) (starts s))
  | HeadSha1 =>
      let '(x, l) := pop "" (heads s) in
      (x, Scripted (clock s) (polls s) (own_file s) l (exit_codes s) (outputs s) (files s) (starts s))
  | Call _ =>
      let '(x, l) := pop 0 (exit_codes s) in
      (x, Scripted (clock s) (polls s) (own_file s) (heads s) l (outputs s) (files s) (starts s))
  | CheckOutput _ =>
      let '(x, l) := pop (Some "") (outputs s) in
      (x, Scripted (clock s) (polls s) (own_file s) (heads s) (exit_codes s) l (files s) (starts s))
  | Popen _ _ _ _ =>
      let '(x, l) := pop true (starts s) in
      (x, Scripted (clock s) (polls s) (own_file s) (heads s) (exit_codes s) (outputs s) (files s) l)
  | ReadFile path => (default "" (list_to_map (M := gmap string string) (files s) !! path), s)
  | TempDir => ("/tmp/tmp0", s)
  | Environ => (∅, s)
  | FileExists _ => (false, s)
  | Cat _ => (None, s)
  | Ls _ => (None, s)
  | Delete _ | Upload _ _ | Sleep _ | RmTemp _ | Terminate | GradleStop
  | Print _ | PrintMinXmx _ => (tt, s)
  end.

Definition quiet : scripted := Scripted [] [] [] [] [] [] [] [].

(** ** Execution Records, read off a run

    The record of one supervised child: the return code that [poll] finally
    reports, and whether [terminate] was sent to it. *)
Record execution_record := Record_ { exit_code : Z; timed_out : bool }.

Fixpoint records_from (running : option bool) (tr : list obs) : list execution_record :=
  match tr with
  | [] => []
  | existT e x :: tr' =>
      match e return ans e → list execution_record with
      | Popen _ _ _ _ => λ started : bool,
          records_from (if started then Some false else running) tr'
      | Terminate => λ _, records_from (const true <$> running) tr'
      | Poll => λ r : option Z,
          match r, running with
          | Some rc, Some t => Record_ rc t :: records_from None tr'
          | _, _ => records_from running tr'
          end
      | _ => λ _, records_from running tr'
      end x
  end.

Definition execution_records (tr : list obs) : list execution_record :=
  records_from None tr.

Definition record_failed (r : execution_record) : bool := bool_decide (exit_code r ≠ 0).

(** The run of [p ≫= f], from the run of [p]. *)
Definition then_run {W A B} (h : handler W) (r : run W A) (f : A → prog B) : run W B :=
  match outcome_of r with
  | Returned a =>
      let r' := exec h (f a) (world_of r) in
      Run (outcome_of r') (world_of r') (observed r ++ observed r')
  | Raised x => Run (Raised x) (world_of r) (observed r)
  | Exited c => Run (Exited c) (world_of r) (observed r)
  | Execved => Run Execved (world_of r) (observed r)
  | Spinning => Run Spinning (world_of r) (observed r)
  end.


(** All characters of a string satisfy [P]. *)
Fixpoint all_chars (P : ascii → bool) (s : string) : bool :=
  match s with
  | EmptyString => true
  | String c s' => P c && all_chars P s'
  end.

(** A name that is fit to be one segment of a blob key: not empty, without
    slash and without white space. *)
Definition plain (s : string) : bool :=
  negb (bool_decide (s = ""))
  && all_chars (λ c, negb (bool_decide (c = "/"%char)) && negb (Ascii.is_space c)) s.

(** The last character of a string, [d] for the empty string. *)
Fixpoint last_ascii (s : string) (d : ascii) : ascii :=
  match s with
  | EmptyString => d
  | String c s' => last_ascii s' c
  end.

(** ** Properties of every run

    [wp p Q]: on every path through [p], whatever the answers, the observed
    events and the outcome satisfy [Q]. *)
Fixpoint wp {A} (p : prog A) (Q : list obs → outcome A → Prop) : Prop :=
  match p with
  | Ret a => Q [] (Returned a)
  | Vis e k => ∀ x : ans e, wp (k x) (λ tr o, Q (existT e x :: tr) o)
  | Raise x => Q [] (Raised x)
  | Exit c => Q [] (Exited c)
  | Execv => Q [] Execved
  | Spin => Q [] Spinning
  end.

(** The postcondition of [p ≫= f] in terms of the one of [p]. *)
Definition bind_post {A B} (f : A → prog B) (Q : list obs → outcome B → Prop)
  : list obs → outcome A → Prop :=
  λ tr o,
    match o with
    | Returned a => wp (f a) (λ tr' o', Q (tr ++ tr') o')
    | Raised x => Q tr (Raised x)
    | Exited c => Q tr (Exited c)
    | Execved => Q tr Execved
    | Spinning => Q tr Spinning
    end.

(** Every event that [p] can perform satisfies [P]. *)
Fixpoint performs {A} (P : event → Prop) (p : prog A) : Prop :=
  match p with
  | Vis e k => P e ∧ ∀ x : ans e, performs P (k x)
  | _ => True
  end.

(** Events that do not touch the supervised child. *)
Definition no_child (e : event) : Prop :=
  match e with
  | Popen _ _ _ _ | Poll | Terminate => False
  | _ => True
  end.

(** ** Example inputs *)

Definition bot_options : options :=
  {| continuous := false; print_logs := None; bot := true; archive := false |}.

Definition example_bucket : string := "r8-test-results".

(** A child that is still running at the first poll, 21601 seconds after
    its start, and has ended with return code 0 at the second poll. *)
Definition overrunning_child : cloud scripted :=
  Cloud (Scripted [0; 21601] [None; Some 0] [] ["abc"; "abc"] [] [] [] []) ∅.

(** A child that has ended with return code 2 at the first poll. *)
Definition failing_child : cloud scripted :=
  Cloud (Scripted [0] [Some 2] [] ["abc"; "abc"; "abc"] [] [] [] []) ∅.

(** A child that is still running at the first poll, 21601 seconds after
    its start, and has been ended by the signal at the second poll. *)
Definition killed_child : cloud scripted :=
  Cloud (Scripted [0; 21601] [None; Some (-15)] [] ["abc"; "abc"] [] [] [] []) ∅.

(** A store in which [TESTING_COMPLETE] carries "old". *)
Definition foreign_finished : cloud scripted :=
  Cloud quiet {[ get_magic_file_gs_path example_bucket TESTING_COMPLETE := "old" ]}.

(** A world for the bot in which the tester is at work: whenever the bot
    sleeps, the tester runs one pass of its loop on the same store. *)
Definition with_tester (bucket : string) (cmd_fuel : nat) (own_content : string)
  : handler (cloud scripted) :=
  λ e,
    match e return cloud scripted → ans e * cloud scripted with
    | Sleep _ => λ w,
        (tt, world_of (exec (on_cloud scripted_oracle)
                         (run_continuously_iteration bucket cmd_fuel own_content) w))
    | e' => on_cloud scripted_oracle e'
    end.

(** The repository is at commit "abc" on both sides; the first test command
    ends with return code 2, the others with 0. *)
Definition failing_tests : cloud scripted :=
  Cloud (Scripted [] [Some 2] [] (replicate 10 "abc") [] [] [] []) ∅.

(** The same with all commands ending with 0. *)
Definition passing_tests : cloud scripted :=
  Cloud (Scripted [] [] [] (replicate 10 "abc") [] [] [] []) ∅.

(** ** The order of events in a pass of the tester *)

(** Events that only inspect: reads of the store, of the own file, and git. *)
Definition is_check (e : event) : Prop :=
  match e with
  | FileExists _ | Cat _ | HeadSha1 | Call _ | CheckOutput _ | ReadOwnFile => True
  | _ => False
  end.

(** Whether this tester has written [TESTING] and not yet deleted it, after
    the events [tr], when it was [held] before them. *)
Definition claimed_from (bucket : string) (held : bool) (tr : list obs) : bool :=
  foldl (λ (held : bool) (o : obs),
           match projT1 o with
           | Upload path _ =>
               if decide (path = get_magic_file_gs_path bucket TESTING) then true else held
           | Delete path =>
               if decide (path = get_magic_file_gs_path bucket TESTING) then false else held
           | _ => held
           end) held tr.

Definition claimed_unfinished (bucket : string) (tr : list obs) : bool :=
  claimed_from bucket false tr.

(** The events of a pass split into checks followed by writes:
    - no self-update check (read of the own file) is among the writes;
    - a pass that ends in [execv] has written nothing;
    - a pass that returns holds no claim at its end;
    - when [TESTING] is written, this is the first write, and the checks end
      with the successful checkout of the commit, the read of its sha1 and a
      self-update check. *)
Definition claim_discipline (bucket : string) (checks writes : list obs)
    (o : outcome bool) : Prop :=
  Forall (λ x : obs, projT1 x ≠ ReadOwnFile) writes
  ∧ (o = Execved → writes = [])
  ∧ ((∃ b, o = Returned b) → claimed_from bucket false writes = false)
  ∧ (∀ w1 git_hash w2,
       writes = w1 ++ existT (Upload (get_magic_file_gs_path bucket TESTING) git_hash) tt :: w2 →
       w1 = []
       ∧ ∃ checks' sha own,
           checks = checks' ++ [existT (Call ["git"; "checkout"; git_hash]) 0;
                                existT HeadSha1 sha;
                                existT ReadOwnFile own]).

Definition shape {B} (W : list obs → list obs → outcome B → Prop)
  : list obs → outcome B → Prop :=
  λ tr o, ∃ checks writes,
    tr = checks ++ writes
    ∧ Forall (λ x : obs, is_check (projT1 x)) checks
    ∧ W checks writes o.

(** Events of the run sequencer: no self-update check, and no write to a
    magic file. *)
Definition no_magic_write (bucket : string) (e : event) : Prop :=
  match e with
  | Upload path _ | Delete path =>
      ∀ name, name ∈ ALL_MAGIC → path ≠ get_magic_file_gs_path bucket name
  | ReadOwnFile => False
  | _ => True
  end.

(** [p] never replaces the process. *)
Fixpoint never_execs {A} (p : prog A) : Prop :=
  match p with
  | Vis e k => ∀ x : ans e, never_execs (k x)
  | Execv => False
  | _ => True
  end.

(** The tester finds work offered for commit "abc", which is the head of
    its repository after the checkout; all commands end with 0. *)
Definition offered_abc : cloud scripted :=
  Cloud (Scripted [] [] [] (replicate 10 "abc") [] [] [] [])
        {[ get_magic_file_gs_path example_bucket READY_FOR_TESTING := "abc" ]}.

(** The same, but the checkout changes the script itself: the third read of
    the own file differs from the first two. *)
Definition updated_script : cloud scripted :=
  Cloud (Scripted [] [] [""; ""; "v2"] (replicate 10 "abc") [] [] [] [])
        {[ get_magic_file_gs_path example_bucket READY_FOR_TESTING := "abc" ]}.

(** ** The store along a run *)

(** The store after the events [tr], from the store [st]. *)
Definition replay (st : gmap string string) (tr : list obs) : gmap string string :=
  foldl (λ st o, match gs_step st (projT1 o) with
                 | Some (_, st') => st'
                 | None => st
                 end) st tr.

(** The names of the magic files that exist in a store. *)
Definition magic_present (bucket : string) (st : gmap string string) : list string :=
  filter (λ name, is_Some (st !! get_magic_file_gs_path bucket name)) ALL_MAGIC.

(** [wpt p st Q]: in every run of [p] alone on the cloud store [st],
    whatever the oracle answers, [Q] holds of the observed events, the
    outcome and the final store. *)
Fixpoint wpt {A} (p : prog A) (st : gmap string string)
    (Q : list obs → outcome A → gmap string string → Prop) : Prop :=
  match p with
  | Ret a => Q [] (Returned a) st
  | Vis e k =>
      match gs_step st e with
      | Some (x, st') => wpt (k x) st' (λ tr, Q (existT e x :: tr))
      | None => ∀ x : ans e, wpt (k x) st (λ tr, Q (existT e x :: tr))
      end
  | Raise x => Q [] (Raised x) st
  | Exit c => Q [] (Exited c) st
  | Execv => Q [] Execved st
  | Spin => Q [] Spinning st
  end.

(** The postcondition of [p ≫= f] for [wpt]. *)
Definition bind_postt {A B} (f : A → prog B)
    (Q : list obs → outcome B → gmap string string → Prop)
  : list obs → outcome A → gmap string string → Prop :=
  λ tr o st,
    match o with
    | Returned a => wpt (f a) st (λ tr', Q (tr ++ tr'))
    | Raised x => Q tr (Raised x) st
    | Exited c => Q tr (Exited c) st
    | Execved => Q tr Execved st
    | Spinning => Q tr Spinning st
    end.

(** [wpc p st I Q]: in every run of [p] alone on the cloud store [st],
    whatever the oracle answers, [I e st'] holds whenever an event [e] is
    performed in the store [st'], and [Q] holds of the outcome and the final
    store. *)
Fixpoint wpc {A} (p : prog A) (st : gmap string string)
    (I : event → gmap string string → Prop)
    (Q : outcome A → gmap string string → Prop) : Prop :=
  match p with
  | Ret a => Q (Returned a) st
  | Vis e k =>
      I e st
      ∧ match gs_step st e with
        | Some (x, st') => wpc (k x) st' I Q
        | None => ∀ x : ans e, wpc (k x) st I Q
        end
  | Raise x => Q (Raised x) st
  | Exit c => Q (Exited c) st
  | Execv => Q Execved st
  | Spin => Q Spinning st
  end.

(** The postcondition of [p ≫= f] for [wpc]. *)
Definition bind_postc {A B} (f : A → prog B)
    (I : event → gmap string string → Prop)
    (Q : outcome B → gmap string string → Prop)
  : outcome A → gmap string string → Prop :=
  λ o st,
    match o with
    | Returned a => wpc (f a) st I Q
    | Raised x => Q (Raised x) st
    | Exited c => Q (Exited c) st
    | Execved => Q Execved st
    | Spinning => Q Spinning st
    end.

(** The tester finds work offered for "abc", which it cannot check out: its
    repository stays at "def", the head of the tracked branch. *)
Definition gerrit_change : cloud scripted :=
  Cloud (Scripted [] [] [] ["def"; "def"] [0; 0; 1] [] [] [])
        {[ get_magic_file_gs_path example_bucket READY_FOR_TESTING := "abc" ]}.

(** The bot at commit "abc" and a tester that cannot check "abc" out. *)
Definition gerrit_handoff : cloud scripted :=
  Cloud (Scripted [] [] [] ["abc"; "def"; "def"] [0; 0; 1] [] [] []) ∅.

(** Work is offered for "abc" while a stale [TESTING_COMPLETE] of an earlier
    round is still in the store. *)
Definition stale_finished : cloud scripted :=
  Cloud (Scripted [] [] [] (replicate 10 "abc") [] [] [] [])
        (<[ get_magic_file_gs_path example_bucket TESTING_COMPLETE := "old" ]>
           {[ get_magic_file_gs_path example_bucket READY_FOR_TESTING := "abc" ]}).

(** ** Archived logs *)

(** The key of one field of the Archived Log Entry of (identifier, label),
    and the fields in the order in which they are printed. *)
Definition log_key (bucket sha label field : string) : string :=
  "gs://" +:+ get_sha_destination bucket sha +:+ "/" +:+ label +:+ "/" +:+ field.

Definition log_fields : list string := [EXITCODE; TIMED_OUT; STDERR; STDOUT].

(** The blobs under an identifier are its status and complete log entries
    under plain labels, as [archive_status] and [archive_log] leave them. *)
Definition logs_complete (bucket sha : string) (st : gmap string string) : Prop :=
  ∀ key,
    is_Some (st !! key) →
    Py.startswith key ("gs://" +:+ get_sha_destination bucket sha +:+ "/") = true →
    key = "gs://" +:+ get_sha_destination bucket sha +:+ "/status"
    ∨ ∃ label,
        plain label = true
        ∧ key ∈ log_key bucket sha label <$> log_fields
        ∧ ∀ field, field ∈ log_fields → is_Some (st !! log_key bucket sha label field).

(** What [fetch_and_print_logs] prints for one field. *)
Definition printed (field value : string) : string :=
  nl +:+ nl +:+ field +:+ " had value:" +:+ nl +:+ value.

(** The store holds the status of "abc" and nothing else. *)
Definition status_only : cloud scripted :=
  Cloud (Scripted [] [] [] ["abc"] [] [] [("/tmp/tmp0/stdout", "passed 10"); ("/tmp/tmp0/stderr", "failed 1")] [])
        {[ "gs://" +:+ get_sha_destination example_bucket "abc" +:+ "/status" := "1" ]}.

(** What [fetch_and_print_logs] reads and prints for one line of the listing
    whose fields have the given values. *)
Definition fetched (entry : string) (values : list (string * string)) : list obs :=
  flat_map (λ '(field, value),
    [(existT (Cat (entry +:+ field)) (Some value) : obs);
     (existT (Print (printed field value)) tt : obs)]) values.

(** The fields of a line of the listing that the store holds. *)
Definition fields_of (st : gmap string string) (entry : string) : list (string * string) :=
  omap (λ field, pair field <$> st !! (entry +:+ field)) log_fields.

(** What [fetch_and_print_logs] reads and prints for one line of the listing
    on the store [st]. *)
Definition fetched_entry (st : gmap string string) (entry : string) : list obs :=
  if Py.endswith entry "/status" then [] else fetched entry (fields_of st entry).

(** The store that [archive_log] leaves. *)
Definition archived (bucket sha label : string) (exitcode : Z) (timed_out : bool)
    (out err : string) (st : gmap string string) : gmap string string :=
  <[log_key bucket sha label STDERR := err]>
    (<[log_key bucket sha label STDOUT := out]>
       (<[log_key bucket sha label TIMED_OUT := Py.str (Py.Bool timed_out)]>
          (<[log_key bucket sha label EXITCODE := Py.str (Py.Int exitcode)]> st))).

(** ** The bot and the tester on one store

    The two scripts run as two processes that share nothing but the cloud
    store.  A state of the system is what is left to run of each script and
    the store; a step is one event of one of the two. *)

Record system := System {
  bot_of : prog Py.value;
  tester_of : prog unit;
  store_of : gmap string string
}.

(** One event of a script: a cloud storage event gets the answer of the
    store and changes it, any other event (clock, git, child process, local
    files) gets an arbitrary answer. *)
Inductive prog_step {A} : prog A → gmap string string → prog A → gmap string string → Prop :=
| step_store e k st x st' :
    gs_step st e = Some (x, st') → prog_step (Vis e k) st (k x) st'
| step_local e k st x :
    gs_step st e = None → prog_step (Vis e k) st (k x) st.

(** The steps of the system.  A tester that has reached [os.execv] starts
    over; the script it restarts is taken to be this one. *)
Inductive sys_step (bucket : string) (fuel cmd_fuel : nat) : system → system → Prop :=
| bot_step b b' t st st' :
    prog_step b st b' st' → sys_step bucket fuel cmd_fuel (System b t st) (System b' t st')
| tester_step b t t' st st' :
    prog_step t st t' st' → sys_step bucket fuel cmd_fuel (System b t st) (System b t' st')
| tester_restart b st :
    sys_step bucket fuel cmd_fuel (System b Execv st)
      (System b (run_continuously bucket fuel cmd_fuel) st).

(** A schedule, run against the scripted oracle: the parties named take one
    step each, in turn; a party that has ended is skipped. *)
Inductive party := Bot | Tester.

Definition run_step {A} (p : prog A) (w : cloud scripted) : prog A * cloud scripted :=
  match p with
  | Vis e k => let '(x, w') := on_cloud scripted_oracle e w in (k x, w')
  | _ => (p, w)
  end.

Definition scheduled (bucket : string) (fuel cmd_fuel : nat) (who : party)
    (s : system * scripted) : system * scripted :=
  let '(System b t st, o) := s in
  match who with
  | Bot => let '(b', w) := run_step b (Cloud o st) in (System b' t (gs w), env w)
  | Tester =>
      match t with
      | Execv => (System b (run_continuously bucket fuel cmd_fuel) st, o)
      | _ => let '(t', w) := run_step t (Cloud o st) in (System b t' (gs w), env w)
      end
  end.

Definition schedule (bucket : string) (fuel cmd_fuel : nat) (turns : list party)
    (s : system * scripted) : system * scripted :=
  foldl (λ s who, scheduled bucket fuel cmd_fuel who s) s turns.

(** *** The protocol that the two scripts follow

    The three magic files are the signals OFFERED, CLAIMED and FINISHED of
    the handoff. *)
Inductive signal := OFFERED | CLAIMED | FINISHED.

#[global] Instance signal_eq_dec : EqDecision signal.
Proof. solve_decision. Defined.

Definition signal_name (s : signal) : string :=
  match s with
  | OFFERED => READY_FOR_TESTING
  | CLAIMED => TESTING
  | FINISHED => TESTING_COMPLETE
  end.

Definition signal_of (bucket path : string) : option signal :=
  if decide (path = get_magic_file_gs_path bucket READY_FOR_TESTING) then Some OFFERED
  else if decide (path = get_magic_file_gs_path bucket TESTING) then Some CLAIMED
  else if decide (path = get_magic_file_gs_path bucket TESTING_COMPLETE) then Some FINISHED
  else None.

(** What an event does to the signals. *)
Inductive action :=
| Put (s : signal)
| Del (s : signal)
| Saw (s : signal) (found : bool)
| Other.

Definition action_of (bucket : string) (e : event) : ans e → action :=
  match e return ans e → action with
  | Upload path _ => λ _, from_option Put Other (signal_of bucket path)
  | Delete path => λ _, from_option Del Other (signal_of bucket path)
  | FileExists path => λ found, from_option (λ s, Saw s found) Other (signal_of bucket path)
  | _ => λ _, Other
  end.

(** The signals that exist in a store. *)
Record blobs := Blobs { offered : bool; claimed : bool; finished : bool }.

Definition blobs_of (bucket : string) (st : gmap string string) : blobs :=
  Blobs (bool_decide (is_Some (st !! get_magic_file_gs_path bucket READY_FOR_TESTING)))
        (bool_decide (is_Some (st !! get_magic_file_gs_path bucket TESTING)))
        (bool_decide (is_Some (st !! get_magic_file_gs_path bucket TESTING_COMPLETE))).

Definition has (m : blobs) (s : signal) : bool :=
  match s with
  | OFFERED => offered m
  | CLAIMED => claimed m
  | FINISHED => finished m
  end.

Definition set_signal (s : signal) (v : bool) (m : blobs) : blobs :=
  match s with
  | OFFERED => Blobs v (claimed m) (finished m)
  | CLAIMED => Blobs (offered m) v (finished m)
  | FINISHED => Blobs (offered m) (claimed m) v
  end.

Definition act (a : action) (m : blobs) : blobs :=
  match a with
  | Put s => set_signal s true m
  | Del s => set_signal s false m
  | _ => m
  end.

(** An action that can be the answer of a store with the signals [m]. *)
Definition agrees (a : action) (m : blobs) : bool :=
  match a with
  | Saw s found => bool_decide (found = has m s)
  | _ => true
  end.

Definition count (m : blobs) : nat :=
  Nat.b2n (offered m) + Nat.b2n (claimed m) + Nat.b2n (finished m).

(** The phases of the bot: it clears the signals, offers a commit, and
    collects the result (deletes FINISHED). *)
Inductive bot_phase := Clearing | Offering | Collected.

Definition bot_next (b : bot_phase) (a : action) : option bot_phase :=
  match a, b with
  | Del _, Clearing => Some Clearing
  | Put OFFERED, Clearing => Some Offering
  | Del FINISHED, Offering => Some Collected
  | (Put _ | Del _), _ => None
  | _, _ => Some b
  end.

(** The phases of the tester: it has seen no offer, has seen OFFERED, has
    written CLAIMED next to OFFERED, is testing, has written FINISHED next
    to CLAIMED, or has declined the offer and written FINISHED next to
    OFFERED. *)
Inductive tester_phase := Idle | Seen | Claiming | Testing | Finishing | Declining.

Definition tester_next (t : tester_phase) (a : action) : option tester_phase :=
  match a, t with
  | Saw OFFERED true, Idle => Some Seen
  | Put CLAIMED, Seen => Some Claiming
  | Put FINISHED, Seen => Some Declining
  | Del OFFERED, Claiming => Some Testing
  | Del OFFERED, Declining => Some Idle
  | Put FINISHED, Testing => Some Finishing
  | Del CLAIMED, Finishing => Some Idle
  | (Put _ | Del _), _ => None
  | _, _ => Some t
  end.

Arguments bot_next !b !a /.
Arguments tester_next !t !a /.

(** The signals that can exist in each pair of phases. *)
Definition inv (b : bot_phase) (t : tester_phase) (m : blobs) : bool :=
  match b, t with
  | Clearing, Idle => negb (offered m) && negb (claimed m) && negb (finished m)
  | Clearing, _ => false
  | _, Idle => negb (claimed m) && negb (offered m && finished m)
  | _, Seen => offered m && negb (claimed m) && negb (finished m)
  | _, Claiming => offered m && claimed m && negb (finished m)
  | _, Testing => negb (offered m) && claimed m && negb (finished m)
  | _, Finishing => negb (offered m) && claimed m
  | _, Declining => offered m && negb (claimed m)
  end.

(** [follows bucket next p q Φ]: whatever the answers, the events of [p]
    are steps of the automaton [next] from the phase [q], and [Φ] holds of
    the outcome and the phase at the end. *)
Fixpoint follows {A Q} (bucket : string) (next : Q → action → option Q)
    (p : prog A) (q : Q) (Φ : outcome A → Q → Prop) : Prop :=
  match p with
  | Ret a => Φ (Returned a) q
  | Vis e k =>
      ∀ x : ans e,
        match next q (action_of bucket e x) with
        | Some q' => follows bucket next (k x) q' Φ
        | None => False
        end
  | Raise x => Φ (Raised x) q
  | Exit c => Φ (Exited c) q
  | Execv => Φ Execved q
  | Spin => Φ Spinning q
  end.

(** The postcondition of [p ≫= f] for [follows]. *)
Definition bind_postf {A B Q} (bucket : string) (next : Q → action → option Q)
    (f : A → prog B) (Φ : outcome B → Q → Prop) : outcome A → Q → Prop :=
  λ o q,
    match o with
    | Returned a => follows bucket next (f a) q Φ
    | Raised x => Φ (Raised x) q
    | Exited c => Φ (Exited c) q
    | Execved => Φ Execved q
    | Spinning => Φ Spinning q
    end.

(** A tester that restarts has claimed nothing. *)
Definition restartable {A} (o : outcome A) (t : tester_phase) : Prop :=
  o = Execved → t = Idle ∨ t = Seen.

(** The system follows the protocol. *)
Definition coherent (bucket : string) (s : system) : Prop :=
  ∃ b t,
    follows bucket bot_next (bot_of s) b (λ _ _, True)
    ∧ follows bucket tester_next (tester_of s) t restartable
    ∧ inv b t (blobs_of bucket (store_of s)) = true.

(** Actions that write no signal. *)
Definition passive (a : action) : Prop :=
  match a with
  | Put _ | Del _ => False
  | _ => True
  end.

(** Events that write no signal. *)
Definition signal_free (bucket : string) (e : event) : Prop :=
  match e with
  | Upload path _ | Delete path => signal_of bucket path = None
  | _ => True
  end.

(** A bot and a tester start on an empty store, in a repository at commit
    "abc". *)
Definition handoff_start : system * scripted :=
  (System (run_bot example_bucket 2) (run_continuously example_bucket 2 1) ∅,
   Scripted [] [] [] (replicate 10 "abc") [] [] [] []).

(** The bot runs until it waits for the result, then the tester runs until
    it has written [TESTING]. *)
Definition claim_turns : list party := replicate 18 Bot ++ replicate 17 Tester.

(** ** Further observations of a run *)

(** The children started in a run: argument vector and environment of each
    [subprocess.Popen]. *)
Definition started (tr : list obs) : list (list string * option (gmap string string)) :=
  omap (λ x : obs,
          match projT1 x with
          | Popen argv env _ _ => Some (argv, env)
          | _ => None
          end) tr.

Arguments started : simpl never.

Definition no_popen (e : event) : Prop :=
  match e with
  | Popen _ _ _ _ => False
  | _ => True
  end.

(** Events that leave the cloud store as it is, but for the overall status
    of a commit. *)
Definition writes_status_only (bucket : string) (e : event) : Prop :=
  match e with
  | Upload path _ => ∃ sha, path = "gs://" +:+ get_sha_destination bucket sha +:+ "/status"
  | Delete _ => False
  | _ => True
  end.

(** The options of a plain run: no flag given. *)
Definition plain_options : options :=
  {| continuous := false; print_logs := None; bot := false; archive := false |}.

(** Work is offered for commit "abc", and the repository of the tester has
    local modifications: [git diff] prints something. *)
Definition dirty_repo : cloud scripted :=
  Cloud (Scripted [] [] [] [] [] [Some "M tools/internal_test.py"] [] [])
        {[ get_magic_file_gs_path example_bucket READY_FOR_TESTING := "abc" ]}.

Definition continuous_options : options :=
  {| continuous := true; print_logs := None; bot := false; archive := false |}.

(** A world for the bot in which a tester is ending an earlier round:
    while the bot sleeps, [TESTING_COMPLETE] appears with the commit "old". *)
Definition with_stale_round (bucket : string) : handler (cloud scripted) :=
  λ e,
    match e return cloud scripted → ans e * cloud scripted with
    | Sleep _ => λ w,
        (tt, Cloud (env w) (<[get_magic_file_gs_path bucket TESTING_COMPLETE := "old"]> (gs w)))
    | e' => on_cloud scripted_oracle e'
    end.

(** The bot's repository is at commit "abc"; the store is empty. *)
Definition bot_at_abc : cloud scripted :=
  Cloud (Scripted [] [] [] ["abc"] [] [] [] []) ∅.

(** What [run_bot] does once a poll has read its own commit from
    [TESTING_COMPLETE]: it reads the clock and the status of the commit,
    and when the status is there it deletes [TESTING_COMPLETE] and returns
    1 unless the status is "0". *)
Definition collected (bucket git_hash : string) (post : list obs) (o : outcome Py.value)
  : Prop :=
  ∃ now answer rest,
    post = existT Time now
           :: existT (Cat ("gs://" +:+ get_sha_destination bucket git_hash +:+ "/status"))
                answer
           :: rest
    ∧ match answer with
      | Some status =>
          (∃ prints,
             rest = existT (Delete (get_magic_file_gs_path bucket TESTING_COMPLETE)) tt
                    :: prints)
          ∧ o = Returned (if decide (status ≠ "0") then Py.Int 1 else Py.None_)
      | None => rest = [] ∧ o = Raised CalledProcessError
      end.

(** The timed-out flag that [execute] hands to [handle_output] shows in
    the run: archived under the label of the command, or printed. *)
Definition hands_on (bucket : string) (archive : bool) (cmd : string) (timed_out : bool)
    (tr : list obs) : Prop :=
  if archive then
    ∃ sha,
      existT (Upload (("gs://" +:+ Py.os_path_join (get_sha_destination bucket sha)
                                    (Py.replace "/" "_" (Py.replace " " "_" cmd)))
                      +:+ "/" +:+ TIMED_OUT)
                (Py.str (Py.Bool timed_out))) tt ∈ tr
  else existT (Print ("timeout: " +:+ Py.str (Py.Bool timed_out) +:+ " ")) tt ∈ tr.

(** The events of the bot's clean-up for one magic file: the check, and
    the delete when the file was found. *)
Definition sweep (bucket name : string) (found : bool) : list obs :=
  existT (FileExists (get_magic_file_gs_path bucket name)) found
  :: if found then [existT (Delete (get_magic_file_gs_path bucket name)) tt] else [].

Arguments sweep : simpl never.

(** Events of [print_magic_file_state]. *)
Definition is_read (e : event) : Prop :=
  match e with
  | FileExists _ | Cat _ => True
  | _ => False
  end.
(** * Theorems *)

(** ** Running a program *)

Lemma bind_unfold {A B} (p : prog A) (f : A → prog B) : p ≫= f = bind p f.
Proof. reflexivity. Qed.

Lemma exec_bind {W A B} (h : handler W) (p : prog A) (f : A → prog B) w :
  exec h (p ≫= f) w = then_run h (exec h p w) f.
Proof.
  rewrite bind_unfold. revert w.
  induction p as [a|e k IH|x|c| |]; intros w; simpl; try reflexivity.
  - unfold then_run; simpl. by destruct (exec h (f a) w).
  - rewrite IH. unfold then_run; simpl.
    by destruct (outcome_of (exec h (k (h e w).1) (h e w).2)).
Qed.

Lemma obs_inj (e : event) (x y : ans e) : existT e x = existT e y :> obs → x = y.
Proof. apply Eqdep_dec.inj_pair2_eq_dec. intros a b. destruct (decide (a = b)); auto. Qed.

Lemma wp_mono {A} (p : prog A) (Q Q' : list obs → outcome A → Prop) :
  (∀ tr o, Q tr o → Q' tr o) → wp p Q → wp p Q'.
Proof.
  revert Q Q'. induction p as [a|e k IH|x|c| |]; simpl; intros Q Q' HQ Hp; auto.
  intros x. eapply IH; [|apply Hp]. simpl. auto.
Qed.

Lemma wp_bind {A B} (p : prog A) (f : A → prog B) Q :
  wp p (bind_post f Q) → wp (p ≫= f) Q.
Proof.
  rewrite bind_unfold. revert Q.
  induction p as [a|e k IH|x|c| |]; simpl; intros Q Hp; auto.
Qed.

Lemma wp_exec {W A} (h : handler W) (p : prog A) Q w :
  wp p Q → Q (observed (exec h p w)) (outcome_of (exec h p w)).
Proof.
  revert Q w. induction p as [a|e k IH|x|c| |]; simpl; intros Q w Hp; auto.
  apply (IH _ (λ tr o, Q (existT e (h e w).1 :: tr) o)), Hp.
Qed.

Lemma wp_conj {A} (p : prog A) Q Q' :
  wp p Q → wp p Q' → wp p (λ tr o, Q tr o ∧ Q' tr o).
Proof.
  revert Q Q'. induction p as [a|e k IH|x|c| |]; simpl; intros Q Q' H1 H2; auto.
Qed.

Lemma performs_bind {A B} P (p : prog A) (f : A → prog B) :
  performs P p → (∀ a, performs P (f a)) → performs P (p ≫= f).
Proof.
  rewrite bind_unfold.
  induction p as [a|e k IH|x|c| |]; simpl; intros Hp Hf; auto.
  destruct Hp as [He Hk]. split; [done|]. intros x. apply IH; auto.
Qed.

Lemma performs_wp {A} P (p : prog A) :
  performs P p → wp p (λ tr _, Forall (λ o, P (projT1 o)) tr).
Proof.
  induction p as [a|e k IH|x|c| |]; simpl; intros Hp; try by constructor.
  destruct Hp as [He Hk]. intros x. eapply wp_mono; [|apply IH, Hk].
  simpl. intros tr _ Htr. by constructor.
Qed.

Lemma performs_for_each {A} P (l : list A) (body : A → prog unit) :
  (∀ a, performs P (body a)) → performs P (for_each l body).
Proof.
  intros Hb. induction l as [|a l IH]; simpl; [done|].
  apply performs_bind; auto.
Qed.

(** ** The command runner and the run sequencer *)

Lemma records_from_no_child running tr rest :
  Forall (λ o, no_child (projT1 o)) tr →
  records_from running (tr ++ rest) = records_from running rest.
Proof.
  induction 1 as [|[e x] tr He _ IH]; simpl; [done|].
  destruct e; simpl in *; try done; apply IH.
Qed.

Lemma handle_output_no_child bucket archive stderr stdout exitcode timed_out cmd :
  performs no_child (handle_output bucket archive stderr stdout exitcode timed_out cmd).
Proof. destruct archive; simpl; repeat (split || intros _ || intros ? || exact I). Qed.


Lemma wp_finally_RmTemp {A} (p : prog A) (path : string) Q :
  wp p (λ tr o,
    match o with
    | Execved | Spinning => Q tr o
    | _ => Q (tr ++ [existT (RmTemp path) tt]) o
    end) →
  wp (finally p (trigger (RmTemp path))) Q.
Proof.
  revert Q. induction p as [a|e' k IH|x|c| |]; unfold finally; simpl;
    intros Q Hp; auto.
  all: by intros [].
Qed.

Lemma execute_wait_record fuel begin t :
  wp (execute_wait fuel begin t) (λ tr o, ∀ rc t', o = Returned (rc, t') →
    ∀ rest, records_from (Some t) (tr ++ rest)
            = Record_ rc t' :: records_from None rest).
Proof.
  revert t. induction fuel as [|fuel IH]; intros t; simpl; [done|].
  intros [rc|]; simpl.
  - by intros ?? [= <- <-] rest.
  - intros now. destruct (decide _); simpl.
    + intros [] []. eapply wp_mono; [|apply IH]. simpl.
      intros tr o H rc t' -> rest. by rewrite (H _ _ eq_refl).
    + intros []. eapply wp_mono; [|apply IH]. simpl.
      intros tr o H rc t' -> rest. by rewrite (H _ _ eq_refl).
Qed.

(** [execute] returns [None] without a record for the empty command, and
    else the exit code of the one record that its events make up. *)
Lemma execute_record bucket fuel cmd archive env :
  wp (execute bucket fuel cmd archive env) (λ tr o, ∀ v, o = Returned v →
    ∃ recs,
      (∀ rest, records_from None (tr ++ rest) = recs ++ records_from None rest)
      ∧ Py.truthy v = existsb record_failed recs
      ∧ match recs with
        | [] => cmd = [] ∧ v = Py.None_
        | [r] => cmd ≠ [] ∧ v = Py.Int (exit_code r)
        | _ => False
        end).
Proof.
  unfold execute. destruct (decide (cmd = [])) as [->|Hcmd]; simpl.
  { intros v [= <-]. by exists []. }
  intros temp [|]; apply wp_finally_RmTemp; simpl; [|done].
  intros begin. apply wp_bind.
  eapply wp_mono; [|apply execute_wait_record].
  intros tr [[rc t]| | | |] Hrec; simpl; try done.
  specialize (Hrec _ _ eq_refl).
  apply wp_bind.
  assert (wp (if decide (rc ≠ 0)
              then handle_output bucket archive (Py.os_path_join temp "stderr")
                     (Py.os_path_join temp "stdout") rc t (Py.join " " cmd)
              else Ret tt)
            (λ tr _, Forall (λ o, no_child (projT1 o)) tr)) as Hout.
  { apply performs_wp. destruct (decide _); [apply handle_output_no_child|done]. }
  eapply wp_mono; [|apply Hout].
  intros tr' [[]| | | |] Htr'; simpl; try done.
  intros v [= <-]. exists [Record_ rc t]. split; [|split].
  - intros rest. rewrite app_nil_r, <-!app_assoc. simpl.
    rewrite Hrec. simpl. f_equal.
    by rewrite records_from_no_child.
  - simpl. by rewrite orb_false_r.
  - done.
Qed.

Lemma comprehension_records bucket fuel archive env commands :
  wp (comprehension commands (λ cmd, execute bucket fuel cmd archive env))
    (λ tr o, ∀ vs, o = Returned vs →
      ∃ recs,
        (∀ rest, records_from None (tr ++ rest) = recs ++ records_from None rest)
        ∧ Py.any vs = existsb record_failed recs
        ∧ length recs = length (filter (λ cmd, cmd ≠ []) commands)).
Proof.
  induction commands as [|cmd commands IH]; simpl.
  { intros vs [= <-]. by exists []. }
  apply wp_bind. eapply wp_mono; [|apply execute_record].
  intros tr [v| | | |] Hv; simpl; try done.
  destruct (Hv _ eq_refl) as (recs & Hrecs & Htruthy & Hshape).
  apply wp_bind. eapply wp_mono; [|apply IH].
  intros tr' [vs| | | |] Hvs; simpl; try done.
  destruct (Hvs _ eq_refl) as (recs' & Hrecs' & Hany & Hlen).
  intros ? [= <-]. exists (recs ++ recs'). split; [|split].
  - intros rest. rewrite app_nil_r, <-!app_assoc, Hrecs, Hrecs'. done.
  - simpl. by rewrite existsb_app, Htruthy, Hany.
  - rewrite length_app, Hlen, filter_cons.
    destruct recs as [|r [|??]]; [| |done].
    + destruct Hshape as [-> _]. by rewrite decide_False by (by intros ?).
    + destruct Hshape as [? _]. by rewrite decide_True.
Qed.

Lemma archive_status_no_child bucket failed :
  performs no_child (archive_status bucket failed).
Proof. simpl. repeat (split || intros ?). Qed.

Lemma run_once_on_records bucket commands fuel archive :
  wp (run_once_on bucket commands fuel archive) (λ tr o, ∀ v, o = Returned v →
    v = Py.Bool (existsb record_failed (execution_records tr))
    ∧ length (execution_records tr) = length (filter (λ cmd, cmd ≠ []) commands)).
Proof.
  unfold run_once_on. simpl. intros sha0 environ.
  apply wp_bind. eapply wp_mono; [|apply comprehension_records].
  intros tr [vs| | | |] Hvs; simpl; try done.
  destruct (Hvs _ eq_refl) as (recs & Hrecs & Hany & Hlen).
  intros [] sha [] v Hv. injection Hv as <-.
  unfold execution_records. simpl. rewrite !Hrecs. simpl.
  by rewrite app_nil_r, Hany.
Qed.

(** C1, as amended: the aggregate failure flag that [run_once] returns is
    true if and only if at least one Execution Record of the run has a
    non-zero exit code; the timed-out flag of a record has no part in it.
    The run has one record for each non-empty command. *)
Theorem run_once_failed_iff_nonzero_exit
    {W} (h : handler W) (w : W) bucket commands fuel archive v :
  let r := exec h (run_once_on bucket commands fuel archive) w in
  outcome_of r = Returned v →
  ∃ failed : bool,
    v = Py.Bool failed
    ∧ (failed = true ↔
       ∃ rec, rec ∈ execution_records (observed r) ∧ exit_code rec ≠ 0)
    ∧ length (execution_records (observed r))
      = length (filter (λ cmd, cmd ≠ []) commands).
Proof.
  intros r Hr.
  destruct (wp_exec h _ _ w (run_once_on_records bucket commands fuel archive) v Hr)
    as [-> Hlen].
  eexists. split; [done|]. split; [|done].
  rewrite existsb_exists. split.
  - intros (rec & Hin & Hrec). exists rec. split; [by apply list_elem_of_In|].
    unfold record_failed in Hrec. by apply bool_decide_eq_true in Hrec.
  - intros (rec & Hin & Hrec). exists rec. split; [by apply list_elem_of_In|].
    by apply bool_decide_eq_true.
Qed.

Lemma run_once_failed_iff_nonzero_exit_witness :
  let r := exec (on_cloud scripted_oracle)
             (run_once_on example_bucket [["tools/test.py"]; []] 2 true) failing_child in
  ∃ failed : bool,
    Py.Bool true = Py.Bool failed
    ∧ (failed = true ↔
       ∃ rec, rec ∈ execution_records (observed r) ∧ exit_code rec ≠ 0)
    ∧ length (execution_records (observed r))
      = length (filter (λ cmd, cmd ≠ []) [["tools/test.py"]; []]).
Proof.
  apply (run_once_failed_iff_nonzero_exit (on_cloud scripted_oracle) failing_child
           example_bucket [["tools/test.py"]; []] 2 true (Py.Bool true)).
  vm_compute. reflexivity.
Defined.

(** C1 as stated fails: a command that overran the timeout, was sent the
    terminate signal and then ended with code 0 leaves a record with
    timed-out = true, and the aggregate failure flag is false. *)
Lemma run_once_ignores_timed_out :
  let r := exec (on_cloud scripted_oracle)
             (run_once_on example_bucket [["tools/test.py"]] 2 true) overrunning_child in
  outcome_of r = Returned (Py.Bool false)
  ∧ execution_records (observed r) = [Record_ 0 true]
  ∧ ¬ (false = true ↔
       ∃ rec, rec ∈ execution_records (observed r)
              ∧ (exit_code rec ≠ 0 ∨ timed_out rec = true)).
Proof.
  intros r.
  assert (execution_records (observed r) = [Record_ 0 true]) as Hrec
    by (vm_compute; reflexivity).
  split; [vm_compute; reflexivity|]. split; [exact Hrec|].
  intros [_ H]. enough (false = true) by done. apply H.
  exists (Record_ 0 true). split; [|by right].
  rewrite Hrec. by apply list_elem_of_here.
Qed.

Lemma no_child_not_poll (rest : list obs) i r :
  Forall (λ o, no_child (projT1 o)) rest → rest !! i = Some (existT Poll r) → False.
Proof.
  intros Hrest Hi. eapply Forall_lookup_1 in Hrest; [|done]. done.
Qed.

Lemma execute_wait_overdue fuel begin t :
  wp (execute_wait fuel begin t) (λ tr o,
    (∀ (rest : list obs) i now, Forall (λ o, no_child (projT1 o)) rest →
       (tr ++ rest) !! i = Some (existT Poll None) →
       (tr ++ rest) !! S i = Some (existT Time now) → now - begin > RUN_TIMEOUT →
       (tr ++ rest) !! S (S i) = Some (existT Terminate tt)
       ∧ ∀ rc t', o = Returned (rc, t') → t' = true)
    ∧ (t = true → ∀ rc t', o = Returned (rc, t') → t' = true)).
Proof.
  revert t. induction fuel as [|fuel IH]; intros t; simpl.
  { split; [|done]. intros rest i now Hrest Hi. by destruct (no_child_not_poll _ _ _ Hrest Hi). }
  intros [rc|]; simpl.
  - split; [|by intros -> ?? [= _ <-]].
    intros rest [|i] now Hrest Hi; simpl in *.
    + by apply (inj Some), obs_inj in Hi.
    + by destruct (no_child_not_poll _ _ _ Hrest Hi).
  - intros now. destruct (decide _) as [Hnow|Hnow]; simpl.
    + intros [] []. eapply wp_mono; [|apply (IH true)]. simpl.
      intros tr o [Hidx Htrue]. split; [|by intros _; apply Htrue].
      intros rest [|[|[|[|i]]]] now' Hrest; simpl; try done.
      * intros _ _ _. split; [done|by apply Htrue].
      * by apply Hidx.
    + intros []. eapply wp_mono; [|apply (IH t)]. simpl.
      intros tr o [Hidx Htrue]. split; [|done].
      intros rest [|[|[|i]]] now' Hrest; simpl; try done.
      * intros _ Heq ?. apply (inj Some), obs_inj in Heq. simpl in Heq. lia.
      * by apply Hidx.
Qed.

(** A poll of [execute] that finds the child running past the timeout. *)
Lemma execute_overdue
    {W} (h : handler W) (w : W) bucket fuel cmd archive env (i : nat) begin now :
  let r := exec h (execute bucket fuel cmd archive env) w in
  observed r !! 2%nat = Some (existT Time begin) →
  observed r !! i = Some (existT Poll None) →
  observed r !! S i = Some (existT Time now) →
  now - begin > RUN_TIMEOUT →
  observed r !! S (S i) = Some (existT Terminate tt)
  ∧ ∀ v, outcome_of r = Returned v →
      ∃ rc, v = Py.Int rc
            ∧ execution_records (observed r) = [Record_ rc true]
            ∧ (Py.truthy v = true ↔ rc ≠ 0).
Proof.
  intros r. subst r.
  apply (wp_exec h (execute bucket fuel cmd archive env)
    (λ tr o, tr !! 2%nat = Some (existT Time begin) →
       tr !! i = Some (existT Poll None) →
       tr !! S i = Some (existT Time now) →
       now - begin > RUN_TIMEOUT →
       tr !! S (S i) = Some (existT Terminate tt)
       ∧ ∀ v, o = Returned v →
           ∃ rc, v = Py.Int rc
                 ∧ execution_records tr = [Record_ rc true]
                 ∧ (Py.truthy v = true ↔ rc ≠ 0))).
  unfold execute. destruct (decide (cmd = [])) as [->|Hcmd]; simpl; [done|].
  intros temp [|]; apply wp_finally_RmTemp; simpl; [|done].
  intros begin'. apply wp_bind.
  eapply wp_mono; [|apply wp_conj; [apply execute_wait_record|apply execute_wait_overdue]].
  simpl. intros tr o [Hrec [Hover _]].
  assert (∀ rc t, wp (if decide (rc ≠ 0)
              then handle_output bucket archive (Py.os_path_join temp "stderr")
                     (Py.os_path_join temp "stdout") rc t (Py.join " " cmd)
              else Ret tt)
            (λ tr _, Forall (λ o, no_child (projT1 o)) tr)) as Hout.
  { intros rc t. apply performs_wp.
    destruct (decide _); [apply handle_output_no_child|done]. }
  destruct o as [[rc t]| | | |]; simpl.
  { apply wp_bind. eapply wp_mono; [|apply Hout].
    intros tr' [[]| | | |] Htr'; simpl.
    all: rewrite ?app_nil_r, <-?app_assoc.
    all: intros Hb%(inj Some)%obs_inj; simpl in Hb; subst begin'.
    all: destruct i as [|[|[|i]]]; simpl; try done.
    all: intros Hi HSi Hnow.
    all: assert (Forall (λ o, no_child (projT1 o)) (tr' ++ [existT (RmTemp temp) ()]))
           as Hrest by (apply Forall_app; split; [done|by repeat constructor]).
    all: first [destruct (Hover _ _ _ Hrest Hi HSi Hnow) as [HT Ht]
               |destruct (Hover _ _ _ Htr' Hi HSi Hnow) as [HT Ht]]; split; [done|].
    all: try done.
    intros v [= <-]. exists rc. rewrite (Ht _ _ eq_refl) in *.
    split; [done|]. split.
    + unfold execution_records. simpl. rewrite (Hrec _ _ eq_refl).
      by rewrite records_from_no_child.
    + simpl. by rewrite bool_decide_eq_true. }
  all: intros Hb%(inj Some)%obs_inj; simpl in Hb; subst begin'.
  all: destruct i as [|[|[|i]]]; simpl; try done.
  all: intros Hi HSi Hnow.
  all: first [destruct (Hover [existT (RmTemp temp) ()] _ _
                         ltac:(by repeat constructor) Hi HSi Hnow) as [HT Ht]
             |rewrite <-(app_nil_r tr) in Hi, HSi |- *;
              destruct (Hover [] _ _ ltac:(by constructor) Hi HSi Hnow) as [HT Ht]].
  all: by split.
Qed.


(** C3 as stated fails in its last part: the first command overruns the
    timeout, is sent the terminate signal and ends with code 0; its record
    has timed-out = true, and the run still reports no failure and archives
    the overall status "0". *)
Lemma timed_out_command_counts_as_success :
  let r := exec (on_cloud scripted_oracle)
             (run_once_on example_bucket
                [["tools/test.py"]; ["tools/gradle.py"; "r8lib"]] 2 true)
             overrunning_child in
  existT Terminate tt ∈ observed r
  ∧ execution_records (observed r) = [Record_ 0 true; Record_ 0 false]
  ∧ outcome_of r = Returned (Py.Bool false)
  ∧ gs (world_of r) !! ("gs://" +:+ get_sha_destination example_bucket "abc" +:+ "/status")
    = Some "0".
Proof.
  intros r. split; [|split; [|split]].
  - assert (observed r !! 7%nat = Some (existT Terminate tt)) as H
      by (vm_compute; reflexivity).
    by apply list_elem_of_lookup_2 in H.
  - vm_compute. reflexivity.
  - vm_compute. reflexivity.
  - vm_compute. reflexivity.
Qed.

Lemma wp_bind_assoc {A B C} (p : prog A) (f : A → prog B) (g : B → prog C) Q :
  wp (p ≫= λ x, f x ≫= g) Q → wp ((p ≫= f) ≫= g) Q.
Proof.
  rewrite !bind_unfold. revert Q.
  induction p as [a|e k IH|x|c| |]; simpl; intros Q Hp; auto.
Qed.

(** ** Lists of observations *)

Lemma app_cons_skip (P : obs → Prop) (a b pre post : list obs) (x : obs) :
  Forall (λ o, ¬ P o) a → P x →
  pre ++ x :: post = a ++ b →
  ∃ pre', pre = a ++ pre' ∧ b = pre' ++ x :: post.
Proof.
  intros Ha Hx. revert pre. induction Ha as [|y a Hy _ IH]; intros pre Heq; simpl in *.
  { by exists pre. }
  destruct pre as [|z pre]; simpl in *.
  - injection Heq as -> _. done.
  - injection Heq as -> Heq. destruct (IH _ Heq) as (pre' & -> & ->). by exists pre'.
Qed.

Lemma cons_eq_inv {A} (x y : A) (l l' : list A) : x :: l = y :: l' → x = y ∧ l = l'.
Proof. by intros [= -> ->]. Qed.

(** [uncons H n]: split the equation [H] between two lists at their first
    [n] elements; the equations of the heads are named [Hhd]. *)
Ltac uncons H :=
  simpl in H;
  repeat (let Hhd := fresh "Hhd" in apply cons_eq_inv in H as [Hhd H]).

Ltac obs_clash H :=
  exfalso; apply (f_equal (λ o : obs, projT1 o)) in H; simpl in H; discriminate H.

(** ** The bot *)

Lemma print_magic_file_state_reads bucket :
  performs (λ e, match e with FileExists _ | Cat _ => True | _ => False end)
    (print_magic_file_state bucket).
Proof.
  unfold print_magic_file_state. apply performs_for_each. intros magic. simpl.
  split; [done|]. intros [|]; simpl; [|done]. split; [done|].
  by intros [?|].
Qed.

Lemma run_bot_wait_foreign {A} bucket fuel git_hash begin (k : unit → prog A) :
  wp (k tt) (λ tr _, ∀ pre now (b : bool) post,
    tr ≠ pre ++ existT Time now
           :: existT (FileExists (get_magic_file_gs_path bucket TESTING_COMPLETE)) b
           :: post) →
  wp (run_bot_wait bucket fuel git_hash begin ≫= k) (λ tr o,
    ∀ pre now payload post,
      tr = pre ++ existT Time now
             :: existT (FileExists (get_magic_file_gs_path bucket TESTING_COMPLETE)) true
             :: existT (Cat (get_magic_file_gs_path bucket TESTING_COMPLETE)) (Some payload)
             :: post →
      payload ≠ git_hash →
      ∃ again,
        post = [existT (Cat (get_magic_file_gs_path bucket TESTING_COMPLETE)) again]
        ∧ o = Raised
                match again with
                | Some payload' =>
                    Exception ("Non matching git hashes " +:+ payload'
                               +:+ " and " +:+ git_hash)
                | None => CalledProcessError
                end).
Proof.
  intros Hk. induction fuel as [|fuel IH]; cbn.
  { by intros [|? ?]. }
  intros now0. destruct (decide _) as [Hlate|Hlate]; cbn.
  { by intros [|? [|? ?]]. }
  intros [|]; cbn.
  - intros [content|]; cbn.
    + destruct (decide (content = git_hash)) as [->|Hne]; cbn.
      * eapply wp_mono; [|apply Hk]. cbn.
        intros tr o Htr [|? [|? [|? pre]]] now payload post Heq Hp.
        -- uncons Heq. apply obs_inj in Hhd1. simpl in Hhd1. congruence.
        -- uncons Heq. obs_clash Hhd0.
        -- uncons Heq. obs_clash Hhd1.
        -- uncons Heq. by destruct (Htr pre now true
                (existT (Cat (get_magic_file_gs_path bucket TESTING_COMPLETE))
                   (Some payload) :: post)).
      * intros again. destruct again as [payload'|]; cbn.
        all: intros [|? [|? [|? [|? [|? ?]]]]] now payload post Heq Hp; try done.
        all: uncons Heq; subst post.
        -- by exists (Some payload').
        -- by exists None.
    + intros [|? [|? [|? [|? ?]]]] now payload post Heq Hp; try done.
      uncons Heq. by apply obs_inj in Hhd1.
  - apply wp_bind_assoc, wp_bind.
    eapply wp_mono; [|apply performs_wp, print_magic_file_state_reads].
    intros trp [[]| | | |] Hreads; cbn.
    2-5: intros [|? [|? pre]] now payload post Heq Hp; simpl in Heq;
      apply cons_eq_inv in Heq as [_ Heq];
      [apply cons_eq_inv in Heq as [Heq _]; by apply obs_inj in Heq
      |apply cons_eq_inv in Heq as [Heq _]; obs_clash Heq
      |apply cons_eq_inv in Heq as [_ Heq]; rewrite <-(app_nil_r trp) in Heq;
       symmetry in Heq;
       apply (app_cons_skip (λ o, projT1 o = Time)) in Heq as (pre' & _ & Heq);
       [by destruct pre'| |done];
       eapply Forall_impl; [apply Hreads|]; by intros [[] ?] ?].
    intros []. eapply wp_mono; [|apply IH]. cbn.
    intros tr o Htr [|? [|? pre]] now payload post Heq Hp; simpl in Heq.
    + apply cons_eq_inv in Heq as [_ Heq]. apply cons_eq_inv in Heq as [Heq _].
      by apply obs_inj in Heq.
    + apply cons_eq_inv in Heq as [_ Heq]. apply cons_eq_inv in Heq as [Heq _].
      obs_clash Heq.
    + apply cons_eq_inv in Heq as [_ Heq]. apply cons_eq_inv in Heq as [_ Heq].
      change (existT (Sleep PULL_DELAY) () :: tr)
        with ([existT (Sleep PULL_DELAY) ()] ++ tr) in Heq.
      rewrite app_assoc in Heq. symmetry in Heq.
      apply (app_cons_skip (λ o, projT1 o = Time)) in Heq as (pre' & -> & ->); [| |done].
      * by apply (Htr pre' now payload post).
      * apply Forall_app. split; [|by repeat constructor].
        eapply Forall_impl; [apply Hreads|]. by intros [[] ?] ?.
Qed.
Lemma last_ascii_app a b d : last_ascii (a +:+ b) d = last_ascii b (last_ascii a d).
Proof. revert d. induction a as [|c a IH]; intros d; [done|]. apply IH. Qed.

(** No magic file is the status file of a commit. *)
Lemma magic_not_status bucket name sha :
  name ∈ ALL_MAGIC →
  get_magic_file_gs_path bucket name ≠ "gs://" +:+ get_sha_destination bucket sha +:+ "/status".
Proof.
  intros Hin Heq. apply (f_equal (λ s, last_ascii s "000"%char)) in Heq.
  unfold get_magic_file_gs_path in Heq. rewrite !last_ascii_app in Heq.
  unfold ALL_MAGIC in Hin. 
  repeat (apply elem_of_cons in Hin as [->|Hin]); [..|by apply elem_of_nil in Hin].
  all: by cbv in Heq.
Qed.

Lemma no_time_no_poll (l pre rest : list obs) now :
  Forall (λ o, projT1 o ≠ Time) l → l = pre ++ existT Time now :: rest → False.
Proof.
  intros H ->. apply Forall_app in H as [_ H]. by apply Forall_cons in H as [H _].
Qed.

Lemma run_bot_collect_foreign bucket fuel git_hash begin :
  wp (run_bot_collect bucket fuel git_hash begin) (λ tr o,
    ∀ pre now payload post,
      tr = pre ++ existT Time now
             :: existT (FileExists (get_magic_file_gs_path bucket TESTING_COMPLETE)) true
             :: existT (Cat (get_magic_file_gs_path bucket TESTING_COMPLETE)) (Some payload)
             :: post →
      payload ≠ git_hash →
      ∃ again,
        post = [existT (Cat (get_magic_file_gs_path bucket TESTING_COMPLETE)) again]
        ∧ o = Raised
                match again with
                | Some payload' =>
                    Exception ("Non matching git hashes " +:+ payload'
                               +:+ " and " +:+ git_hash)
                | None => CalledProcessError
                end).
Proof.
  unfold run_bot_collect. apply run_bot_wait_foreign. cbn.
  intros t. unfold get_status; cbn. intros [status|]; cbn.
  2: { intros [|? pre] now b post Heq; uncons Heq; [obs_clash Hhd0|].
       revert Heq. apply no_time_no_poll. by repeat constructor. }
  intros []. destruct (decide _); cbn.
  1: intros [] [].
  all: intros [|? pre] now b post Heq; uncons Heq; [obs_clash Hhd0|].
  all: revert Heq; apply no_time_no_poll; by repeat constructor.
Qed.

Lemma wp_bind_unseen {A B} (R : event → Prop) (S : obs → outcome B → Prop)
    (p : prog A) (f : A → prog B) :
  performs (λ e, ¬ R e) p →
  (∀ a, wp (f a) (λ tr o, ∀ x : obs, x ∈ tr → R (projT1 x) → S x o)) →
  wp (p ≫= f) (λ tr o, ∀ x : obs, x ∈ tr → R (projT1 x) → S x o).
Proof.
  rewrite bind_unfold. intros Hp Hf.
  induction p as [a|e k IH|x|c| |]; simpl.
  - apply Hf.
  - destruct Hp as [He Hk]. intros y. eapply wp_mono; [|apply IH, Hk].
    simpl. intros tr o Htr x [->|Hx]%elem_of_cons; [done|]. by apply Htr.
  - by intros ? ?%elem_of_nil.
  - by intros ? ?%elem_of_nil.
  - by intros ? ?%elem_of_nil.
  - by intros ? ?%elem_of_nil.
Qed.

Lemma cat_obs_inv (p q : string) (r s : option string) :
  (existT (Cat p) r : obs) = existT (Cat q) s → p = q ∧ r = s.
Proof.
  intros H.
  assert (p = q) as -> by (apply (f_equal (λ o : obs, projT1 o)) in H; simpl in H; congruence).
  split; [done|]. by apply obs_inj in H.
Qed.

Lemma print_magic_file_state_no_status bucket :
  performs (λ e, ¬ ∃ sha, e = Cat ("gs://" +:+ get_sha_destination bucket sha +:+ "/status"))
    (print_magic_file_state bucket).
Proof.
  unfold print_magic_file_state.
  assert (∀ l, l ⊆ ALL_MAGIC →
    performs (λ e, ¬ ∃ sha, e = Cat ("gs://" +:+ get_sha_destination bucket sha +:+ "/status"))
      (for_each l (λ magic,
         ex ← get_magic_file_exists bucket magic;
         if ex : bool then get_magic_file_content bucket magic true ;; Ret tt else Ret tt)))
    as H; [|by apply H].
  induction l as [|magic l IH]; intros Hl; [done|].
  cbn [for_each]. apply performs_bind; [|intros _; apply IH; set_solver].
  cbn. split; [by intros [? ?]|]. intros [|]; cbn; [|done]. split.
  - intros [sha Heq]. apply (magic_not_status bucket magic sha); [set_solver|congruence].
  - by intros [?|].
Qed.

Lemma run_bot_wait_no_status bucket fuel git_hash begin :
  performs (λ e, ¬ ∃ sha, e = Cat ("gs://" +:+ get_sha_destination bucket sha +:+ "/status"))
    (run_bot_wait bucket fuel git_hash begin).
Proof.
  assert (∀ sha, Cat (get_magic_file_gs_path bucket TESTING_COMPLETE)
                 ≠ Cat ("gs://" +:+ get_sha_destination bucket sha +:+ "/status")) as Hfin.
  { intros sha Heq. apply (magic_not_status bucket TESTING_COMPLETE sha); [|congruence].
    unfold ALL_MAGIC. set_solver. }
  induction fuel as [|fuel IH]; cbn; [done|].
  split; [by intros [? ?]|]. intros now. destruct (decide _); cbn; [done|].
  split; [by intros [? ?]|]. intros [|]; cbn.
  - split; [by intros [sha ?]; apply (Hfin sha)|].
    intros [content|]; cbn; [|done]. destruct (decide _); cbn; [done|].
    split; [by intros [sha ?]; apply (Hfin sha)|]. by intros [?|].
  - apply performs_bind; [apply print_magic_file_state_no_status|].
    intros _. cbn. split; [by intros [? ?]|]. intros _. apply IH.
Qed.

(** The value that [run_bot] returns once it has read the status. *)
Lemma run_bot_status bucket fuel :
  wp (run_bot bucket fuel) (λ tr o, ∀ x : obs, x ∈ tr →
    (∃ sha, projT1 x = Cat ("gs://" +:+ get_sha_destination bucket sha +:+ "/status")) →
    ∀ sha status,
      x = existT (Cat ("gs://" +:+ get_sha_destination bucket sha +:+ "/status")) (Some status) →
      o = Returned (if decide (status ≠ "0") then Py.Int 1 else Py.None_)).
Proof.
  pose (R := λ e : event,
          ∃ sha, e = Cat ("gs://" +:+ get_sha_destination bucket sha +:+ "/status")).
  pose (S := λ (x : obs) (o : outcome Py.value), ∀ sha status,
          x = existT (Cat ("gs://" +:+ get_sha_destination bucket sha +:+ "/status"))
                (Some status) →
          o = Returned (if decide (status ≠ "0") then Py.Int 1 else Py.None_)).
  change (wp (run_bot bucket fuel)
            (λ tr o, ∀ x : obs, x ∈ tr → R (projT1 x) → S x o)).
  unfold run_bot.
  apply (wp_bind_unseen R S); [apply print_magic_file_state_no_status|intros _].
  apply (wp_bind_unseen R S).
  { apply performs_for_each. intros magic. cbn. split; [by intros [? ?]|].
    intros [|]; cbn; [|done]. split; [by intros [? ?]|done]. }
  intros _.
  apply (wp_bind_unseen R S); [apply print_magic_file_state_no_status|intros _].
  apply (wp_bind_unseen R S); [cbn; split; [by intros [? ?]|done]|intros [|]].
  { by intros ? ?%elem_of_nil. }
  apply (wp_bind_unseen R S); [cbn; split; [by intros [? ?]|done]|intros git_hash].
  apply (wp_bind_unseen R S); [cbn; split; [by intros [? ?]|done]|intros _].
  apply (wp_bind_unseen R S); [cbn; split; [by intros [? ?]|done]|intros begin].
  unfold run_bot_collect.
  apply (wp_bind_unseen R S); [apply run_bot_wait_no_status|intros _].
  apply (wp_bind_unseen R S); [cbn; split; [by intros [? ?]|done]|intros _].
  unfold get_status, R, S. cbn. intros [status|]; cbn.
  - intros []. destruct (decide (status ≠ "0")); cbn.
    1: intros [] [].
    all: intros x Hx _ sha status' ->.
    all: repeat (apply elem_of_cons in Hx as [Hx|Hx]; [try by obs_clash Hx|]).
    all: try by apply elem_of_nil in Hx.
    all: apply cat_obs_inv in Hx as [_ [= ->]].
    all: by rewrite ?decide_True, ?decide_False by done.
  - intros x Hx _ sha status' ->.
    apply list_elem_of_singleton, cat_obs_inv in Hx as [_ [=]].
Qed.


(** ** The tester *)

Lemma wp_true {A} (p : prog A) : wp p (λ _ _, True).
Proof. induction p; simpl; auto. Qed.

Lemma performs_impl {A} (P P' : event → Prop) (p : prog A) :
  (∀ e, P e → P' e) → performs P p → performs P' p.
Proof.
  intros HP. induction p as [a|e k IH|x|c| |]; simpl; auto.
  intros [He Hk]. split; auto.
Qed.

Lemma performs_finally {A} P (p : prog A) (h : prog unit) :
  performs P p → performs P h → performs P (finally p h).
Proof.
  intros Hp Hh. induction p as [a|e k IH|x|c| |]; unfold finally; cbn; auto.
  - apply (performs_bind P h (λ _, Ret a)); auto.
  - destruct Hp as [He Hk]. split; [done|]. intros x. apply IH, Hk.
  - apply (performs_bind P h (λ _, Raise x)); auto.
  - apply (performs_bind P h (λ _, Exit c)); auto.
Qed.

Lemma performs_comprehension {A B} P (l : list A) (f : A → prog B) :
  (∀ a, performs P (f a)) → performs P (comprehension l f).
Proof.
  intros Hf. induction l as [|a l IH]; cbn [comprehension]; [done|].
  apply performs_bind; [done|]. intros b.
  apply performs_bind; [done|]. by intros.
Qed.

Lemma magic_path_inj bucket name name' :
  get_magic_file_gs_path bucket name = get_magic_file_gs_path bucket name' → name = name'.
Proof.
  unfold get_magic_file_gs_path. intros H.
  apply (inj (String.app _)) in H. by apply (inj (String.app _)) in H.
Qed.

Lemma magic_not_lower bucket name dir file :
  name ∈ ALL_MAGIC →
  (∀ d, last_ascii file d ∈ ["e"; "t"; "r"; "s"]%char) →
  get_magic_file_gs_path bucket name ≠ dir +:+ "/" +:+ file.
Proof.
  intros Hin Hlast Heq. apply (f_equal (λ s, last_ascii s "000"%char)) in Heq.
  unfold get_magic_file_gs_path in Heq. rewrite !last_ascii_app in Heq.
  specialize (Hlast (last_ascii "/" (last_ascii dir "000"%char))).
  rewrite <-Heq in Hlast. clear Heq. unfold ALL_MAGIC in Hin.
  repeat (apply elem_of_cons in Hin as [->|Hin]); [..|by apply elem_of_nil in Hin].
  all: cbv in Hlast.
  all: repeat (apply elem_of_cons in Hlast as [Hlast|Hlast]; [discriminate|]).
  all: by apply elem_of_nil in Hlast.
Qed.

Lemma archive_status_no_magic_write bucket failed :
  performs (no_magic_write bucket) (archive_status bucket failed).
Proof.
  unfold archive_status. cbn. split; [done|]. intros sha. split; [|done].
  intros name Hin Heq. by apply (magic_not_status bucket name sha).
Qed.

Lemma handle_output_no_magic_write bucket archive stderr stdout exitcode timed_out cmd :
  performs (no_magic_write bucket)
    (handle_output bucket archive stderr stdout exitcode timed_out cmd).
Proof.
  unfold handle_output, archive_log. destruct archive; cbn.
  - split; [done|]. intros sha.
    repeat (split; [try done|intros ?]); try done.
    all: intros name Hin Heq; symmetry in Heq; revert Heq.
    all: apply magic_not_lower; [done|].
    all: intros d; apply list_elem_of_In; cbv; tauto.
  - repeat (split; [try done|intros ?]); done.
Qed.

Lemma execute_wait_no_magic_write bucket fuel begin t :
  performs (no_magic_write bucket) (execute_wait fuel begin t).
Proof.
  revert t. induction fuel as [|fuel IH]; intros t; cbn; [done|].
  split; [done|]. intros [rc|]; cbn; [done|]. split; [done|]. intros now.
  destruct (decide _); cbn.
  - split; [done|]. intros _. split; [done|]. intros _. apply IH.
  - split; [done|]. intros _. apply IH.
Qed.

Lemma run_once_on_no_magic_write bucket commands fuel archive :
  performs (no_magic_write bucket) (run_once_on bucket commands fuel archive).
Proof.
  unfold run_once_on. cbn. split; [done|]. intros _. split; [done|]. intros environ.
  apply performs_bind.
  - apply performs_comprehension. intros cmd. unfold execute.
    destruct (decide _); [done|]. unfold with_TempDir. cbn. split; [done|].
    intros temp. apply performs_finally; [|by cbn]. cbn. split; [done|].
    intros [|]; cbn; [|done]. split; [done|]. intros begin.
    apply performs_bind; [apply execute_wait_no_magic_write|].
    intros [rc t]. apply performs_bind; [|by intros].
    destruct (decide _); [apply handle_output_no_magic_write|done].
  - intros results. cbn. split; [done|]. intros _.
    apply performs_bind; [apply archive_status_no_magic_write|by intros].
Qed.

Lemma wp_bind_checks {A B} (W : list obs → list obs → outcome B → Prop)
    (p : prog A) (f : A → prog B) :
  performs is_check p →
  (∀ checks (o : outcome B), (∀ b, o ≠ Returned b) → W checks [] o) →
  (∀ c checks writes o, W checks writes o → W (c ++ checks) writes o) →
  (∀ a, wp (f a) (shape W)) →
  wp (p ≫= f) (shape W).
Proof.
  rewrite bind_unfold. intros Hp Hnil Hpre Hf.
  induction p as [a|e k IH|x|c| |]; simpl.
  - apply Hf.
  - destruct Hp as [He Hk]. intros y. eapply wp_mono; [|apply IH, Hk].
    simpl. intros tr o (checks & writes & -> & Hchecks & HW).
    exists (existT e y :: checks), writes. split; [done|]. split; [by constructor|].
    by apply (Hpre [existT e y]).
  - exists [], []. split; [done|]. split; [done|]. by apply Hnil.
  - exists [], []. split; [done|]. split; [done|]. by apply Hnil.
  - exists [], []. split; [done|]. split; [done|]. by apply Hnil.
  - exists [], []. split; [done|]. split; [done|]. by apply Hnil.
Qed.

Lemma claim_discipline_nil bucket checks (o : outcome bool) :
  (∀ b, o ≠ Returned b) → claim_discipline bucket checks [] o.
Proof.
  intros Ho. split; [done|]. split; [done|]. split.
  - intros [b ->]. by destruct (Ho b).
  - by intros [|? ?].
Qed.

Lemma claim_discipline_more bucket c checks writes (o : outcome bool) :
  claim_discipline bucket checks writes o → claim_discipline bucket (c ++ checks) writes o.
Proof.
  intros (H1 & H2 & H3 & H4). split; [done|]. split; [done|]. split; [done|].
  intros w1 git_hash w2 Hw. destruct (H4 _ _ _ Hw) as (-> & checks' & sha & own & ->).
  split; [done|]. exists (c ++ checks'), sha, own. by rewrite app_assoc.
Qed.

Lemma git_checkout_checks git_hash :
  wp (git_checkout git_hash) (λ tr o,
    Forall (λ x : obs, is_check (projT1 x)) tr
    ∧ ∀ checked_out, o = Returned checked_out →
        not_checked_out checked_out = false →
        ∃ tr' sha,
          checked_out = Some sha
          ∧ tr = tr' ++ [existT (Call ["git"; "checkout"; git_hash]) 0; existT HeadSha1 sha]).
Proof.
  unfold git_checkout, git_pull, ensure_git_clean, subprocess.check_output,
    subprocess.check_call, subprocess.call, utils.get_HEAD_sha1. cbn.
  intros [diff|]; cbn; [|split; [by repeat constructor|done]].
  destruct (decide _); cbn; [split; [by repeat constructor|done]|].
  intros [diff'|]; cbn; [|split; [by repeat constructor|done]].
  destruct (decide _); cbn; [split; [by repeat constructor|done]|].
  intros rc1. destruct (decide _); cbn; [|split; [by repeat constructor|done]].
  intros rc2. destruct (decide _); cbn; [|split; [by repeat constructor|done]].
  intros sha0 rc. destruct (decide (rc ≠ 0)) as [Hrc|Hrc]; cbn.
  { split; [by repeat constructor|]. by intros ? [= <-]. }
  intros sha. split; [by repeat constructor|].
  intros ? [= <-] _. apply dec_stable in Hrc as ->.
  eexists [_; _; _; _; _], sha. done.
Qed.

Lemma never_execs_bind {A B} (p : prog A) (f : A → prog B) :
  never_execs p → (∀ a, never_execs (f a)) → never_execs (p ≫= f).
Proof.
  rewrite bind_unfold. induction p as [a|e k IH|x|c| |]; simpl; auto.
Qed.

Lemma never_execs_finally {A} (p : prog A) (h : prog unit) :
  never_execs p → never_execs h → never_execs (finally p h).
Proof.
  intros Hp Hh. induction p as [a|e k IH|x|c| |]; unfold finally; cbn; auto.
  - apply (never_execs_bind h (λ _, Ret a)); auto.
  - apply (never_execs_bind h (λ _, Raise x)); auto.
  - apply (never_execs_bind h (λ _, Exit c)); auto.
Qed.

Lemma never_execs_comprehension {A B} (l : list A) (f : A → prog B) :
  (∀ a, never_execs (f a)) → never_execs (comprehension l f).
Proof.
  intros Hf. induction l as [|a l IH]; cbn [comprehension]; [done|].
  apply never_execs_bind; [done|]. intros b.
  apply never_execs_bind; [done|]. by intros.
Qed.

Lemma never_execs_wp {A} (p : prog A) : never_execs p → wp p (λ _ o, o ≠ Execved).
Proof.
  induction p as [a|e k IH|x|c| |]; simpl; try done.
  intros Hk y. apply IH, Hk.
Qed.

Lemma execute_wait_never_execs fuel begin t : never_execs (execute_wait fuel begin t).
Proof.
  revert t. induction fuel as [|fuel IH]; intros t; cbn; [done|].
  intros [rc|]; cbn; [done|]. intros now. destruct (decide _); cbn; intros; apply IH.
Qed.

Lemma run_once_on_never_execs bucket commands fuel archive :
  never_execs (run_once_on bucket commands fuel archive).
Proof.
  unfold run_once_on. cbn. intros _ environ.
  apply never_execs_bind.
  - apply never_execs_comprehension. intros cmd. unfold execute.
    destruct (decide _); [done|]. unfold with_TempDir. cbn.
    intros temp. apply never_execs_finally; [|by cbn]. cbn.
    intros [|]; cbn; [|done]. intros begin.
    apply never_execs_bind; [apply execute_wait_never_execs|].
    intros [rc t]. apply never_execs_bind; [|by intros].
    destruct (decide _); [|done].
    unfold handle_output, archive_log. by destruct archive; cbn.
  - intros results. cbn. intros _. unfold archive_status. by cbn.
Qed.

Lemma claimed_from_app bucket held tr tr' :
  claimed_from bucket held (tr ++ tr')
  = claimed_from bucket (claimed_from bucket held tr) tr'.
Proof. apply foldl_app. Qed.

Lemma claimed_from_no_magic_write bucket held tr :
  Forall (λ x : obs, no_magic_write bucket (projT1 x)) tr →
  claimed_from bucket held tr = held.
Proof.
  assert (TESTING ∈ ALL_MAGIC) as Hin by (unfold ALL_MAGIC; set_solver).
  intros Htr. revert held. induction Htr as [|[e x] tr He _ IH]; intros held; [done|].
  unfold claimed_from in *. cbn [foldl]. rewrite IH.
  destruct e; cbn in *; try done.
  all: destruct (decide _) as [->|]; [by destruct (He _ Hin)|done].
Qed.

Lemma upload_testing_not_in bucket (tr w1 w2 : list obs) git_hash :
  Forall (λ x : obs, no_magic_write bucket (projT1 x)) tr →
  tr = w1 ++ existT (Upload (get_magic_file_gs_path bucket TESTING) git_hash) tt :: w2 →
  False.
Proof.
  intros Htr ->. apply Forall_app in Htr as [_ Htr]. apply Forall_cons in Htr as [H _].
  apply (H TESTING); [|done]. unfold ALL_MAGIC. set_solver.
Qed.

Lemma upload_obs_inv (p q c d : string) :
  (existT (Upload p c) tt : obs) = existT (Upload q d) tt → p = q ∧ c = d.
Proof.
  intros H. apply (f_equal (λ o : obs, projT1 o)) in H. simpl in H.
  split; congruence.
Qed.

Lemma upload_path_inv (p q c d : string) : Upload p c = Upload q d → p = q.
Proof. congruence. Qed.

Lemma restart_if_new_version_checks own_content :
  performs is_check (restart_if_new_version own_content).
Proof. unfold restart_if_new_version. cbn. split; [done|]. intros c. by destruct (decide _). Qed.

Lemma print_magic_file_state_checks bucket : performs is_check (print_magic_file_state bucket).
Proof.
  eapply performs_impl; [|apply print_magic_file_state_reads]. by intros [].
Qed.

Lemma run_continuously_iteration_discipline bucket cmd_fuel own_content :
  wp (run_continuously_iteration bucket cmd_fuel own_content)
    (shape (claim_discipline bucket)).
Proof.
  assert (∀ checks writes (o : outcome bool),
            Forall (λ x : obs, is_check (projT1 x)) checks →
            claim_discipline bucket checks writes o →
            shape (claim_discipline bucket) (checks ++ writes) o) as Hshape.
  { intros checks writes o ??. by exists checks, writes. }
  assert (TESTING ∈ ALL_MAGIC) as Hin by (unfold ALL_MAGIC; set_solver).
  unfold run_continuously_iteration.
  apply wp_bind_checks; [apply restart_if_new_version_checks
    |apply claim_discipline_nil|apply claim_discipline_more|intros _].
  apply wp_bind_checks; [apply print_magic_file_state_checks
    |apply claim_discipline_nil|apply claim_discipline_more|intros _].
  apply wp_bind_checks; [by cbn
    |apply claim_discipline_nil|apply claim_discipline_more|intros [|]].
  2: { apply (Hshape [] []); [done|]. split; [done|]. split; [done|].
       split; [done|]. by intros [|? ?]. }
  apply wp_bind_checks; [by cbn; split; [|intros [?|]]
    |apply claim_discipline_nil|apply claim_discipline_more|intros git_hash].
  apply wp_bind. eapply wp_mono; [|apply git_checkout_checks].
  intros tr o [Htr Hret]. destruct o as [checked_out| | | |]; cbn.
  2-5: by rewrite <-(app_nil_r tr); apply Hshape; [|apply claim_discipline_nil].
  destruct (not_checked_out checked_out) eqn:Hnc.
  - (* Gerrit change *)
    unfold archive_status, put_magic_file, delete_magic_file. cbn.
    intros sha [] [] [].
    change (tr ++ ?a :: ?l) with (tr ++ [a] ++ l). rewrite app_assoc.
    apply Hshape; [apply Forall_app; split; [done|by repeat constructor]|].
    assert (∀ w1 git_hash' w2,
              ([existT (Upload (("gs://" +:+ get_sha_destination bucket sha) +:+ "/" +:+ "status")
                           (Py.str (Py.Int 0))) ();
                 existT (Upload (get_magic_file_base_path bucket +:+ "/" +:+ TESTING_COMPLETE)
                           (Py.str (Py.Str git_hash))) ();
                 existT (Delete (get_magic_file_gs_path bucket READY_FOR_TESTING)) ()] : list obs)
              = w1 ++ existT (Upload (get_magic_file_gs_path bucket TESTING) git_hash') () :: w2
              → False)
      as Hnot.
    { intros w1 git_hash' w2 Hw.
      assert (existT (Upload (get_magic_file_gs_path bucket TESTING) git_hash') ()
              ∈ w1 ++ existT (Upload (get_magic_file_gs_path bucket TESTING) git_hash') () :: w2)
        as Hel by (apply elem_of_app; right; left).
      rewrite <-Hw in Hel. clear Hw.
      repeat (apply elem_of_cons in Hel as [Hel|Hel]); [..|by apply elem_of_nil in Hel].
      - apply upload_obs_inv in Hel as [Hel _].
        by apply (magic_not_status bucket TESTING sha).
      - apply upload_obs_inv in Hel as [Hel _]. by apply magic_path_inj in Hel.
      - obs_clash Hel. }
    split; [by repeat constructor|]. split; [done|]. split.
    + intros _. unfold claimed_from. cbn.
      rewrite !decide_False; [done|..].
      * intros Heq. symmetry in Heq. by apply (magic_not_status bucket TESTING sha).
      * intros Heq. change (get_magic_file_base_path bucket +:+ "/" +:+ TESTING_COMPLETE)
          with (get_magic_file_gs_path bucket TESTING_COMPLETE) in Heq.
        by apply magic_path_inj in Heq.
      * intros Heq. by apply magic_path_inj in Heq.
    + intros w1 git_hash' w2 Hw. by destruct (Hnot _ _ _ Hw).
  - destruct (Hret _ eq_refl Hnc) as (tr' & sha & -> & ->).
    unfold restart_if_new_version. cbn. intros own.
    eapply wp_mono.
    { intros tr2 o2 H. rewrite cons_middle, app_assoc. exact H. }
    assert (Forall (λ x : obs, is_check (projT1 x))
              ((tr' ++ [existT (Call ["git"; "checkout"; git_hash]) 0;
                        existT HeadSha1 sha]) ++ [existT ReadOwnFile own])) as Hchecks.
    { apply Forall_app. split; [done|by repeat constructor]. }
    destruct (decide _); cbn.
    { by apply Hshape; [|apply claim_discipline_nil]. }
    destruct (decide _) as [Hsha|Hsha]; cbn.
    { by apply Hshape; [|apply claim_discipline_nil]. }
    apply dec_stable in Hsha as [= ->].
    unfold put_magic_file, delete_magic_file. cbn. intros [] [].
    unfold run_once. apply wp_bind.
    eapply wp_mono; [|apply wp_conj;
      [apply performs_wp, (run_once_on_no_magic_write bucket)
      |apply never_execs_wp, run_once_on_never_execs]].
    cbn. intros tr_once o_once [Honce Hexec].
    assert (∀ (o : outcome bool) tail,
              o ≠ Execved →
              Forall (λ x : obs, projT1 x ≠ ReadOwnFile) tail →
              ((∃ b, o = Returned b) → claimed_from bucket true tail = false) →
              (∀ w1 git_hash' w2,
                 tail = w1 ++ existT (Upload (get_magic_file_gs_path bucket TESTING) git_hash') tt :: w2 →
                 False) →
              claim_discipline bucket
                ((tr' ++ [existT (Call ["git"; "checkout"; git_hash]) 0;
                          existT HeadSha1 git_hash]) ++ [existT ReadOwnFile own])
                (existT (Upload (get_magic_file_base_path bucket +:+ "/" +:+ TESTING)
                           (Py.str (Py.Str git_hash))) ()
                 :: existT (Delete (get_magic_file_gs_path bucket READY_FOR_TESTING)) ()
                 :: tail) o) as Hfull.
    { intros o tail Ho Htail Hheld Hno. split; [by repeat constructor|].
      split; [done|]. split.
      - intros Hb. unfold claimed_from. cbn.
        change (get_magic_file_base_path bucket +:+ "/" +:+ TESTING)
          with (get_magic_file_gs_path bucket TESTING).
        rewrite decide_False by (intros Heq; by apply magic_path_inj in Heq).
        rewrite decide_True by done. by apply Hheld.
      - intros [|? [|? w1]] git_hash' w2 Hw; cbn in Hw; apply cons_eq_inv in Hw as [Hhd Hw].
        + split; [done|]. exists tr', git_hash, own.
          apply upload_obs_inv in Hhd as [_ Hhd]. cbn in Hhd. subst git_hash'.
          by rewrite <-app_assoc.
        + apply cons_eq_inv in Hw as [Hhd' _]. obs_clash Hhd'.
        + apply cons_eq_inv in Hw as [_ Hw]. by destruct (Hno _ _ _ Hw). }
    assert (Forall (λ x : obs, projT1 x ≠ ReadOwnFile) tr_once) as Hnr.
    { eapply Forall_impl; [apply Honce|]. by intros [[] ?] ?. }
    destruct o_once as [v| | | |]; cbn.
    + intros [] []. apply Hshape; [done|]. apply Hfull; [done| | |].
      * apply Forall_app. split; [done|by repeat constructor].
      * intros _. rewrite claimed_from_app.
        unfold claimed_from at 1. cbn. by rewrite decide_True.
      * intros w1 git_hash' w2 Hw.
        change (tr_once ++ [?a; ?b]) with (tr_once ++ [a] ++ [b]) in Hw.
        symmetry in Hw. rewrite app_assoc in Hw.
        apply (app_cons_skip (λ o, projT1 o = Upload (get_magic_file_gs_path bucket TESTING) git_hash'))
          in Hw as (pre' & _ & Hw); [| |done].
        -- destruct pre' as [|? pre']; cbn in Hw; apply cons_eq_inv in Hw as [Hhd Hw];
             [obs_clash Hhd|by destruct pre'].
        -- apply Forall_app. split.
           ++ eapply Forall_impl; [apply Honce|]. intros [e x] He Heq. cbn in *.
              subst e. by apply (He TESTING).
           ++ constructor; [|done]. cbn. intros Heq%upload_path_inv.
              change (get_magic_file_base_path bucket +:+ "/" +:+ TESTING_COMPLETE)
                with (get_magic_file_gs_path bucket TESTING_COMPLETE) in Heq.
              by apply magic_path_inj in Heq.
    + apply Hshape; [done|]. apply Hfull; [done|done|by intros [??]|].
      intros w1 git_hash' w2. by apply upload_testing_not_in.
    + apply Hshape; [done|]. apply Hfull; [done|done|by intros [??]|].
      intros w1 git_hash' w2. by apply upload_testing_not_in.
    + done.
    + apply Hshape; [done|]. apply Hfull; [done|done|by intros [??]|].
      intros w1 git_hash' w2. by apply upload_testing_not_in.
Qed.


Lemma app_cons_split {A} (pre post a b : list A) (x : A) :
  pre ++ x :: post = a ++ b →
  (∃ rest, a = pre ++ x :: rest ∧ post = rest ++ b)
  ∨ (∃ pre', pre = a ++ pre' ∧ b = pre' ++ x :: post).
Proof.
  revert pre. induction a as [|y a IH]; intros pre Heq; simpl in *.
  { right. by exists pre. }
  destruct pre as [|z pre]; simpl in *; apply cons_eq_inv in Heq as [-> Heq].
  - left. by exists a.
  - destruct (IH _ Heq) as [(rest & -> & ->)|(pre' & -> & ->)].
    + left. by exists rest.
    + right. by exists pre'.
Qed.

Lemma run_continuously_iteration_starts_with_check bucket cmd_fuel own_content :
  wp (run_continuously_iteration bucket cmd_fuel own_content)
    (λ tr _, ∃ own tr', tr = existT ReadOwnFile own :: tr').
Proof.
  unfold run_continuously_iteration, restart_if_new_version. cbn. intros own.
  eapply wp_mono; [|apply wp_true]. cbn. eauto.
Qed.

(** C8, as amended: every pass of the consumer loop starts with the
    self-update check; in a pass that claims a work unit (writes [TESTING])
    the check is applied a second time after the checkout of the commit has
    succeeded and immediately before [TESTING] is written, hence before any
    command is started, and it is not applied again in that pass. *)
Theorem self_update_check_precedes_claim
    {W} (h : handler W) (w : W) bucket cmd_fuel own_content :
  let r := exec h (run_continuously_iteration bucket cmd_fuel own_content) w in
  (∃ own tr, observed r = existT ReadOwnFile own :: tr)
  ∧ ∀ pre git_hash post,
      observed r
      = pre ++ existT (Upload (get_magic_file_gs_path bucket TESTING) git_hash) tt :: post →
      (∃ own mid sha own',
         pre = existT ReadOwnFile own
                 :: mid ++ [existT (Call ["git"; "checkout"; git_hash]) 0;
                            existT HeadSha1 sha;
                            existT ReadOwnFile own'])
      ∧ Forall (λ x : obs, ∀ argv env out err, projT1 x ≠ Popen argv env out err) pre
      ∧ Forall (λ x : obs, projT1 x ≠ ReadOwnFile) post.
Proof.
  intros r.
  pose proof (wp_exec h _ _ w
    (run_continuously_iteration_starts_with_check bucket cmd_fuel own_content))
    as (own & tr & Htr).
  pose proof (wp_exec h _ _ w
    (run_continuously_iteration_discipline bucket cmd_fuel own_content))
    as (checks & writes & Hsplit & Hchecks & Hnr & _ & _ & Hclaim).
  fold r in Htr, Hsplit. split; [by eauto|].
  intros pre git_hash post Hpre. rewrite Hsplit in Hpre. symmetry in Hpre.
  apply (app_cons_skip (λ x, ¬ is_check (projT1 x))) in Hpre
    as (pre' & -> & Hw); [| |by intros []].
  2: { eapply Forall_impl; [apply Hchecks|]. cbn. tauto. }
  destruct (Hclaim _ _ _ Hw) as (-> & checks' & sha & own' & ->).
  rewrite app_nil_r in *. cbn in Hw. subst writes.
  split; [|split].
  - rewrite Hsplit in Htr. destruct checks' as [|x checks']; cbn in Htr.
    + apply cons_eq_inv in Htr as [Hhd _]. obs_clash Hhd.
    + apply cons_eq_inv in Htr as [-> _]. by exists own, checks', sha, own'.
  - eapply Forall_impl; [apply Hchecks|]. intros [[] ?] ?; done.
  - by apply Forall_cons in Hnr as [_ ?].
Qed.

Lemma self_update_check_precedes_claim_witness :
  let r := exec (on_cloud scripted_oracle)
             (run_continuously_iteration example_bucket 1 "") offered_abc in
  (∃ own mid sha own',
     take 15 (observed r)
     = existT ReadOwnFile own
         :: mid ++ [existT (Call ["git"; "checkout"; "abc"]) 0;
                    existT HeadSha1 sha;
                    existT ReadOwnFile own'])
  ∧ Forall (λ x : obs, ∀ argv env out err, projT1 x ≠ Popen argv env out err)
      (take 15 (observed r))
  ∧ Forall (λ x : obs, projT1 x ≠ ReadOwnFile) (drop 16 (observed r)).
Proof.
  intros r.
  apply (proj2 (self_update_check_precedes_claim (on_cloud scripted_oracle) offered_abc
                  example_bucket 1 "") (take 15 (observed r)) "abc" (drop 16 (observed r))).
  vm_compute. reflexivity.
Defined.

(** C8 as stated fails: in a pass that claims the work unit "abc" the second
    self-update check is event 14, before [TESTING] is written (event 15);
    the first command is started at event 20, and no self-update check
    happens after the claim. *)
Lemma no_self_update_check_after_claim :
  let tr := observed (exec (on_cloud scripted_oracle)
                        (run_continuously_iteration example_bucket 1 "") offered_abc) in
  tr !! 14%nat = Some (existT ReadOwnFile "")
  ∧ tr !! 15%nat
    = Some (existT (Upload (get_magic_file_gs_path example_bucket TESTING) "abc") tt)
  ∧ (λ x : obs, projT1 x) <$> tr !! 20%nat
    = Some (Popen ["tools/test.py"; "--only_internal"; "--slow_tests";
                   "--java_max_memory_size=8G"]
              (Some {[ "R8_GRADLE_CORES_PER_FORK" := "16" ]})
              "/tmp/tmp0/stdout" "/tmp/tmp0/stderr")
  ∧ forallb (λ x : obs, bool_decide (projT1 x ≠ ReadOwnFile)) (drop 16 tr) = true.
Proof.
  intros tr. repeat split; vm_compute; reflexivity.
Qed.

Lemma claimed_from_checks bucket held tr :
  Forall (λ x : obs, is_check (projT1 x)) tr → claimed_from bucket held tr = held.
Proof.
  intros Htr. revert held. induction Htr as [|[e x] tr He _ IH]; intros held; [done|].
  unfold claimed_from in *. cbn [foldl]. rewrite IH. by destruct e.
Qed.

(** At a self-update check inside a pass all earlier events of the pass are
    checks. *)
Lemma check_among_checks (checks writes pre post : list obs) own :
  Forall (λ x : obs, is_check (projT1 x)) checks →
  Forall (λ x : obs, projT1 x ≠ ReadOwnFile) writes →
  checks ++ writes = pre ++ existT ReadOwnFile own :: post →
  Forall (λ x : obs, is_check (projT1 x)) pre.
Proof.
  intros Hchecks Hwrites Heq. symmetry in Heq.
  apply app_cons_split in Heq as [(rest & -> & _)|(pre' & -> & ->)].
  - by apply Forall_app in Hchecks as [? _].
  - apply Forall_app in Hwrites as [_ Hw]. by apply Forall_cons in Hw as [? _].
Qed.

Lemma run_continuously_loop_holds_no_claim bucket fuel cmd_fuel own_content :
  wp (run_continuously_loop bucket fuel cmd_fuel own_content) (λ tr o,
    (∀ pre own post, tr = pre ++ existT ReadOwnFile own :: post →
       claimed_unfinished bucket pre = false)
    ∧ (o = Execved → claimed_unfinished bucket tr = false)).
Proof.
  induction fuel as [|fuel IH]; cbn [run_continuously_loop].
  { cbn. split; [by intros [|? ?]|done]. }
  apply wp_bind.
  eapply wp_mono; [|apply run_continuously_iteration_discipline].
  intros tr o (checks & writes & -> & Hchecks & Hnr & Hexec & Hheld & _).
  assert (∀ pre own post, checks ++ writes = pre ++ existT ReadOwnFile own :: post →
            claimed_unfinished bucket pre = false) as Hit.
  { intros pre own post Heq. apply claimed_from_checks.
    by eapply check_among_checks. }
  destruct o as [sleep| | | |]; cbn.
  2-5: split; [exact Hit|]; try done.
  2: { intros _. rewrite (Hexec eq_refl), app_nil_r. by apply claimed_from_checks. }
  assert (claimed_from bucket false (checks ++ writes) = false) as Hdone.
  { rewrite claimed_from_app, (claimed_from_checks bucket false checks) by done.
    apply Hheld. by exists sleep. }
  assert (wp ((if sleep then trigger (Sleep PULL_DELAY) else Ret ()) ≫=
                λ _ : (), run_continuously_loop bucket fuel cmd_fuel own_content)
            (λ tr o, ∃ gap tr', tr = gap ++ tr'
               ∧ Forall (λ x : obs, ∃ secs, projT1 x = Sleep secs) gap
               ∧ (∀ pre own post, tr' = pre ++ existT ReadOwnFile own :: post →
                    claimed_unfinished bucket pre = false)
               ∧ (o = Execved → claimed_unfinished bucket tr' = false))) as Hrest.
  { destruct sleep; cbn.
    - intros []. eapply wp_mono; [|apply IH]. cbn. intros tr o [H1 H2].
      exists [existT (Sleep PULL_DELAY) ()], tr. split; [done|].
      split; [|done]. repeat constructor. by eexists.
    - eapply wp_mono; [|apply IH]. cbn. intros tr o [H1 H2]. by exists [], tr. }
  eapply wp_mono; [|apply Hrest].
  cbn. intros ? o (gap & tr & -> & Hgap & H1 & H2).
  assert (∀ held, claimed_from bucket held gap = held) as Hgap'.
  { intros held. clear -Hgap. revert held.
    induction Hgap as [|[e x] gap [secs He] _ IHg]; intros held; [done|].
    unfold claimed_from in *. cbn [foldl]. rewrite IHg. cbn in He. by subst e. }
  split.
  - intros pre own post Heq. rewrite app_assoc in Heq. symmetry in Heq.
    apply app_cons_split in Heq as [(rest & Heq & _)|(pre' & -> & ->)].
    + symmetry in Heq. apply app_cons_split in Heq as [(rest' & Heq & _)|(pre' & -> & Hg)].
      * by eapply Hit.
      * subst gap. apply Forall_app in Hgap as [_ Hg].
        apply Forall_cons in Hg as [[secs Hg] _]. done.
    + unfold claimed_unfinished.
      rewrite (claimed_from_app _ _ (_ ++ gap) pre'),
        (claimed_from_app _ _ (checks ++ writes) gap), Hgap', Hdone.
      by eapply H1.
  - intros Ho. unfold claimed_unfinished.
    rewrite app_assoc, (claimed_from_app _ _ (_ ++ gap) tr),
      (claimed_from_app _ _ (checks ++ writes) gap), Hgap', Hdone.
    by apply H2.
Qed.

(** C10: at every self-update check of the consumer loop the consumer holds
    no claim (it has deleted every [TESTING] it has written), so that a run
    which ends in the re-exec holds no claim; within a pass every check
    comes before [TESTING] is written and before [READY_FOR_TESTING] is
    deleted. *)
Theorem restart_never_abandons_claim
    {W} (h : handler W) (w : W) bucket fuel cmd_fuel :
  let r := exec h (run_continuously bucket fuel cmd_fuel) w in
  (∀ pre own post,
     observed r = pre ++ existT ReadOwnFile own :: post →
     claimed_unfinished bucket pre = false)
  ∧ (outcome_of r = Execved → claimed_unfinished bucket (observed r) = false)
  ∧ ∀ (w' : W) own_content pre own post,
      observed (exec h (run_continuously_iteration bucket cmd_fuel own_content) w')
      = pre ++ existT ReadOwnFile own :: post →
      Forall (λ x : obs,
                (∀ content,
                   projT1 x ≠ Upload (get_magic_file_gs_path bucket TESTING) content)
                ∧ projT1 x ≠ Delete (get_magic_file_gs_path bucket READY_FOR_TESTING))
        pre.
Proof.
  intros r. split; [|split].
  - subst r. unfold run_continuously, get_own_file_content. cbn.
    pose proof (wp_exec h _ _ (h ReadOwnFile w).2
      (run_continuously_loop_holds_no_claim bucket fuel cmd_fuel (h ReadOwnFile w).1))
      as [Hloop _].
    intros [|x pre] own post Heq; [done|].
    cbn in Heq. apply cons_eq_inv in Heq as [<- Heq].
    unfold claimed_unfinished, claimed_from. cbn [foldl projT1].
    by eapply Hloop.
  - subst r. unfold run_continuously, get_own_file_content. cbn.
    pose proof (wp_exec h _ _ (h ReadOwnFile w).2
      (run_continuously_loop_holds_no_claim bucket fuel cmd_fuel (h ReadOwnFile w).1))
      as [_ Hloop].
    intros Ho. unfold claimed_unfinished, claimed_from. cbn [foldl projT1].
    by apply Hloop.
  - intros w' own_content pre own post Heq.
    pose proof (wp_exec h _ _ w'
      (run_continuously_iteration_discipline bucket cmd_fuel own_content))
      as (checks & writes & Hsplit & Hchecks & Hnr & _).
    rewrite Hsplit in Heq.
    eapply Forall_impl; [by eapply check_among_checks|].
    by intros [[] ?] ?.
Qed.

Lemma restart_never_abandons_claim_witness :
  let r := exec (on_cloud scripted_oracle) (run_continuously example_bucket 2 1) offered_abc in
  let r' := exec (on_cloud scripted_oracle) (run_continuously example_bucket 2 1)
              updated_script in
  claimed_unfinished example_bucket (take 96 (observed r)) = false
  ∧ claimed_unfinished example_bucket (observed r') = false.
Proof.
  intros r r'. split.
  - apply (proj1 (restart_never_abandons_claim (on_cloud scripted_oracle) offered_abc
                    example_bucket 2 1) (take 96 (observed r)) "" (drop 97 (observed r))).
    vm_compute. reflexivity.
  - apply (proj1 (proj2 (restart_never_abandons_claim (on_cloud scripted_oracle)
                           updated_script example_bucket 2 1))).
    vm_compute. reflexivity.
Defined.

(** ** The Gerrit change *)

(** C5 fails on the code: work is offered for "abc", the checkout of "abc"
    fails and the repository is at "def".  The tester runs no command,
    writes [TESTING_COMPLETE] = "abc" and deletes [READY_FOR_TESTING], but
    the status "0" is stored for "def"; no status is stored for "abc". *)
Theorem gerrit_change_status_stored_for_head :
  let r := exec (on_cloud scripted_oracle)
             (run_continuously_iteration example_bucket 1 "") gerrit_change in
  outcome_of r = Returned false
  ∧ forallb (λ x : obs, bool_decide (projT1 x ≠ Poll)) (observed r) = true
  ∧ gs (world_of r) !! get_magic_file_gs_path example_bucket TESTING_COMPLETE = Some "abc"
  ∧ gs (world_of r) !! get_magic_file_gs_path example_bucket READY_FOR_TESTING = None
  ∧ gs (world_of r) !! ("gs://" +:+ get_sha_destination example_bucket "def" +:+ "/status")
    = Some "0"
  ∧ gs (world_of r) !! ("gs://" +:+ get_sha_destination example_bucket "abc" +:+ "/status")
    = None.
Proof. intros r. repeat split; vm_compute; reflexivity. Qed.

(** The bot that offered "abc" then finds [TESTING_COMPLETE] = "abc", fails
    to read the status of "abc" and ends with an exception. *)
Lemma gerrit_change_fails_the_bot :
  let r := exec (with_tester example_bucket 1 "")
             (script example_bucket bot_options 3 0) gerrit_handoff in
  outcome_of r = Raised CalledProcessError
  ∧ last (observed r)
    = Some (existT (Cat ("gs://" +:+ get_sha_destination example_bucket "abc" +:+ "/status"))
              None).
Proof. intros r. split; vm_compute; reflexivity. Qed.

(** ** One party alone on the store *)

Lemma wpc_mono {A} (p : prog A) st (I I' : event → gmap string string → Prop)
    (Q Q' : outcome A → gmap string string → Prop) :
  (∀ e st', I e st' → I' e st') → (∀ o st', Q o st' → Q' o st') →
  wpc p st I Q → wpc p st I' Q'.
Proof.
  intros HI HQ. revert st.
  induction p as [a|e k IH|x|c| |]; simpl; intros st Hp; auto.
  destruct Hp as [He Hk]. split; [auto|].
  destruct (gs_step st e) as [[y st']|]; auto.
Qed.

Lemma wpc_bind {A B} (p : prog A) (f : A → prog B) st I Q :
  wpc p st I (bind_postc f I Q) → wpc (p ≫= f) st I Q.
Proof.
  rewrite bind_unfold. revert st.
  induction p as [a|e k IH|x|c| |]; simpl; intros st Hp; auto.
  destruct Hp as [He Hk]. split; [auto|].
  destruct (gs_step st e) as [[y st']|]; auto.
Qed.

Lemma replay_cons st (o : obs) tr :
  replay st (o :: tr)
  = replay (match gs_step st (projT1 o) with Some (_, st') => st' | None => st end) tr.
Proof. done. Qed.

Lemma wpc_exec {S A} (oracle : ∀ e : event, S → ans e * S) (p : prog A)
    (w : cloud S) I Q :
  wpc p (gs w) I Q →
  (∀ pre (o : obs) post,
     observed (exec (on_cloud oracle) p w) = pre ++ o :: post →
     I (projT1 o) (replay (gs w) pre))
  ∧ Q (outcome_of (exec (on_cloud oracle) p w)) (gs (world_of (exec (on_cloud oracle) p w))).
Proof.
  revert w. induction p as [a|e k IH|x|c| |]; simpl; intros w Hp.
  2: { destruct Hp as [He Hk].
       assert (wpc (k (on_cloud oracle e w).1) (gs (on_cloud oracle e w).2) I Q
               ∧ gs (on_cloud oracle e w).2
                 = match gs_step (gs w) e with Some (_, st') => st' | None => gs w end)
         as [Hk' Hgs].
       { unfold on_cloud. destruct (gs_step (gs w) e) as [[y st']|]; [done|].
         destruct (oracle e (env w)) as [y s']. by split; [apply Hk|]. }
       destruct (IH _ _ Hk') as [Htr HQ]. split; [|done].
       intros [|z pre] o post Heq; simpl in Heq; apply cons_eq_inv in Heq as [<- Heq].
       - done.
       - rewrite replay_cons. simpl. rewrite <-Hgs. by eapply Htr. }
  all: split; [by intros [|? ?]|done].
Qed.

Lemma wpc_checks {A} (p : prog A) st (I : event → gmap string string → Prop) :
  performs is_check p → (∀ e st', is_check e → I e st') →
  wpc p st I (λ _ st', st' = st).
Proof.
  intros Hp HI. induction p as [a|e k IH|x|c| |]; simpl; try done.
  destruct Hp as [He Hk]. split; [auto|].
  destruct e; simpl in *; try done; auto.
Qed.

Lemma wpc_performs {A} (P : event → Prop) (p : prog A) st
    (I : event → gmap string string → Prop) :
  performs P p → (∀ e st', P e → I e st') → wpc p st I (λ _ _, True).
Proof.
  intros Hp HI. revert st. induction p as [a|e k IH|x|c| |]; simpl; try done.
  destruct Hp as [He Hk]. intros st. split; [auto|].
  destruct (gs_step st e) as [[y st']|]; auto.
Qed.

Lemma replay_checks st (tr : list obs) :
  Forall (λ x : obs, is_check (projT1 x)) tr → replay st tr = st.
Proof.
  induction 1 as [|[e x] tr He _ IH]; [done|].
  rewrite replay_cons. by destruct e.
Qed.

Lemma magic_present_nil bucket st :
  magic_present bucket st = [] ↔
  ∀ name, name ∈ ALL_MAGIC → st !! get_magic_file_gs_path bucket name = None.
Proof.
  unfold magic_present. split.
  - intros Hnil name Hin.
    destruct (st !! get_magic_file_gs_path bucket name) eqn:Hst; [|done].
    assert (name ∈ filter (λ name, is_Some (st !! get_magic_file_gs_path bucket name)) ALL_MAGIC)
      as Hel by (apply list_elem_of_filter; split; [by rewrite Hst|done]).
    rewrite Hnil in Hel. by apply elem_of_nil in Hel.
  - intros Hnone. induction ALL_MAGIC as [|name l IH]; [done|].
    rewrite filter_cons, decide_False.
    + apply IH. intros name' Hin. apply Hnone. by right.
    + rewrite (Hnone name); [by intros [? ?]|by left].
Qed.

(** The clean-up loop of [run_bot] leaves none of the files it goes through
    and adds nothing to the store. *)
Lemma run_bot_cleanup bucket (l : list string) st (I : event → gmap string string → Prop) :
  (∀ e st', (∀ path content, e ≠ Upload path content) → I e st') →
  wpc (for_each l (λ magic,
         ex ← get_magic_file_exists bucket magic;
         if ex : bool then delete_magic_file bucket magic else Ret tt)) st I
    (λ _ st', (∀ name, name ∈ l → st' !! get_magic_file_gs_path bucket name = None)
              ∧ ∀ path, st !! path = None → st' !! path = None).
Proof.
  intros HI. revert st. induction l as [|magic l IH]; intros st.
  { cbn. split; [by intros ? ?%elem_of_nil|done]. }
  cbn [for_each]. apply wpc_bind. cbn. split; [by apply HI|].
  destruct (bool_decide _) eqn:Hex; cbn.
  - split; [by apply HI|]. eapply wpc_mono; [done| |apply IH].
    cbn. intros o st' [Hl Hmono]. split.
    + intros name [->|Hin]%elem_of_cons; [|by apply Hl].
      apply Hmono, lookup_delete_eq.
    + intros path Hpath. apply Hmono. rewrite lookup_delete. by destruct (decide _).
  - eapply wpc_mono; [done| |apply IH].
    cbn. intros o st' [Hl Hmono]. split; [|done].
    intros name [->|Hin]%elem_of_cons; [|by apply Hl].
    apply Hmono. apply bool_decide_eq_false in Hex.
    by apply eq_None_not_Some.
Qed.

Lemma run_bot_wait_no_upload bucket fuel git_hash begin :
  performs (λ e, ∀ path content, e ≠ Upload path content)
    (run_bot_wait bucket fuel git_hash begin).
Proof.
  induction fuel as [|fuel IH]; cbn; [done|].
  split; [done|]. intros now. destruct (decide _); cbn; [done|].
  split; [done|]. intros [|]; cbn.
  - split; [done|]. intros [content|]; cbn; [|done]. destruct (decide _); cbn; [done|].
    split; [done|]. by intros [?|].
  - apply performs_bind.
    + eapply performs_impl; [|apply print_magic_file_state_reads]. by intros [].
    + intros _. cbn. split; [done|]. intros _. apply IH.
Qed.

(** When [run_bot] writes [READY_FOR_TESTING], no magic file exists. *)
Lemma run_bot_offers_on_clean_store bucket fuel st :
  wpc (run_bot bucket fuel) st
    (λ e st', ∀ git_hash,
       e = Upload (get_magic_file_gs_path bucket READY_FOR_TESTING) git_hash →
       magic_present bucket st' = [])
    (λ _ _, True).
Proof.
  set (I := λ (e : event) (st' : gmap string string), ∀ git_hash,
         e = Upload (get_magic_file_gs_path bucket READY_FOR_TESTING) git_hash →
         magic_present bucket st' = []).
  assert (∀ e st', (∀ path content, e ≠ Upload path content) → I e st') as HI.
  { intros e st' He git_hash ->. by destruct (He _ _ eq_refl). }
  assert (∀ e st', is_check e → I e st') as HI'.
  { intros e st' He. apply HI. intros path content ->. done. }
  unfold run_bot.
  apply wpc_bind. eapply wpc_mono; [done| |
    apply wpc_checks; [apply print_magic_file_state_checks|done]].
  intros [[]| | | |] ? ->; try done. cbn [bind_postc].
  apply wpc_bind. eapply wpc_mono; [done| |apply run_bot_cleanup, HI].
  intros [[]| | | |] st1 [Hnone _]; try done. cbn [bind_postc].
  apply wpc_bind. eapply wpc_mono; [done| |
    apply wpc_checks; [apply print_magic_file_state_checks|done]].
  intros [[]| | | |] ? ->; try done. cbn [bind_postc].
  cbn. split; [by apply HI'|].
  rewrite bool_decide_eq_false_2; cbn.
  2: { rewrite (Hnone READY_FOR_TESTING); [by intros [? ?]|].
       unfold ALL_MAGIC. set_solver. }
  split; [by apply HI'|]. intros git_hash. split.
  { intros git_hash' _. by apply magic_present_nil. }
  split; [by apply HI|]. intros begin.
  unfold run_bot_collect.
  apply wpc_bind. eapply wpc_mono; [done| |
    eapply wpc_performs; [apply (run_bot_wait_no_upload bucket)|apply HI]].
  intros [[]| | | |] st2 _; try done. cbn.
  split; [by apply HI|]. intros _. unfold get_status. cbn.
  split; [by apply HI|]. destruct (st2 !! _); cbn; [|done].
  split; [by apply HI|]. destruct (decide _); cbn; [|done].
  repeat (split; [by apply HI|]; intros _). done.
Qed.

Lemma wpc_no_magic_write {A} bucket name (p : prog A) st
    (I : event → gmap string string → Prop) :
  name ∈ ALL_MAGIC →
  performs (no_magic_write bucket) p →
  (∀ e st', no_magic_write bucket e → I e st') →
  st !! get_magic_file_gs_path bucket name = None →
  wpc p st I (λ _ st', st' !! get_magic_file_gs_path bucket name = None).
Proof.
  intros Hin Hp HI. revert st. induction p as [a|e k IH|x|c| |]; simpl; try done.
  destruct Hp as [He Hk]. intros st Hst. split; [auto|].
  destruct e; simpl in *; auto.
  - apply IH; [done|]. rewrite lookup_delete_ne; [done|]. by apply He.
  - apply IH; [done|]. rewrite lookup_insert_ne; [done|]. by apply He.
Qed.

(** A pass of the tester that finds no work offered changes nothing. *)
Lemma run_continuously_iteration_idle bucket cmd_fuel own_content st :
  st !! get_magic_file_gs_path bucket READY_FOR_TESTING = None →
  wpc (run_continuously_iteration bucket cmd_fuel own_content) st
    (λ e _, is_check e) (λ _ st', st' = st).
Proof.
  intros Hst. unfold run_continuously_iteration.
  apply wpc_bind. eapply (wpc_mono _ _ (λ e _, is_check e) (λ e _, is_check e)); [done| |
    apply wpc_checks; [apply restart_if_new_version_checks|done]].
  intros [[]| | | |] ? ->; try done. cbn [bind_postc].
  apply wpc_bind. eapply (wpc_mono _ _ (λ e _, is_check e) (λ e _, is_check e)); [done| |
    apply wpc_checks; [apply print_magic_file_state_checks|done]].
  intros [[]| | | |] ? ->; try done. cbn [bind_postc].
  cbn. split; [done|]. rewrite bool_decide_eq_false_2; [done|].
  rewrite Hst. by intros [? ?].
Qed.

Lemma run_continuously_loop_idle bucket fuel cmd_fuel own_content st :
  st !! get_magic_file_gs_path bucket READY_FOR_TESTING = None →
  wpc (run_continuously_loop bucket fuel cmd_fuel own_content) st
    (λ e _, ∀ path content, e ≠ Upload path content) (λ _ _, True).
Proof.
  intros Hst. induction fuel as [|fuel IH]; cbn [run_continuously_loop]; [done|].
  apply wpc_bind.
  eapply (wpc_mono _ _ (λ e _, is_check e)); [| |by apply run_continuously_iteration_idle].
  { by intros [] ? ?. }
  intros [sleep| | | |] ? ->; try done. cbn [bind_postc].
  destruct sleep; cbn; [|done]. split; [done|]. by intros _.
Qed.

Lemma git_checkout_performs_checks git_hash : performs is_check (git_checkout git_hash).
Proof.
  unfold git_checkout, git_pull, ensure_git_clean, subprocess.check_output,
    subprocess.check_call, subprocess.call, utils.get_HEAD_sha1. cbn.
  split; [done|]. intros [diff|]; cbn; [|done]. destruct (decide _); cbn; [done|].
  split; [done|]. intros [diff'|]; cbn; [|done]. destruct (decide _); cbn; [done|].
  split; [done|]. intros rc1. destruct (decide _); cbn; [|done].
  split; [done|]. intros rc2. destruct (decide _); cbn; [|done].
  split; [done|]. intros sha0. split; [done|]. intros rc.
  destruct (decide (rc ≠ 0)); cbn; [done|]. split; [done|]. by intros sha.
Qed.

(** Up to its write of [TESTING], a pass leaves the store as it found it;
    a pass that has changed the store has deleted [READY_FOR_TESTING]. *)
Lemma run_continuously_iteration_claims_on_found_store bucket cmd_fuel own_content st :
  wpc (run_continuously_iteration bucket cmd_fuel own_content) st
    (λ e st', ∀ git_hash,
       e = Upload (get_magic_file_gs_path bucket TESTING) git_hash → st' = st)
    (λ _ st', st' = st ∨ st' !! get_magic_file_gs_path bucket READY_FOR_TESTING = None).
Proof.
  set (I := λ (e : event) (st' : gmap string string), ∀ git_hash,
         e = Upload (get_magic_file_gs_path bucket TESTING) git_hash → st' = st).
  assert (∀ e st', (∀ git_hash, e ≠ Upload (get_magic_file_gs_path bucket TESTING) git_hash) →
            I e st') as HI.
  { intros e st' He git_hash ->. by destruct (He _ eq_refl). }
  assert (∀ e st', is_check e → I e st') as HI'.
  { intros e st' He. apply HI. by intros git_hash ->. }
  assert (READY_FOR_TESTING ∈ ALL_MAGIC ∧ TESTING ∈ ALL_MAGIC) as [Hready Htesting]
    by (unfold ALL_MAGIC; set_solver).
  assert (∀ path content git_hash,
            (path = get_magic_file_gs_path bucket TESTING → False) →
            Upload path content ≠ Upload (get_magic_file_gs_path bucket TESTING) git_hash)
    as Hup.
  { intros path content git_hash Hpath Heq. apply Hpath. congruence. }
  unfold run_continuously_iteration.
  apply wpc_bind. eapply (wpc_mono _ _ I I); [done| |
    apply wpc_checks; [apply restart_if_new_version_checks|done]].
  intros [[]| | | |] ? ->; try (by left). cbn [bind_postc].
  apply wpc_bind. eapply (wpc_mono _ _ I I); [done| |
    apply wpc_checks; [apply print_magic_file_state_checks|done]].
  intros [[]| | | |] ? ->; try (by left). cbn [bind_postc].
  cbn. split; [by apply HI'|].
  destruct (bool_decide _); cbn; [|by left].
  split; [by apply HI'|]. destruct (st !! _) as [git_hash|]; cbn; [|by left].
  apply wpc_bind. eapply (wpc_mono _ _ I I); [done| |
    apply wpc_checks; [apply git_checkout_performs_checks|done]].
  intros [checked_out| | | |] ? ->; try (by left). cbn [bind_postc].
  destruct (not_checked_out checked_out).
  - (* Gerrit change *)
    unfold archive_status, put_magic_file, delete_magic_file. cbn.
    split; [by apply HI'|]. intros sha. split.
    { apply HI. intros ?. apply Hup. intros Heq. symmetry in Heq.
      by apply (magic_not_status bucket TESTING sha). }
    split.
    { apply HI. intros ?. apply Hup. intros Heq.
      change (get_magic_file_base_path bucket +:+ "/" +:+ TESTING_COMPLETE)
        with (get_magic_file_gs_path bucket TESTING_COMPLETE) in Heq.
      by apply magic_path_inj in Heq. }
    split; [by apply HI|]. right. apply lookup_delete_eq.
  - unfold restart_if_new_version. cbn. split; [by apply HI'|]. intros own.
    destruct (decide _); cbn; [by left|].
    destruct (decide _); cbn; [by left|].
    unfold put_magic_file, delete_magic_file. cbn.
    split; [by intros ? _|]. split; [by apply HI|].
    unfold run_once. apply wpc_bind.
    eapply (wpc_mono _ _ I I); [done| |
      apply (wpc_no_magic_write bucket READY_FOR_TESTING); [done|
        apply run_once_on_no_magic_write| |apply lookup_delete_eq]].
    2: { intros e st' He. apply HI. intros git_hash' ->. by apply (He TESTING). }
    intros [v| | | |] st' Hst'; try (by right). cbn [bind_postc]. cbn.
    split.
    { apply HI. intros ?. apply Hup. intros Heq.
      change (get_magic_file_base_path bucket +:+ "/" +:+ TESTING_COMPLETE)
        with (get_magic_file_gs_path bucket TESTING_COMPLETE) in Heq.
      by apply magic_path_inj in Heq. }
    split; [by apply HI|]. right.
    rewrite lookup_delete_ne, lookup_insert_ne; [done|..].
    + change (get_magic_file_base_path bucket +:+ "/" +:+ TESTING_COMPLETE)
        with (get_magic_file_gs_path bucket TESTING_COMPLETE).
      intros Heq. by apply magic_path_inj in Heq.
    + intros Heq. by apply magic_path_inj in Heq.
Qed.

Lemma run_continuously_claims_on_found_store bucket fuel cmd_fuel st :
  wpc (run_continuously bucket fuel cmd_fuel) st
    (λ e st', ∀ git_hash,
       e = Upload (get_magic_file_gs_path bucket TESTING) git_hash → st' = st)
    (λ _ _, True).
Proof.
  set (I := λ (e : event) (st' : gmap string string), ∀ git_hash,
         e = Upload (get_magic_file_gs_path bucket TESTING) git_hash → st' = st).
  unfold run_continuously, get_own_file_content. cbn. split; [done|]. intros own_content.
  induction fuel as [|fuel IH]; cbn [run_continuously_loop]; [done|].
  apply wpc_bind.
  eapply (wpc_mono _ _ I I); [done| |apply run_continuously_iteration_claims_on_found_store].
  intros [sleep| | | |] st' Hst'; try done. cbn [bind_postc].
  assert (wpc (run_continuously_loop bucket fuel cmd_fuel own_content) st' I (λ _ _, True))
    as Hloop.
  { destruct Hst' as [->|Hst']; [done|].
    eapply wpc_mono; [| |by apply run_continuously_loop_idle]; [|done].
    intros e st'' He git_hash ->. by destruct (He _ _ eq_refl). }
  destruct sleep; cbn; [|done]. split; [done|]. by intros _.
Qed.


(** ** Strings *)

Lemma string_app_cons (x : ascii) (a b : string) : String x a +:+ b = String x (a +:+ b).
Proof. done. Qed.

Lemma string_app_nil_l (b : string) : "" +:+ b = b.
Proof. done. Qed.

Ltac sapp := cbn; rewrite ?string_app_cons, ?string_app_nil_l; cbn.

Lemma string_app_assoc (a b c : string) : (a +:+ b) +:+ c = a +:+ (b +:+ c).
Proof. induction a as [|x a IH]; [done|]. sapp. by rewrite IH. Qed.

Lemma string_app_nil_r (a : string) : a +:+ "" = a.
Proof. induction a as [|x a IH]; [done|]. sapp. by rewrite IH. Qed.

Lemma string_app_length (a b : string) :
  String.length (a +:+ b) = (String.length a + String.length b)%nat.
Proof. induction a as [|x a IH]; [done|]. sapp. by rewrite IH. Qed.

Lemma startswith_app (p s : string) : Py.startswith (p +:+ s) p = true.
Proof.
  induction p as [|x p IH]; [by destruct s|]. sapp. by rewrite bool_decide_eq_true_2, IH.
Qed.

Lemma startswith_inv (s p : string) : Py.startswith s p = true → ∃ r, s = p +:+ r.
Proof.
  revert s. induction p as [|x p IH]; intros s Hs.
  { by exists s. }
  destruct s as [|y s]; [done|]. rewrite ?string_app_cons in Hs; cbn in Hs.
  apply andb_true_iff in Hs as [Hxy Hs]. apply bool_decide_eq_true in Hxy as ->.
  destruct (IH _ Hs) as [r ->]. by exists r.
Qed.

Lemma drop_string_app (a b : string) : drop_string (String.length a) (a +:+ b) = b.
Proof. induction a as [|x a IH]; [by destruct b|]. apply IH. Qed.

Lemma rev_app_app (a b acc : string) :
  String.rev_app (a +:+ b) acc = String.rev_app b (String.rev_app a acc).
Proof. revert acc. induction a as [|x a IH]; intros acc; [done|]. apply IH. Qed.

Lemma rev_app_acc (a acc : string) : String.rev_app a acc = String.rev a +:+ acc.
Proof.
  unfold String.rev. revert acc. induction a as [|x a IH]; intros acc; [done|].
  sapp. rewrite IH, (IH (String x "")). by rewrite string_app_assoc.
Qed.

Lemma rev_string_app (a b : string) : String.rev (a +:+ b) = String.rev b +:+ String.rev a.
Proof. unfold String.rev at 1. by rewrite rev_app_app, rev_app_acc. Qed.

Lemma endswith_app (a b : string) : Py.endswith (a +:+ b) b = true.
Proof. unfold Py.endswith. rewrite rev_string_app. apply startswith_app. Qed.

Lemma endswith_slash (a p : string) (c : ascii) :
  c ≠ "/"%char → Py.endswith (a +:+ "/") (p +:+ String c "") = false.
Proof.
  intros Hc. unfold Py.endswith. rewrite !rev_string_app. sapp.
  by rewrite bool_decide_eq_false_2.
Qed.

Lemma all_chars_app P (a b : string) :
  all_chars P (a +:+ b) = all_chars P a && all_chars P b.
Proof. induction a as [|x a IH]; [done|]. sapp. by rewrite IH, andb_assoc. Qed.

Lemma all_chars_impl (P P' : ascii → bool) (s : string) :
  (∀ c, P c = true → P' c = true) → all_chars P s = true → all_chars P' s = true.
Proof.
  intros HP. induction s as [|x s IH]; [done|]. sapp.
  intros [Hx Hs]%andb_true_iff. by rewrite (HP _ Hx), IH.
Qed.

Lemma first_segment_app (a b : string) :
  all_chars (λ c, negb (bool_decide (c = "/"%char))) a = true →
  first_segment (a +:+ String "/"%char b) = a +:+ "/".
Proof.
  induction a as [|x a IH]; [done|]. sapp. intros [Hx Ha]%andb_true_iff.
  apply negb_true_iff, bool_decide_eq_false in Hx.
  by rewrite decide_False, IH.
Qed.

Lemma first_segment_whole (a : string) :
  all_chars (λ c, negb (bool_decide (c = "/"%char))) a = true → first_segment a = a.
Proof.
  induction a as [|x a IH]; [done|]. sapp. intros [Hx Ha]%andb_true_iff.
  apply negb_true_iff, bool_decide_eq_false in Hx.
  by rewrite decide_False, IH.
Qed.

Lemma lstrip_id (a b : string) : a ≠ "" → Py.lstrip a = a → Py.lstrip (a +:+ b) = a +:+ b.
Proof.
  destruct a as [|x a]; [done|]. intros _. sapp.
  destruct (Ascii.is_space x) eqn:Hx; [|done].
  intros Heq. exfalso.
  assert (∀ s, String.length (Py.lstrip s) ≤ String.length s)%nat as Hlen.
  { induction s as [|y s IH]; [done|]. sapp. destruct (Ascii.is_space y); cbn; lia. }
  specialize (Hlen a). rewrite Heq in Hlen. cbn in Hlen. lia.
Qed.

Lemma rstrip_app (a b : string) :
  Py.rstrip b ≠ "" → Py.rstrip (a +:+ b) = a +:+ Py.rstrip b.
Proof.
  intros Hb. induction a as [|x a IH]; [done|]. sapp. rewrite IH.
  destruct (a +:+ Py.rstrip b) eqn:Heq; [|done].
  destruct a; [|done]. rewrite ?string_app_cons, ?string_app_nil_l in Heq; cbn in Heq. done.
Qed.

Lemma rstrip_empty_tail (a : string) :
  Py.rstrip a = a → a ≠ "" → Py.rstrip (a +:+ nl) = a.
Proof.
  intros Ha Hne. induction a as [|x a IH]; [done|]. rewrite ?string_app_cons, ?string_app_nil_l in *; cbn in *.
  destruct a as [|y a].
  - rewrite ?string_app_cons, ?string_app_nil_l in *; cbn in *. by destruct (Ascii.is_space x).
  - assert (Py.rstrip (String y a) = String y a ∧ Py.rstrip (String y a) ≠ "") as [Hya Hne'].
    { destruct (Py.rstrip (String y a)) eqn:Hr.
      - destruct (Ascii.is_space x); discriminate.
      - split; [congruence|done]. }
    rewrite (IH Hya) by done. done.
Qed.

Lemma split_no_sep sep (a : string) :
  all_chars (λ c, negb (bool_decide (c = sep))) a = true → Py.split sep a = [a].
Proof.
  induction a as [|x a IH]; [done|]. sapp. intros [Hx Ha]%andb_true_iff.
  apply negb_true_iff, bool_decide_eq_false in Hx.
  by rewrite decide_False, IH.
Qed.

Lemma split_app sep (a b : string) :
  all_chars (λ c, negb (bool_decide (c = sep))) a = true →
  Py.split sep (a +:+ String sep b) = a :: Py.split sep b.
Proof.
  induction a as [|x a IH]; sapp.
  - intros _. by rewrite decide_True.
  - intros [Hx Ha]%andb_true_iff.
    apply negb_true_iff, bool_decide_eq_false in Hx.
    by rewrite decide_False, IH.
Qed.

Lemma join_nl_nonempty (e : string) (l : list string) : e ≠ "" → Py.join nl (e :: l) ≠ "".
Proof. destruct e; [done|]. by destruct l. Qed.

Lemma rstrip_listing (l : list string) :
  l ≠ [] →
  Forall (λ e, e ≠ "" ∧ Py.rstrip e = e) l →
  Py.rstrip (foldr (λ entry out, entry +:+ nl +:+ out) "" l) = Py.join nl l.
Proof.
  intros Hne Hl. induction Hl as [|e l [He Hr] Hl IH]; [done|]. clear Hne.
  destruct l as [|e' l].
  - cbn. rewrite <-(string_app_assoc e nl ""), string_app_nil_r.
    by apply rstrip_empty_tail.
  - specialize (IH ltac:(done)).
    apply Forall_cons in Hl as [[He' _] _].
    change (foldr _ "" (e :: e' :: l))
      with (e +:+ (nl +:+ foldr (λ entry out, entry +:+ nl +:+ out) "" (e' :: l))).
    assert (Py.rstrip (nl +:+ foldr (λ entry out, entry +:+ nl +:+ out) "" (e' :: l))
            = nl +:+ Py.join nl (e' :: l)) as Hnl.
    { rewrite rstrip_app; rewrite IH; [done|by apply join_nl_nonempty]. }
    rewrite rstrip_app; rewrite Hnl; [done|]. done.
Qed.

Lemma split_join_nl (l : list string) :
  l ≠ [] →
  Forall (λ e, all_chars (λ c, negb (bool_decide (c = "010"%char))) e = true) l →
  Py.split "010" (Py.join nl l) = l.
Proof.
  intros Hne Hl. induction Hl as [|e l He Hl IH]; [done|]. clear Hne.
  destruct l as [|e' l].
  - by apply split_no_sep.
  - change (Py.join nl (e :: e' :: l)) with (e +:+ String "010" (Py.join nl (e' :: l))).
    rewrite split_app by done. by rewrite IH.
Qed.

(** The lines of a listing, as [fetch_and_print_logs] splits them. *)
Lemma parse_listing (l : list string) :
  l ≠ [] →
  Forall (λ e, e ≠ "" ∧ Py.lstrip e = e ∧ Py.rstrip e = e
               ∧ all_chars (λ c, negb (bool_decide (c = "010"%char))) e = true) l →
  Py.split "010" (Py.strip (foldr (λ entry out, entry +:+ nl +:+ out) "" l)) = l.
Proof.
  intros Hne Hl. unfold Py.strip.
  assert (Py.lstrip (foldr (λ entry out, entry +:+ nl +:+ out) "" l)
          = foldr (λ entry out, entry +:+ nl +:+ out) "" l) as ->.
  { destruct Hl as [|e l (He & Hls & _) _]; [done|]. cbn [foldr]. by apply lstrip_id. }
  rewrite rstrip_listing; [|done|].
  - apply split_join_nl; [done|]. eapply Forall_impl; [done|]. by intros ? (? & ? & ? & ?).
  - eapply Forall_impl; [done|]. by intros ? (? & ? & ? & ?).
Qed.

(** ** Runs on the store, with their events *)

Lemma wpt_mono {A} (p : prog A) st (Q Q' : list obs → outcome A → gmap string string → Prop) :
  (∀ tr o st', Q tr o st' → Q' tr o st') → wpt p st Q → wpt p st Q'.
Proof.
  revert st Q Q'. induction p as [a|e k IH|x|c| |]; simpl; intros st Q Q' HQ Hp; auto.
  destruct (gs_step st e) as [[y st']|].
  - eapply IH; [|done]. simpl. auto.
  - intros y. eapply IH; [|apply Hp]. simpl. auto.
Qed.

Lemma wpt_bind {A B} (p : prog A) (f : A → prog B) st Q :
  wpt p st (bind_postt f Q) → wpt (p ≫= f) st Q.
Proof.
  rewrite bind_unfold. revert st Q.
  induction p as [a|e k IH|x|c| |]; simpl; intros st Q Hp; auto.
  destruct (gs_step st e) as [[y st']|]; auto.
Qed.

Lemma wpt_exec {S A} (oracle : ∀ e : event, S → ans e * S) (p : prog A)
    (w : cloud S) Q :
  wpt p (gs w) Q →
  Q (observed (exec (on_cloud oracle) p w)) (outcome_of (exec (on_cloud oracle) p w))
    (gs (world_of (exec (on_cloud oracle) p w))).
Proof.
  revert w Q. induction p as [a|e k IH|x|c| |]; simpl; intros w Q Hp; auto.
  apply (IH _ _ (λ tr, Q (existT e (on_cloud oracle e w).1 :: tr))).
  unfold on_cloud. destruct (gs_step (gs w) e) as [[y st']|]; [done|].
  destruct (oracle e (env w)) as [y s']. apply Hp.
Qed.

(** ** Archived logs *)

Lemma rev_involutive (s : string) : String.rev (String.rev s) = s.
Proof.
  induction s as [|x s IH]; [done|].
  change (String x s) with (String x "" +:+ s) at 1.
  rewrite rev_string_app, rev_string_app. cbn. by rewrite IH.
Qed.

Lemma endswith_inv (s p : string) : Py.endswith s p = true → ∃ a, s = a +:+ p.
Proof.
  unfold Py.endswith. intros [r Hr]%startswith_inv.
  exists (String.rev r). rewrite <-(rev_involutive s), Hr, rev_string_app.
  by rewrite rev_involutive.
Qed.

Lemma endswith_slash_app (a b : string) :
  b ≠ "" → Py.endswith (a +:+ b) "/" = Py.endswith b "/".
Proof.
  intros Hb. unfold Py.endswith. rewrite rev_string_app.
  destruct (String.rev b) as [|x r] eqn:Hrev.
  - apply (f_equal String.rev) in Hrev. rewrite rev_involutive in Hrev. done.
  - rewrite string_app_cons. cbn. by destruct (r +:+ String.rev a), r.
Qed.

Lemma plain_no_slash (s : string) :
  plain s = true → all_chars (λ c, negb (bool_decide (c = "/"%char))) s = true.
Proof.
  intros [_ Hs]%andb_true_iff. eapply all_chars_impl; [|done].
  by intros c [? _]%andb_true_iff.
Qed.

Lemma plain_no_newline (s : string) :
  plain s = true → all_chars (λ c, negb (bool_decide (c = "010"%char))) s = true.
Proof.
  intros [_ Hs]%andb_true_iff. eapply all_chars_impl; [|done].
  intros c [_ Hc]%andb_true_iff. apply negb_true_iff in Hc. apply negb_true_iff.
  apply bool_decide_eq_false. by intros ->.
Qed.

Lemma plain_nonempty (s : string) : plain s = true → s ≠ "".
Proof. intros [Hs _]%andb_true_iff. by apply negb_true_iff, bool_decide_eq_false in Hs. Qed.

Lemma plain_not_endswith_slash (s : string) : plain s = true → Py.endswith s "/" = false.
Proof.
  intros Hs. destruct (Py.endswith s "/") eqn:He; [|done].
  apply endswith_inv in He as [a ->]. apply plain_no_slash in Hs.
  rewrite all_chars_app in Hs. by apply andb_true_iff in Hs as [_ Hs].
Qed.

Lemma plain_not_startswith_slash (s : string) : plain s = true → Py.startswith s "/" = false.
Proof.
  intros Hs. destruct (Py.startswith s "/") eqn:He; [|done].
  apply startswith_inv in He as [a ->]. by apply plain_no_slash in Hs.
Qed.

Lemma os_path_join_plain (a b : string) :
  a ≠ "" → Py.endswith a "/" = false → plain b = true →
  Py.os_path_join a b = a +:+ "/" +:+ b.
Proof.
  intros Ha Hend Hb. unfold Py.os_path_join.
  rewrite plain_not_startswith_slash, Hend by done.
  by rewrite bool_decide_eq_false_2.
Qed.

Lemma string_app_nonempty (a b : string) : b ≠ "" → a +:+ b ≠ "".
Proof. intros Hb. destruct a; [done|]. done. Qed.

(** The directory of an identifier. *)
Lemma get_sha_destination_plain bucket sha :
  plain sha = true →
  all_chars (λ c, negb (bool_decide (c = "010"%char))) bucket = true →
  ∃ dir, get_sha_destination bucket sha = dir +:+ "/" +:+ sha
         ∧ all_chars (λ c, negb (bool_decide (c = "010"%char))) dir = true.
Proof.
  intros Hsha Hbucket. unfold get_sha_destination.
  assert (∃ prefix, get_test_result_dir bucket = prefix +:+ "internal"
                    ∧ all_chars (λ c, negb (bool_decide (c = "010"%char))) prefix = true)
    as (prefix & Hdir & Hprefix).
  { unfold get_test_result_dir, Py.os_path_join, TEST_RESULT_DIR. cbn [Py.startswith].
    rewrite bool_decide_eq_false_2 by done. cbn [andb].
    destruct (_ || _).
    - by exists bucket.
    - exists (bucket +:+ "/"). split; [by rewrite string_app_assoc|].
      by rewrite all_chars_app, Hbucket. }
  exists (get_test_result_dir bucket). split.
  - apply os_path_join_plain; [| |done].
    + rewrite Hdir. by apply string_app_nonempty.
    + rewrite Hdir. by rewrite endswith_slash_app.
  - rewrite Hdir, all_chars_app, Hprefix. done.
Qed.

Lemma log_key_base bucket sha label field :
  log_key bucket sha label field
  = ("gs://" +:+ get_sha_destination bucket sha +:+ "/") +:+ label +:+ "/" +:+ field.
Proof. unfold log_key. by rewrite !string_app_assoc. Qed.

Lemma log_key_entry bucket sha label field :
  ("gs://" +:+ get_sha_destination bucket sha +:+ "/" +:+ label +:+ "/") +:+ field
  = log_key bucket sha label field.
Proof. unfold log_key. by rewrite !string_app_assoc. Qed.

Lemma log_key_inj bucket sha label field field' :
  log_key bucket sha label field = log_key bucket sha label field' → field = field'.
Proof.
  unfold log_key. intros H.
  by repeat apply (inj (String.app _)) in H.
Qed.

(** The keys under which [archive_log] stores the four fields. *)
Lemma archive_log_key bucket sha label field :
  plain sha = true → plain label = true →
  all_chars (λ c, negb (bool_decide (c = "010"%char))) bucket = true →
  ("gs://" +:+ Py.os_path_join (get_sha_destination bucket sha) label) +:+ "/" +:+ field
  = log_key bucket sha label field.
Proof.
  intros Hsha Hlabel Hbucket.
  destruct (get_sha_destination_plain bucket sha Hsha Hbucket) as (dir & Hdest & _).
  rewrite os_path_join_plain; [|..|done].
  - unfold log_key. by rewrite !string_app_assoc.
  - rewrite Hdest. apply string_app_nonempty. done.
  - rewrite Hdest, <-string_app_assoc, endswith_slash_app by by apply plain_nonempty.
    by apply plain_not_endswith_slash.
Qed.

Lemma archive_log_stores bucket stdout stderr exitcode timed_out cmd st :
  all_chars (λ c, negb (bool_decide (c = "010"%char))) bucket = true →
  plain (Py.replace "/" "_" (Py.replace " " "_" cmd)) = true →
  wpt (archive_log bucket stdout stderr exitcode timed_out cmd) st (λ tr o st',
    ∃ sha out err,
      o = Returned tt
      ∧ tr !! 0%nat = Some (existT HeadSha1 sha)
      ∧ tr !! 3%nat = Some (existT (ReadFile stdout) out)
      ∧ tr !! 5%nat = Some (existT (ReadFile stderr) err)
      ∧ (plain sha = true →
         st' = archived bucket sha (Py.replace "/" "_" (Py.replace " " "_" cmd))
                 exitcode timed_out out err st)).
Proof.
  intros Hbucket Hlabel. unfold archive_log. cbn. intros sha out err.
  exists sha, out, err. repeat (split; [done|]).
  intros Hsha. unfold archived.
  by rewrite !archive_log_key.
Qed.

Lemma ls_entry_log bucket sha label field :
  plain label = true →
  ls_entry ("gs://" +:+ get_sha_destination bucket sha) (log_key bucket sha label field)
  = Some ("gs://" +:+ get_sha_destination bucket sha +:+ "/" +:+ label +:+ "/").
Proof.
  intros Hlabel. unfold ls_entry.
  set (base := "gs://" +:+ get_sha_destination bucket sha).
  assert (log_key bucket sha label field = (base +:+ "/") +:+ (label +:+ String "/"%char field))
    as -> by (unfold log_key, base; by rewrite !string_app_assoc).
  rewrite startswith_app.
  replace (String.length base + 1)%nat with (String.length (base +:+ "/"))
    by (rewrite string_app_length; done).
  rewrite drop_string_app, first_segment_app by by apply plain_no_slash.
  unfold base. by rewrite ?string_app_assoc.
Qed.

Lemma ls_entry_status bucket sha :
  ls_entry ("gs://" +:+ get_sha_destination bucket sha)
    ("gs://" +:+ get_sha_destination bucket sha +:+ "/status")
  = Some ("gs://" +:+ get_sha_destination bucket sha +:+ "/status").
Proof.
  unfold ls_entry.
  set (base := "gs://" +:+ get_sha_destination bucket sha).
  assert ("gs://" +:+ get_sha_destination bucket sha +:+ "/status" = (base +:+ "/") +:+ "status")
    as -> by (unfold base; by rewrite !string_app_assoc).
  rewrite startswith_app.
  replace (String.length base + 1)%nat with (String.length (base +:+ "/"))
    by (rewrite string_app_length; done).
  rewrite drop_string_app. unfold base. by rewrite ?string_app_assoc.
Qed.

Lemma ls_entry_under base key entry :
  ls_entry base key = Some entry → Py.startswith key (base +:+ "/") = true.
Proof. unfold ls_entry. by destruct (Py.startswith _ _). Qed.

(** A line of a listing survives [strip] and [split]: it has no newline
    and no white space at either end. *)
Lemma entry_tight bucket sha (tail : string) :
  plain sha = true →
  all_chars (λ c, negb (bool_decide (c = "010"%char))) bucket = true →
  all_chars (λ c, negb (bool_decide (c = "010"%char))) tail = true →
  Py.rstrip tail = tail → tail ≠ "" →
  let e := "gs://" +:+ get_sha_destination bucket sha +:+ tail in
  e ≠ "" ∧ Py.lstrip e = e ∧ Py.rstrip e = e
  ∧ all_chars (λ c, negb (bool_decide (c = "010"%char))) e = true.
Proof.
  intros Hsha Hbucket Htail Hstrip Hne e.
  destruct (get_sha_destination_plain bucket sha Hsha Hbucket) as (dir & Hdest & Hdir).
  split; [done|]. split; [done|]. split.
  - unfold e. rewrite <-(string_app_assoc "gs://"), rstrip_app; rewrite Hstrip; done.
  - unfold e. rewrite Hdest, !all_chars_app, Hdir, Htail, (plain_no_newline sha Hsha). done.
Qed.

(** The lines of the listing of an identifier whose logs are complete. *)
Lemma gs_ls_complete bucket sha st :
  plain sha = true →
  all_chars (λ c, negb (bool_decide (c = "010"%char))) bucket = true →
  logs_complete bucket sha st →
  ∀ label field,
    plain label = true → field ∈ log_fields →
    is_Some (st !! log_key bucket sha label field) →
    ∃ entries,
      gs_ls st ("gs://" +:+ get_sha_destination bucket sha)
      = Some (foldr (λ entry out, entry +:+ nl +:+ out) "" entries)
      ∧ Py.split "010" (Py.strip (foldr (λ entry out, entry +:+ nl +:+ out) "" entries))
        = entries
      ∧ "gs://" +:+ get_sha_destination bucket sha +:+ "/" +:+ label +:+ "/" ∈ entries
      ∧ Forall (λ entry,
          entry = "gs://" +:+ get_sha_destination bucket sha +:+ "/status"
          ∨ ∃ label',
              plain label' = true
              ∧ entry = "gs://" +:+ get_sha_destination bucket sha +:+ "/" +:+ label' +:+ "/"
              ∧ ∀ field', field' ∈ log_fields →
                          is_Some (st !! log_key bucket sha label' field')) entries.
Proof.
  intros Hsha Hbucket Hcomplete label field Hlabel Hfield Hours.
  set (entries := remove_dups
        (omap (ls_entry ("gs://" +:+ get_sha_destination bucket sha)) (map_to_list st).*1)).
  assert (∀ entry, entry ∈ entries ↔
            ∃ key, is_Some (st !! key)
                   ∧ ls_entry ("gs://" +:+ get_sha_destination bucket sha) key = Some entry)
    as Hentries.
  { intros entry. unfold entries. rewrite elem_of_remove_dups, list_elem_of_omap.
    split.
    - intros (key & Hkey & Hentry). exists key. split; [|done].
      apply list_elem_of_fmap in Hkey as ([key' value] & -> & Hkey).
      apply elem_of_map_to_list in Hkey. by exists value.
    - intros (key & [value Hkey] & Hentry). exists key. split; [|done].
      apply list_elem_of_fmap. exists (key, value). split; [done|].
      by apply elem_of_map_to_list. }
  assert ("gs://" +:+ get_sha_destination bucket sha +:+ "/" +:+ label +:+ "/" ∈ entries)
    as Hin.
  { apply Hentries. exists (log_key bucket sha label field). split; [done|].
    by apply ls_entry_log. }
  assert (entries ≠ []) as Hne.
  { intros Hnil. rewrite Hnil in Hin. by apply elem_of_nil in Hin. }
  assert (Forall (λ entry,
          entry = "gs://" +:+ get_sha_destination bucket sha +:+ "/status"
          ∨ ∃ label',
              plain label' = true
              ∧ entry = "gs://" +:+ get_sha_destination bucket sha +:+ "/" +:+ label' +:+ "/"
              ∧ ∀ field', field' ∈ log_fields →
                          is_Some (st !! log_key bucket sha label' field')) entries)
    as Hall.
  { apply Forall_forall. intros entry (key & Hkey & Hentry)%Hentries.
    destruct (Hcomplete key Hkey (ls_entry_under _ _ _ Hentry))
      as [->|(label' & Hlabel' & Hkey' & Hall)].
    - left. rewrite ls_entry_status in Hentry. by injection Hentry as <-.
    - right. exists label'.
      apply list_elem_of_fmap in Hkey' as (field' & -> & Hfield').
      rewrite ls_entry_log in Hentry by done. injection Hentry as <-. done. }
  exists entries. split; [|split; [|split; [done|done]]].
  - unfold gs_ls. fold entries. by rewrite decide_False.
  - apply parse_listing; [done|]. eapply Forall_impl; [exact Hall|].
    intros entry [->|(label' & Hlabel' & -> & _)].
    + by apply (entry_tight bucket sha "/status").
    + apply (entry_tight bucket sha ("/" +:+ label' +:+ "/")); try done.
      * rewrite !all_chars_app, (plain_no_newline label' Hlabel'). done.
      * rewrite <-string_app_assoc. rewrite rstrip_app; done.
Qed.

(** The inner loop of [fetch_and_print_logs] on a line whose four fields
    are stored. *)
Lemma fetch_fields_complete (entry : string) st :
  (∀ field, field ∈ log_fields → is_Some (st !! (entry +:+ field))) →
  wpt (for_each [EXITCODE; TIMED_OUT; STDERR; STDOUT] (λ to_print,
         value ← utils.cat_file_on_cloud_storage (entry +:+ to_print) false;
         trigger (Print (nl +:+ nl +:+ to_print +:+ " had value:" +:+ nl +:+ value))))
      st
      (λ tr o st', o = Returned tt ∧ st' = st ∧ tr = fetched entry (fields_of st entry)).
Proof.
  intros Hall.
  destruct (Hall EXITCODE) as [v1 H1]; [apply list_elem_of_In; cbv; tauto|].
  destruct (Hall TIMED_OUT) as [v2 H2]; [apply list_elem_of_In; cbv; tauto|].
  destruct (Hall STDERR) as [v3 H3]; [apply list_elem_of_In; cbv; tauto|].
  destruct (Hall STDOUT) as [v4 H4]; [apply list_elem_of_In; cbv; tauto|].
  unfold fields_of, log_fields. cbn [omap list_omap].
  cbn. rewrite H1. cbn. intros []. rewrite H2. cbn. intros []. rewrite H3. cbn. intros [].
  rewrite H4. cbn. intros []. done.
Qed.

Lemma endswith_status_dir (a : string) : Py.endswith (a +:+ "/") "/status" = false.
Proof. by apply (endswith_slash a "/statu" "s"). Qed.

(** The loop of [fetch_and_print_logs] over the lines of a listing. *)
Lemma fetch_entries bucket sha (entries : list string) st :
  Forall (λ entry,
    entry = "gs://" +:+ get_sha_destination bucket sha +:+ "/status"
    ∨ ∃ label,
        plain label = true
        ∧ entry = "gs://" +:+ get_sha_destination bucket sha +:+ "/" +:+ label +:+ "/"
        ∧ ∀ field, field ∈ log_fields → is_Some (st !! log_key bucket sha label field))
    entries →
  wpt (for_each entries (λ entry,
         if negb (Py.endswith entry "/status") then
           for_each [EXITCODE; TIMED_OUT; STDERR; STDOUT] (λ to_print,
             value ← utils.cat_file_on_cloud_storage (entry +:+ to_print) false;
             trigger (Print (nl +:+ nl +:+ to_print +:+ " had value:" +:+ nl +:+ value)))
         else Ret tt))
      st
      (λ tr o st', o = Returned tt ∧ st' = st ∧ tr = flat_map (fetched_entry st) entries).
Proof.
  induction 1 as [|entry entries Hentry _ IH]; [done|].
  cbn [for_each flat_map]. apply wpt_bind. unfold fetched_entry at 1.
  destruct Hentry as [->|(label & Hlabel & -> & Hall)].
  - rewrite <-string_app_assoc, endswith_app. cbn.
    eapply wpt_mono; [|exact IH]. by intros tr o st' (-> & -> & ->).
  - assert (Py.endswith ("gs://" +:+ get_sha_destination bucket sha +:+ "/" +:+ label +:+ "/")
              "/status" = false) as ->
      by (rewrite <-!string_app_assoc; apply endswith_status_dir).
    cbn [negb].
    eapply wpt_mono; [|apply fetch_fields_complete].
    + intros tr o st' (-> & -> & ->). cbn [bind_postt].
      eapply wpt_mono; [|exact IH]. by intros tr o st' (-> & -> & ->).
    + intros field Hfield. rewrite log_key_entry. by apply Hall.
Qed.

(** [fetch_and_print_logs] on a store whose logs for the identifier are
    complete: it returns, leaves the store alone, and reads and prints the
    fields of every label that has logs. *)
Lemma fetch_and_print_logs_reads bucket sha st label field :
  plain sha = true →
  all_chars (λ c, negb (bool_decide (c = "010"%char))) bucket = true →
  logs_complete bucket sha st →
  plain label = true → field ∈ log_fields →
  is_Some (st !! log_key bucket sha label field) →
  wpt (fetch_and_print_logs bucket sha) st (λ tr o st',
    o = Returned Py.None_ ∧ st' = st
    ∧ ∃ pre post,
        tr = pre
             ++ fetched_entry st
                  ("gs://" +:+ get_sha_destination bucket sha +:+ "/" +:+ label +:+ "/")
             ++ post).
Proof.
  intros Hsha Hbucket Hcomplete Hlabel Hfield Hours.
  destruct (gs_ls_complete bucket sha st Hsha Hbucket Hcomplete label field Hlabel Hfield Hours)
    as (entries & Hls & Hparse & Hin & Hall).
  unfold fetch_and_print_logs, utils.ls_files_on_cloud_storage.
  cbn -[for_each]. rewrite Hls. cbn -[for_each]. rewrite Hparse.
  apply wpt_bind. eapply wpt_mono; [|by apply (fetch_entries bucket sha)].
  intros tr o st' (-> & -> & ->). cbn. intros [] [].
  split; [done|]. split; [done|].
  apply list_elem_of_split in Hin as (l1 & l2 & ->).
  rewrite flat_map_app. cbn [flat_map].
  eexists (_ :: _), _. rewrite <-!app_assoc. cbn. reflexivity.
Qed.

Lemma log_key_ne bucket sha label field field' :
  field ≠ field' → log_key bucket sha label field ≠ log_key bucket sha label field'.
Proof. intros Hne Heq. by apply Hne, (log_key_inj bucket sha label). Qed.

Lemma archived_is_Some bucket sha label exitcode timed_out out err st key :
  is_Some (archived bucket sha label exitcode timed_out out err st !! key)
  ↔ key ∈ log_key bucket sha label <$> log_fields ∨ is_Some (st !! key).
Proof.
  unfold archived. rewrite !lookup_insert_is_Some'.
  unfold log_fields. rewrite !fmap_cons, !elem_of_cons, fmap_nil, elem_of_nil.
  intuition congruence.
Qed.

Lemma archived_fields bucket sha label exitcode timed_out out err st :
  fields_of (archived bucket sha label exitcode timed_out out err st)
    ("gs://" +:+ get_sha_destination bucket sha +:+ "/" +:+ label +:+ "/")
  = [(EXITCODE, Py.str (Py.Int exitcode)); (TIMED_OUT, Py.str (Py.Bool timed_out));
     (STDERR, err); (STDOUT, out)].
Proof.
  unfold fields_of, log_fields. cbn [omap list_omap]. rewrite !log_key_entry.
  unfold archived.
  rewrite (lookup_insert_ne _ (log_key bucket sha label STDERR) (log_key bucket sha label EXITCODE))
    by by apply log_key_ne.
  rewrite (lookup_insert_ne _ (log_key bucket sha label STDOUT) (log_key bucket sha label EXITCODE))
    by by apply log_key_ne.
  rewrite (lookup_insert_ne _ (log_key bucket sha label TIMED_OUT) (log_key bucket sha label EXITCODE))
    by by apply log_key_ne.
  rewrite (lookup_insert_eq _ (log_key bucket sha label EXITCODE)).
  rewrite (lookup_insert_ne _ (log_key bucket sha label STDERR) (log_key bucket sha label TIMED_OUT))
    by by apply log_key_ne.
  rewrite (lookup_insert_ne _ (log_key bucket sha label STDOUT) (log_key bucket sha label TIMED_OUT))
    by by apply log_key_ne.
  rewrite (lookup_insert_eq _ (log_key bucket sha label TIMED_OUT)).
  rewrite (lookup_insert_eq _ (log_key bucket sha label STDERR)).
  rewrite (lookup_insert_ne _ (log_key bucket sha label STDERR) (log_key bucket sha label STDOUT))
    by by apply log_key_ne.
  rewrite (lookup_insert_eq _ (log_key bucket sha label STDOUT)).
  done.
Qed.

Lemma archived_complete bucket sha label exitcode timed_out out err st :
  plain label = true →
  logs_complete bucket sha st →
  logs_complete bucket sha (archived bucket sha label exitcode timed_out out err st).
Proof.
  intros Hlabel Hcomplete key [Hkey|Hkey]%archived_is_Some Hunder.
  - right. exists label. split; [done|]. split; [done|].
    intros field Hfield. apply archived_is_Some. left.
    apply list_elem_of_fmap. by exists field.
  - destruct (Hcomplete key Hkey Hunder) as [->|(label' & Hlabel' & Hin & Hall)]; [by left|].
    right. exists label'. split; [done|]. split; [done|].
    intros field Hfield. apply archived_is_Some. right. by apply Hall.
Qed.


Lemma str_Int_inj (m n : Z) : Py.str (Py.Int m) = Py.str (Py.Int n) → m = n.
Proof. cbn. apply (inj pretty). Qed.

Lemma str_Bool_inj (a b : bool) : Py.str (Py.Bool a) = Py.str (Py.Bool b) → a = b.
Proof. by destruct a, b. Qed.

Lemma status_only_complete : logs_complete example_bucket "abc" (gs status_only).
Proof.
  intros key [value Hkey] _. left. unfold status_only in Hkey. cbn [gs] in Hkey.
  apply lookup_singleton_Some in Hkey as [<- _]. done.
Qed.

(** The labels of the internal test commands are plain; the empty command
    is not executed and has no label. *)
Lemma TEST_COMMANDS_labels_plain :
  forallb (λ cmd, bool_decide (cmd = [])
                  || plain (Py.replace "/" "_" (Py.replace " " "_" (Py.join " " cmd))))
    TEST_COMMANDS = true.
Proof. vm_compute. reflexivity. Qed.

(** C9: [archive_log] followed by [fetch_and_print_logs] for the same
    commit and label.  When the label of the command is plain, the commit
    under which [archive_log] stores (the HEAD it reads) is plain, and the
    logs already stored for that commit are complete, then
    [fetch_and_print_logs] for that commit, run on the store that
    [archive_log] leaves, returns and reads and prints, one after the other,
    the exit code, the timed-out flag, the standard error and the standard
    output of the label exactly as they were archived: the text of the exit
    code and of the flag determine them, and the two outputs are the very
    strings read from the log files. *)
Theorem archive_then_fetch_round_trip
    {S S'} (writer : ∀ e : event, S → ans e * S) (reader : ∀ e : event, S' → ans e * S')
    bucket stdout stderr exitcode timed_out cmd (w : cloud S) (env' : S') sha out err :
  let label := Py.replace "/" "_" (Py.replace " " "_" cmd) in
  let archive_run :=
    exec (on_cloud writer) (archive_log bucket stdout stderr exitcode timed_out cmd) w in
  let fetch_run :=
    exec (on_cloud reader) (fetch_and_print_logs bucket sha)
      (Cloud env' (gs (world_of archive_run))) in
  all_chars (λ c, negb (bool_decide (c = "010"%char))) bucket = true →
  plain label = true →
  plain sha = true →
  logs_complete bucket sha (gs w) →
  observed archive_run !! 0%nat = Some (existT HeadSha1 sha) →
  observed archive_run !! 3%nat = Some (existT (ReadFile stdout) out) →
  observed archive_run !! 5%nat = Some (existT (ReadFile stderr) err) →
  outcome_of archive_run = Returned tt
  ∧ outcome_of fetch_run = Returned Py.None_
  ∧ (∃ pre post,
       observed fetch_run
       = pre
         ++ fetched ("gs://" +:+ get_sha_destination bucket sha +:+ "/" +:+ label +:+ "/")
              [(EXITCODE, Py.str (Py.Int exitcode));
               (TIMED_OUT, Py.str (Py.Bool timed_out));
               (STDERR, err); (STDOUT, out)]
         ++ post)
  ∧ (∀ exitcode', Py.str (Py.Int exitcode') = Py.str (Py.Int exitcode) → exitcode' = exitcode)
  ∧ (∀ timed_out', Py.str (Py.Bool timed_out') = Py.str (Py.Bool timed_out) →
                   timed_out' = timed_out).
Proof.
  intros label archive_run fetch_run Hbucket Hlabel Hsha Hcomplete H0 H3 H5.
  pose proof (wpt_exec writer _ w _
                (archive_log_stores bucket stdout stderr exitcode timed_out cmd (gs w)
                   Hbucket Hlabel)) as Harchive.
  cbv beta in Harchive. fold archive_run in Harchive.
  destruct Harchive as (sha0 & out0 & err0 & Ho & H0' & H3' & H5' & Hst).
  rewrite H0 in H0'. rewrite H3 in H3'. rewrite H5 in H5'.
  apply (inj Some), obs_inj in H0'. apply (inj Some), obs_inj in H3'.
  apply (inj Some), obs_inj in H5'. subst sha0 out0 err0.
  specialize (Hst Hsha). fold label in Hst.
  split; [done|].
  assert (wpt (fetch_and_print_logs bucket sha) (gs (world_of archive_run)) (λ tr o st',
            o = Returned Py.None_ ∧ st' = gs (world_of archive_run)
            ∧ ∃ pre post,
                tr = pre
                     ++ fetched_entry (gs (world_of archive_run))
                          ("gs://" +:+ get_sha_destination bucket sha +:+ "/" +:+ label +:+ "/")
                     ++ post)) as Hwpt.
  { apply (fetch_and_print_logs_reads bucket sha _ label EXITCODE); try done.
    - rewrite Hst. by apply archived_complete.
    - apply list_elem_of_In; cbv; tauto.
    - rewrite Hst. apply archived_is_Some. left. apply list_elem_of_In; cbv; tauto. }
  pose proof (wpt_exec reader _ (Cloud env' (gs (world_of archive_run))) _ Hwpt) as Hfetch.
  cbv beta in Hfetch. fold fetch_run in Hfetch.
  destruct Hfetch as (Hret & _ & pre & post & Htr).
  split; [done|]. split.
  - exists pre, post. rewrite Htr, Hst. unfold fetched_entry.
    assert (Py.endswith ("gs://" +:+ get_sha_destination bucket sha +:+ "/" +:+ label +:+ "/")
              "/status" = false) as ->
      by (rewrite <-!string_app_assoc; apply endswith_status_dir).
    by rewrite archived_fields.
  - split; [intros ?; apply str_Int_inj|intros ?; apply str_Bool_inj].
Qed.

Lemma archive_then_fetch_round_trip_witness :
  let label := "tools_gradle.py_r8lib" in
  let archive_run :=
    exec (on_cloud scripted_oracle)
      (archive_log example_bucket "/tmp/tmp0/stdout" "/tmp/tmp0/stderr" 2 false
         "tools/gradle.py r8lib") status_only in
  let fetch_run :=
    exec (on_cloud scripted_oracle) (fetch_and_print_logs example_bucket "abc")
      (Cloud quiet (gs (world_of archive_run))) in
  outcome_of archive_run = Returned tt
  ∧ outcome_of fetch_run = Returned Py.None_
  ∧ (∃ pre post,
       observed fetch_run
       = pre
         ++ fetched ("gs://" +:+ get_sha_destination example_bucket "abc" +:+ "/" +:+ label
                     +:+ "/")
              [(EXITCODE, Py.str (Py.Int 2));
               (TIMED_OUT, Py.str (Py.Bool false));
               (STDERR, "failed 1"); (STDOUT, "passed 10")]
         ++ post)
  ∧ (∀ exitcode', Py.str (Py.Int exitcode') = Py.str (Py.Int 2) → exitcode' = 2)
  ∧ (∀ timed_out', Py.str (Py.Bool timed_out') = Py.str (Py.Bool false) →
                   timed_out' = false).
Proof.
  apply (archive_then_fetch_round_trip scripted_oracle scripted_oracle example_bucket
           "/tmp/tmp0/stdout" "/tmp/tmp0/stderr" 2 false "tools/gradle.py r8lib"
           status_only quiet "abc" "passed 10" "failed 1").
  - vm_compute. reflexivity.
  - vm_compute. reflexivity.
  - vm_compute. reflexivity.
  - exact status_only_complete.
  - vm_compute. reflexivity.
  - vm_compute. reflexivity.
  - vm_compute. reflexivity.
Defined.

(** ** The bot and the tester on one store *)

(** *** The protocol *)

Lemma bot_next_inv b t m a b' :
  inv b t m = true → agrees a m = true → bot_next b a = Some b' →
  inv b' t (act a m) = true.
Proof.
  destruct m as [[] [] []], b, t; try discriminate;
    destruct a as [[]|[]|[] []|]; cbn; try discriminate; intros _ _ [= <-]; reflexivity.
Qed.

Lemma tester_next_inv b t m a t' :
  inv b t m = true → agrees a m = true → tester_next t a = Some t' →
  inv b t' (act a m) = true.
Proof.
  destruct m as [[] [] []], b, t; try discriminate;
    destruct a as [[]|[]|[] []|]; cbn; try discriminate; intros _ _ [= <-]; reflexivity.
Qed.

Lemma inv_count b t m : inv b t m = true → (count m ≤ 2)%nat.
Proof. destruct m as [[] [] []], b, t; cbn; try discriminate; lia. Qed.

Lemma bot_next_Other b : bot_next b Other = Some b.
Proof. by destruct b. Qed.

Lemma tester_next_Other t : tester_next t Other = Some t.
Proof. by destruct t. Qed.

(** *** Events and the signals in the store *)

Lemma magic_paths_distinct bucket :
  get_magic_file_gs_path bucket READY_FOR_TESTING ≠ get_magic_file_gs_path bucket TESTING
  ∧ get_magic_file_gs_path bucket READY_FOR_TESTING
    ≠ get_magic_file_gs_path bucket TESTING_COMPLETE
  ∧ get_magic_file_gs_path bucket TESTING ≠ get_magic_file_gs_path bucket TESTING_COMPLETE.
Proof. repeat split; by intros ?%magic_path_inj. Qed.

Lemma signal_of_name bucket s :
  signal_of bucket (get_magic_file_gs_path bucket (signal_name s)) = Some s.
Proof.
  destruct (magic_paths_distinct bucket) as (H1 & H2 & H3).
  unfold signal_of. destruct s; cbn [signal_name]; repeat case_decide; congruence.
Qed.

Lemma signal_of_Some bucket path s :
  signal_of bucket path = Some s → path = get_magic_file_gs_path bucket (signal_name s).
Proof. unfold signal_of. repeat case_decide; intros [= <-]; done. Qed.

Lemma signal_of_None bucket path :
  (∀ name, name ∈ ALL_MAGIC → path ≠ get_magic_file_gs_path bucket name) →
  signal_of bucket path = None.
Proof.
  intros Hpath. destruct (signal_of bucket path) as [s|] eqn:Hs; [|done].
  apply signal_of_Some in Hs. exfalso. apply (Hpath (signal_name s)); [|done].
  apply list_elem_of_In. destruct s; cbv; tauto.
Qed.

Lemma has_blobs_of bucket st s :
  has (blobs_of bucket st) s
  = bool_decide (is_Some (st !! get_magic_file_gs_path bucket (signal_name s))).
Proof. by destruct s. Qed.

Lemma blobs_ext m m' : (∀ s, has m s = has m' s) → m = m'.
Proof.
  intros H. destruct m, m'. pose proof (H OFFERED). pose proof (H CLAIMED).
  pose proof (H FINISHED). cbn in *. congruence.
Qed.

Lemma has_set_signal s s' v m :
  has (set_signal s v m) s' = if decide (s' = s) then v else has m s'.
Proof. by destruct s, s', m. Qed.

Lemma blobs_of_insert bucket st path content :
  blobs_of bucket (<[path := content]> st)
  = from_option (λ s, set_signal s true) id (signal_of bucket path) (blobs_of bucket st).
Proof.
  apply blobs_ext. intros s'. rewrite has_blobs_of.
  destruct (signal_of bucket path) as [s|] eqn:Hs; cbn.
  - apply signal_of_Some in Hs as ->. rewrite has_set_signal.
    destruct (decide (s' = s)) as [->|Hne].
    + rewrite lookup_insert_eq. by apply bool_decide_eq_true_2.
    + rewrite lookup_insert_ne, has_blobs_of; [done|].
      intros ?%magic_path_inj. by destruct s, s'.
  - rewrite lookup_insert_ne, has_blobs_of; [done|].
    intros ->. by rewrite signal_of_name in Hs.
Qed.

Lemma blobs_of_delete bucket st path :
  blobs_of bucket (delete path st)
  = from_option (λ s, set_signal s false) id (signal_of bucket path) (blobs_of bucket st).
Proof.
  apply blobs_ext. intros s'. rewrite has_blobs_of.
  destruct (signal_of bucket path) as [s|] eqn:Hs; cbn.
  - apply signal_of_Some in Hs as ->. rewrite has_set_signal.
    destruct (decide (s' = s)) as [->|Hne].
    + rewrite lookup_delete_eq. apply bool_decide_eq_false_2. by intros [? ?].
    + rewrite lookup_delete_ne, has_blobs_of; [done|].
      intros ?%magic_path_inj. by destruct s, s'.
  - rewrite lookup_delete_ne, has_blobs_of; [done|].
    intros ->. by rewrite signal_of_name in Hs.
Qed.

(** A store event acts on the signals as its action says. *)
Lemma gs_step_action bucket st e x st' :
  gs_step st e = Some (x, st') →
  agrees (action_of bucket e x) (blobs_of bucket st) = true
  ∧ blobs_of bucket st' = act (action_of bucket e x) (blobs_of bucket st).
Proof.
  destruct e; cbn; try discriminate; intros [= <- <-].
  - destruct (signal_of bucket path) as [s|] eqn:Hs; cbn; [|done].
    apply signal_of_Some in Hs as ->. split; [|done].
    apply bool_decide_eq_true_2. by rewrite has_blobs_of.
  - done.
  - rewrite blobs_of_delete. by destruct (signal_of bucket path).
  - rewrite blobs_of_insert. by destruct (signal_of bucket path).
  - done.
Qed.

Lemma gs_step_local bucket st e (x : ans e) :
  gs_step st e = None → action_of bucket e x = Other.
Proof. by destruct e. Qed.

Lemma magic_present_count bucket st :
  List.length (magic_present bucket st) = count (blobs_of bucket st).
Proof.
  unfold magic_present, ALL_MAGIC, count, blobs_of. cbn [offered claimed finished].
  rewrite !filter_cons, filter_nil.
  repeat (case_decide; [rewrite bool_decide_eq_true_2 by done
                       |rewrite bool_decide_eq_false_2 by done]); reflexivity.
Qed.

(** *** Programs that follow the protocol *)

Lemma follows_mono {A Q} bucket (next : Q → action → option Q) (p : prog A) q
    (Φ Φ' : outcome A → Q → Prop) :
  (∀ o q', Φ o q' → Φ' o q') → follows bucket next p q Φ → follows bucket next p q Φ'.
Proof.
  intros HΦ. revert q. induction p as [a|e k IH|x|c| |]; simpl; intros q Hp; auto.
  intros x. specialize (Hp x). destruct (next q _); [|done]. by apply IH.
Qed.

Lemma follows_bind {A B Q} bucket (next : Q → action → option Q)
    (p : prog A) (f : A → prog B) q Φ :
  follows bucket next p q (bind_postf bucket next f Φ) →
  follows bucket next (p ≫= f) q Φ.
Proof.
  rewrite bind_unfold. revert q.
  induction p as [a|e k IH|x|c| |]; simpl; intros q Hp; auto.
  intros x. specialize (Hp x). destruct (next q _); [|done]. by apply IH.
Qed.

(** A program whose events all act within [P] stays within a set [J] of
    phases that the actions in [P] do not leave. *)
Lemma follows_performs {A Q} bucket (next : Q → action → option Q)
    (P : action → Prop) (J : Q → Prop) (p : prog A) q :
  performs (λ e, ∀ x, P (action_of bucket e x)) p →
  (∀ q a, J q → P a → ∃ q', next q a = Some q' ∧ J q') →
  J q →
  follows bucket next p q (λ _ q', J q').
Proof.
  intros Hp HJ. revert q. induction p as [a|e k IH|x|c| |]; simpl; intros q Hq; auto.
  destruct Hp as [He Hk]. intros x.
  destruct (HJ q _ Hq (He x)) as (q' & -> & Hq'). by apply IH.
Qed.

Lemma signal_free_passive bucket e :
  signal_free bucket e → ∀ x, passive (action_of bucket e x).
Proof.
  destruct e; cbn; try done.
  - intros _ x. by destruct (signal_of bucket path).
  - by intros ->.
  - by intros ->.
Qed.

Lemma is_check_signal_free bucket e : is_check e → signal_free bucket e.
Proof. by destruct e. Qed.

Lemma no_magic_write_signal_free bucket e : no_magic_write bucket e → signal_free bucket e.
Proof. destruct e; cbn; try done; apply signal_of_None. Qed.

(** A program whose events write no signal keeps the phase of the bot. *)
Lemma bot_follows_signal_free {A} bucket (p : prog A) b :
  performs (signal_free bucket) p →
  follows bucket bot_next p b (λ _ b', b' = b).
Proof.
  intros Hp. apply (follows_performs bucket bot_next passive (λ b', b' = b)); [| |done].
  - eapply performs_impl; [|done]. apply signal_free_passive.
  - intros ? a -> Ha. exists b. split; [|done]. by destruct a as [| |[] []|], b.
Qed.

(** It keeps the phase of a tester that is not idle, and leaves an idle
    tester idle or with OFFERED seen. *)
Lemma tester_follows_signal_free {A} bucket (p : prog A) t :
  performs (signal_free bucket) p →
  follows bucket tester_next p t (λ _ t', t' = t ∨ (t = Idle ∧ t' = Seen)).
Proof.
  intros Hp.
  apply (follows_performs bucket tester_next passive (λ t', t' = t ∨ (t = Idle ∧ t' = Seen)));
    [| |by left].
  - eapply performs_impl; [|done]. apply signal_free_passive.
  - intros t' a Ht' Ha. destruct a as [| |[] []|]; try done.
    all: destruct Ht' as [->|[-> ->]]; [destruct t|]; cbn; eauto.
Qed.

Lemma signal_of_READY_FOR_TESTING bucket :
  signal_of bucket (get_magic_file_gs_path bucket READY_FOR_TESTING) = Some OFFERED.
Proof. apply (signal_of_name bucket OFFERED). Qed.

Lemma signal_of_TESTING bucket :
  signal_of bucket (get_magic_file_gs_path bucket TESTING) = Some CLAIMED.
Proof. apply (signal_of_name bucket CLAIMED). Qed.

Lemma signal_of_TESTING_COMPLETE bucket :
  signal_of bucket (get_magic_file_gs_path bucket TESTING_COMPLETE) = Some FINISHED.
Proof. apply (signal_of_name bucket FINISHED). Qed.

Lemma run_bot_wait_signal_free bucket fuel git_hash begin :
  performs (signal_free bucket) (run_bot_wait bucket fuel git_hash begin).
Proof.
  induction fuel as [|fuel IH]; cbn; [done|].
  split; [done|]. intros now. destruct (decide _); cbn; [done|].
  split; [done|]. intros [|]; cbn.
  - split; [done|]. intros [content|]; cbn; [|done].
    destruct (decide _); cbn; [done|]. split; [done|]. by intros [?|].
  - apply performs_bind.
    + eapply performs_impl; [|apply print_magic_file_state_checks].
      apply is_check_signal_free.
    + intros _. cbn. split; [done|]. intros _. apply IH.
Qed.

(** The bot follows its side of the protocol. *)
Lemma run_bot_follows bucket fuel :
  follows bucket bot_next (run_bot bucket fuel) Clearing (λ _ _, True).
Proof.
  unfold run_bot.
  apply follows_bind. eapply follows_mono;
    [|apply bot_follows_signal_free; eapply performs_impl;
      [|apply print_magic_file_state_checks]; apply is_check_signal_free].
  intros [[]| | | |] ? ->; try done. cbn [bind_postf].
  apply follows_bind.
  eapply follows_mono;
    [|apply (follows_performs bucket bot_next
               (λ a, match a with Put _ => False | _ => True end) (λ b, b = Clearing));
      [| |done]].
  - intros [[]| | | |] ? ->; try done. cbn [bind_postf].
    apply follows_bind. eapply follows_mono;
      [|apply bot_follows_signal_free; eapply performs_impl;
        [|apply print_magic_file_state_checks]; apply is_check_signal_free].
    intros [[]| | | |] ? ->; try done. cbn [bind_postf].
    cbn. rewrite signal_of_READY_FOR_TESTING. cbn. intros [|]; [done|].
    cbn. intros git_hash.
    change (get_magic_file_base_path bucket +:+ "/" +:+ READY_FOR_TESTING)
      with (get_magic_file_gs_path bucket READY_FOR_TESTING).
    rewrite signal_of_READY_FOR_TESTING. cbn. intros _ begin.
    unfold run_bot_collect.
    apply follows_bind. eapply follows_mono;
      [|apply bot_follows_signal_free, run_bot_wait_signal_free].
    intros [[]| | | |] ? ->; try done. cbn [bind_postf].
    cbn. intros _. unfold get_status. cbn. intros [status|]; [|done]. cbn.
    rewrite signal_of_TESTING_COMPLETE. cbn. intros _.
    destruct (decide _); cbn; done.
  - apply performs_for_each. intros magic. cbn. split.
    + intros x. by destruct (signal_of bucket _).
    + intros [|]; cbn; [|done]. split; [|done]. intros _. by destruct (signal_of bucket _).
  - intros ? a -> Ha. exists Clearing. split; [|done]. by destruct a as [[]|[]|[] []|].
Qed.

Lemma follows_never_execs {A Q} bucket (next : Q → action → option Q) (p : prog A) q Φ :
  never_execs p → follows bucket next p q Φ →
  follows bucket next p q (λ o q', Φ o q' ∧ o ≠ Execved).
Proof.
  revert q. induction p as [a|e k IH|x|c| |]; simpl; intros q Hne Hp; try done.
  intros x. specialize (Hp x). destruct (next q _); [|done]. by apply IH.
Qed.

(** The phases in which the tester holds no claim. *)
Lemma tester_signal_free_seen {A} bucket (p : prog A) t :
  performs (signal_free bucket) p → t ≠ Idle →
  follows bucket tester_next p t (λ _ t', t' = t).
Proof.
  intros Hp Ht. eapply follows_mono; [|by apply tester_follows_signal_free].
  intros _ t' [->|[-> _]]; done.
Qed.

(** One pass of the tester's loop follows its side of the protocol: from
    a phase without claim it returns or restarts in such a phase. *)
Lemma run_continuously_iteration_follows bucket cmd_fuel own_content t :
  t = Idle ∨ t = Seen →
  follows bucket tester_next (run_continuously_iteration bucket cmd_fuel own_content) t
    (λ o t', match o with
             | Returned _ | Execved => t' = Idle ∨ t' = Seen
             | _ => True
             end).
Proof.
  intros Ht. unfold run_continuously_iteration.
  apply follows_bind. unfold restart_if_new_version at 1. cbn.
  intros new_content. rewrite tester_next_Other.
  destruct (decide _); cbn; [done|].
  apply follows_bind. eapply follows_mono;
    [|apply tester_follows_signal_free; eapply performs_impl;
      [|apply print_magic_file_state_checks]; apply is_check_signal_free].
  intros [[]| | | |] t1 Ht1; try done; cbn [bind_postf].
  2: { destruct Ht1 as [->|[_ ->]]; tauto. }
  assert (t1 = Idle ∨ t1 = Seen) as Ht1' by (destruct Ht1 as [->|[_ ->]]; tauto).
  clear Ht Ht1 t. cbn. rewrite signal_of_READY_FOR_TESTING. cbn.
  intros [|]; cycle 1.
  { destruct Ht1' as [->| ->]; cbn; tauto. }
  assert (tester_next t1 (Saw OFFERED true) = Some Seen) as ->
    by (by destruct Ht1' as [->| ->]).
  cbn. intros [git_hash|]; cbn; [|done].
  apply follows_bind. eapply follows_mono;
    [|apply tester_signal_free_seen;
      [eapply performs_impl; [|apply git_checkout_performs_checks];
       apply is_check_signal_free|done]].
  intros [checked_out| | | |] ? ->; try done; [|by right]. cbn [bind_postf].
  destruct (not_checked_out checked_out).
  - apply follows_bind. eapply follows_mono;
      [|apply tester_signal_free_seen;
        [eapply performs_impl; [|apply archive_status_no_magic_write];
         apply no_magic_write_signal_free|done]].
    intros [[]| | | |] ? ->; try done; [|by right]. cbn [bind_postf].
    cbn.
    change (get_magic_file_base_path bucket +:+ "/" +:+ TESTING_COMPLETE)
      with (get_magic_file_gs_path bucket TESTING_COMPLETE).
    rewrite signal_of_TESTING_COMPLETE. cbn. intros _.
    rewrite signal_of_READY_FOR_TESTING. cbn. intros _. by left.
  - apply follows_bind. unfold restart_if_new_version. cbn.
    intros new_content'. destruct (decide _); cbn; [by right|].
    destruct (decide _); cbn; [done|].
    change (get_magic_file_base_path bucket +:+ "/" +:+ TESTING)
      with (get_magic_file_gs_path bucket TESTING).
    rewrite signal_of_TESTING. cbn. intros _.
    rewrite signal_of_READY_FOR_TESTING. cbn. intros _.
    apply follows_bind. unfold run_once.
    eapply follows_mono;
      [|apply follows_never_execs; [apply run_once_on_never_execs|];
        apply tester_signal_free_seen;
        [eapply performs_impl;
         [|apply (run_once_on_no_magic_write bucket TEST_COMMANDS cmd_fuel true)];
         apply no_magic_write_signal_free|done]].
    intros [v| | | |] ? [-> Hexec]; try done. cbn [bind_postf].
    cbn.
    change (get_magic_file_base_path bucket +:+ "/" +:+ TESTING_COMPLETE)
      with (get_magic_file_gs_path bucket TESTING_COMPLETE).
    rewrite signal_of_TESTING_COMPLETE. cbn. intros _.
    rewrite signal_of_TESTING. cbn. intros _. by left.
Qed.
Lemma run_continuously_loop_follows bucket fuel cmd_fuel own_content t :
  t = Idle ∨ t = Seen →
  follows bucket tester_next (run_continuously_loop bucket fuel cmd_fuel own_content) t
    restartable.
Proof.
  revert t. induction fuel as [|fuel IH]; intros t Ht; cbn [run_continuously_loop].
  { by intros ?. }
  apply follows_bind. eapply follows_mono; [|by apply run_continuously_iteration_follows].
  intros [sleep| | | |] t' Ht'; cbn [bind_postf]; try by intros ?.
  apply follows_bind. destruct sleep; cbn.
  - intros _. rewrite tester_next_Other. by apply IH.
  - by apply IH.
Qed.

(** The tester follows its side of the protocol, also after a restart. *)
Lemma run_continuously_follows bucket fuel cmd_fuel t :
  t = Idle ∨ t = Seen →
  follows bucket tester_next (run_continuously bucket fuel cmd_fuel) t restartable.
Proof.
  intros Ht. unfold run_continuously. cbn. intros own_content.
  rewrite tester_next_Other. by apply run_continuously_loop_follows.
Qed.

(** *** The invariant of the system *)

Lemma follows_step_bot {A} bucket (p p' : prog A) st st' b t Φ :
  prog_step p st p' st' →
  follows bucket bot_next p b Φ →
  inv b t (blobs_of bucket st) = true →
  ∃ b', follows bucket bot_next p' b' Φ ∧ inv b' t (blobs_of bucket st') = true.
Proof.
  intros Hstep Hp Hinv. destruct Hstep as [e k st x st' Hst|e k st x Hst]; cbn in Hp.
  - specialize (Hp x). destruct (bot_next b _) as [b'|] eqn:Hb; [|done].
    exists b'. split; [done|].
    destruct (gs_step_action bucket _ _ _ _ Hst) as [Hagrees ->].
    by apply (bot_next_inv b).
  - specialize (Hp x). rewrite (gs_step_local bucket _ _ x Hst), bot_next_Other in Hp.
    by exists b.
Qed.

Lemma follows_step_tester {A} bucket (p p' : prog A) st st' b t Φ :
  prog_step p st p' st' →
  follows bucket tester_next p t Φ →
  inv b t (blobs_of bucket st) = true →
  ∃ t', follows bucket tester_next p' t' Φ ∧ inv b t' (blobs_of bucket st') = true.
Proof.
  intros Hstep Hp Hinv. destruct Hstep as [e k st x st' Hst|e k st x Hst]; cbn in Hp.
  - specialize (Hp x). destruct (tester_next t _) as [t'|] eqn:Ht; [|done].
    exists t'. split; [done|].
    destruct (gs_step_action bucket _ _ _ _ Hst) as [Hagrees ->].
    by apply (tester_next_inv b t).
  - specialize (Hp x). rewrite (gs_step_local bucket _ _ x Hst), tester_next_Other in Hp.
    by exists t.
Qed.

Lemma coherent_step bucket fuel cmd_fuel s s' :
  sys_step bucket fuel cmd_fuel s s' → coherent bucket s → coherent bucket s'.
Proof.
  intros Hstep (b & t & Hb & Ht & Hinv).
  destruct Hstep as [pb pb' pt st st' Hstep|pb pt pt' st st' Hstep|pb st]; cbn in *.
  - destruct (follows_step_bot bucket _ _ _ _ b t _ Hstep Hb Hinv) as (b' & Hb' & Hinv').
    by exists b', t.
  - destruct (follows_step_tester bucket _ _ _ _ b t _ Hstep Ht Hinv) as (t' & Ht' & Hinv').
    by exists b, t'.
  - exists b, t. split; [done|]. split; [|done].
    apply run_continuously_follows. by apply Ht.
Qed.

Lemma coherent_start bucket bot_fuel fuel cmd_fuel st :
  magic_present bucket st = [] →
  coherent bucket (System (run_bot bucket bot_fuel) (run_continuously bucket fuel cmd_fuel) st).
Proof.
  intros Hst. exists Clearing, Idle. split; [apply run_bot_follows|].
  split; [apply run_continuously_follows; by left|].
  pose proof (magic_present_count bucket st) as Hcount. rewrite Hst in Hcount.
  cbn [inv bot_of tester_of store_of]. destruct (blobs_of bucket st) as [[] [] []]; done.
Qed.

Lemma coherent_reachable bucket bot_fuel fuel cmd_fuel st s :
  magic_present bucket st = [] →
  rtc (sys_step bucket fuel cmd_fuel)
    (System (run_bot bucket bot_fuel) (run_continuously bucket fuel cmd_fuel) st) s →
  coherent bucket s.
Proof.
  intros Hst Hsteps. revert s Hsteps. apply (rtc_ind_r (coherent bucket)).
  - by apply coherent_start.
  - intros s s' _ Hstep Hs. by eapply coherent_step.
Qed.
(** *** Schedules are runs of the system *)

Lemma run_step_sound {A} (p p' : prog A) (w w' : cloud scripted) :
  run_step p w = (p', w') →
  (p' = p ∧ w' = w) ∨ prog_step p (gs w) p' (gs w').
Proof.
  destruct p as [a|e k|x|c| |]; cbn; try (intros [= <- <-]; by left).
  unfold on_cloud. destruct (gs_step (gs w) e) as [[x st']|] eqn:Hst.
  - intros [= <- <-]. right. by constructor.
  - destruct (scripted_oracle e (env w)) as [x o']. intros [= <- <-]. right.
    by constructor.
Qed.

Lemma scheduled_reachable bucket fuel cmd_fuel who s o :
  rtc (sys_step bucket fuel cmd_fuel) s (scheduled bucket fuel cmd_fuel who (s, o)).1.
Proof.
  destruct s as [b t st]. unfold scheduled. destruct who.
  - destruct (run_step b (Cloud o st)) as [b' w] eqn:Hrun.
    apply run_step_sound in Hrun as [[-> ->]|Hstep]; cbn; [done|].
    apply rtc_once. by constructor.
  - assert (∀ t' w, run_step t (Cloud o st) = (t', w) →
              rtc (sys_step bucket fuel cmd_fuel) (System b t st) (System b t' (gs w)))
      as Hrun.
    { intros t' w [[-> ->]|Hstep]%run_step_sound; cbn; [done|].
      apply rtc_once. by constructor. }
    destruct t as [a|e k|x|c| |].
    5: { apply rtc_once. cbn. apply tester_restart. }
    all: match goal with
         | |- context [run_step ?p ?w] =>
             specialize (Hrun (run_step p w).1 (run_step p w).2);
             destruct (run_step p w) as [t' w']; by apply Hrun
         end.
Qed.

Lemma schedule_reachable bucket fuel cmd_fuel turns s o :
  rtc (sys_step bucket fuel cmd_fuel) s (schedule bucket fuel cmd_fuel turns (s, o)).1.
Proof.
  revert s o. induction turns as [|who turns IH]; intros s o; [done|].
  unfold schedule. cbn [foldl].
  destruct (scheduled bucket fuel cmd_fuel who (s, o)) as [s' o'] eqn:Hs.
  etrans; [|apply IH].
  pose proof (scheduled_reachable bucket fuel cmd_fuel who s o) as Hone.
  by rewrite Hs in Hone.
Qed.

Lemma magic_present_blobs bucket st :
  magic_present bucket st
  = (if offered (blobs_of bucket st) then [READY_FOR_TESTING] else [])
    ++ (if claimed (blobs_of bucket st) then [TESTING] else [])
    ++ (if finished (blobs_of bucket st) then [TESTING_COMPLETE] else []).
Proof.
  unfold magic_present, ALL_MAGIC, blobs_of. cbn [offered claimed finished].
  rewrite !filter_cons, filter_nil.
  repeat (case_decide; [rewrite bool_decide_eq_true_2 by done
                       |rewrite bool_decide_eq_false_2 by done]); reflexivity.
Qed.

(** C4, as the code has it.  One bot and one tester run interleaved, in any
    order of their events, on a store that holds no magic file at the start;
    a tester that restarts itself starts over.  Then at every point of every
    run at most two of the three magic files exist.  The bot writes
    [READY_FOR_TESTING] only when none exists.  The tester writes the next
    magic file before it deletes the previous one: when it writes [TESTING],
    [READY_FOR_TESTING] (and nothing else) exists, and when it writes
    [TESTING_COMPLETE], exactly [READY_FOR_TESTING] or exactly [TESTING]
    exists. *)
Theorem at_most_two_signal_blobs bucket bot_fuel fuel cmd_fuel st s :
  magic_present bucket st = [] →
  rtc (sys_step bucket fuel cmd_fuel)
    (System (run_bot bucket bot_fuel) (run_continuously bucket fuel cmd_fuel) st) s →
  (List.length (magic_present bucket (store_of s)) ≤ 2)%nat
  ∧ (∀ git_hash k,
       bot_of s = Vis (Upload (get_magic_file_gs_path bucket READY_FOR_TESTING) git_hash) k →
       magic_present bucket (store_of s) = [])
  ∧ (∀ git_hash k,
       tester_of s = Vis (Upload (get_magic_file_gs_path bucket TESTING) git_hash) k →
       magic_present bucket (store_of s) = [READY_FOR_TESTING])
  ∧ (∀ git_hash k,
       tester_of s
       = Vis (Upload (get_magic_file_gs_path bucket TESTING_COMPLETE) git_hash) k →
       magic_present bucket (store_of s) = [READY_FOR_TESTING]
       ∨ magic_present bucket (store_of s) = [TESTING]).
Proof.
  intros Hst Hsteps.
  destruct (coherent_reachable bucket bot_fuel fuel cmd_fuel st s Hst Hsteps)
    as (b & t & Hb & Ht & Hinv).
  split; [|split; [|split]].
  - rewrite magic_present_count. by eapply inv_count.
  - intros git_hash k Hbot. rewrite Hbot in Hb. cbn in Hb. specialize (Hb tt).
    rewrite signal_of_READY_FOR_TESTING in Hb. rewrite magic_present_blobs.
    destruct b; [|done..].
    by destruct t, (blobs_of bucket (store_of s)) as [[] [] []].
  - intros git_hash k Htester. rewrite Htester in Ht. cbn in Ht. specialize (Ht tt).
    rewrite signal_of_TESTING in Ht. rewrite magic_present_blobs.
    destruct t; try done.
    by destruct b, (blobs_of bucket (store_of s)) as [[] [] []].
  - intros git_hash k Htester. rewrite Htester in Ht. cbn in Ht. specialize (Ht tt).
    rewrite signal_of_TESTING_COMPLETE in Ht. rewrite magic_present_blobs.
    destruct t; try done.
    all: destruct b, (blobs_of bucket (store_of s)) as [[] [] []]; try done; auto.
Qed.

Lemma at_most_two_signal_blobs_witness :
  let s := (schedule example_bucket 2 1 claim_turns handoff_start).1 in
  (List.length (magic_present example_bucket (store_of s)) ≤ 2)%nat
  ∧ (∀ git_hash k,
       bot_of s
       = Vis (Upload (get_magic_file_gs_path example_bucket READY_FOR_TESTING) git_hash) k →
       magic_present example_bucket (store_of s) = [])
  ∧ (∀ git_hash k,
       tester_of s
       = Vis (Upload (get_magic_file_gs_path example_bucket TESTING) git_hash) k →
       magic_present example_bucket (store_of s) = [READY_FOR_TESTING])
  ∧ (∀ git_hash k,
       tester_of s
       = Vis (Upload (get_magic_file_gs_path example_bucket TESTING_COMPLETE) git_hash) k →
       magic_present example_bucket (store_of s) = [READY_FOR_TESTING]
       ∨ magic_present example_bucket (store_of s) = [TESTING]).
Proof.
  apply (at_most_two_signal_blobs example_bucket 2 2 1 ∅).
  - vm_compute. reflexivity.
  - apply (schedule_reachable example_bucket 2 1 claim_turns).
Defined.

(** In a run of a bot and a tester from an empty store, [READY_FOR_TESTING]
    and [TESTING] exist together once the tester has written [TESTING]. *)
Lemma tester_claims_before_it_deletes_the_offer :
  let s := (schedule example_bucket 2 1 claim_turns handoff_start).1 in
  magic_present example_bucket (store_of handoff_start.1) = []
  ∧ rtc (sys_step example_bucket 2 1) handoff_start.1 s
  ∧ magic_present example_bucket (store_of s) = [READY_FOR_TESTING; TESTING]
  ∧ ¬ (List.length (magic_present example_bucket (store_of s)) ≤ 1)%nat.
Proof.
  split; [by vm_compute|]. split.
  - apply (schedule_reachable example_bucket 2 1 claim_turns).
  - assert (magic_present example_bucket
              (store_of (schedule example_bucket 2 1 claim_turns handoff_start).1)
            = [READY_FOR_TESTING; TESTING]) as -> by (by vm_compute).
    split; [done|]. cbn. lia.
Qed.

(** ** The test commands *)

(** The two asserts of [find_min_xmx_command] hold for every benchmark
    app, so building [TEST_COMMANDS] raises nothing. *)
Lemma benchmark_asserts_hold : forallb find_min_xmx_assert BENCHMARK_APPS = true.
Proof. reflexivity. Qed.

(** * Further properties of the script *)

(** ** The command runner *)

Lemma execute_never_execs bucket fuel cmd archive env :
  never_execs (execute bucket fuel cmd archive env).
Proof.
  unfold execute. destruct (decide _); [done|]. unfold with_TempDir. cbn.
  intros temp. apply never_execs_finally; [|by cbn]. cbn.
  intros [|]; cbn; [|done]. intros begin.
  apply never_execs_bind; [apply execute_wait_never_execs|].
  intros [rc t]. apply never_execs_bind; [|by intros].
  destruct (decide _); [|done].
  unfold handle_output, archive_log. by destruct archive; cbn.
Qed.

(** [with utils.TempDir()] removes the directory on every way out of its
    body. *)
Lemma with_TempDir_removes {A} (body : string → prog A) :
  wp (with_TempDir body) (λ tr o,
    o ≠ Spinning → o ≠ Execved →
    ∃ temp mid, tr = existT TempDir temp :: mid ++ [existT (RmTemp temp) tt]).
Proof.
  unfold with_TempDir. cbn. intros temp. apply wp_finally_RmTemp.
  eapply wp_mono; [|apply wp_true]. intros tr o _.
  destruct o; try done; intros _ _; by exists temp, tr.
Qed.

(** X1: in every run of [execute] on a command that is not empty, whatever
    the child and the clock do, a run that has ended (the command returned,
    or an exception passes through) has created a temporary directory as
    its first event and removed that same directory as its last. *)
Theorem execute_removes_temp_dir
    {W} (h : handler W) (w : W) bucket fuel cmd archive env :
  let r := exec h (execute bucket fuel cmd archive env) w in
  cmd ≠ [] →
  outcome_of r ≠ Spinning →
  ∃ temp mid,
    observed r = existT TempDir temp :: mid ++ [existT (RmTemp temp) tt].
Proof.
  intros r Hcmd Hended.
  assert (wp (execute bucket fuel cmd archive env) (λ tr o,
            (o ≠ Spinning → o ≠ Execved →
             ∃ temp mid, tr = existT TempDir temp :: mid ++ [existT (RmTemp temp) tt])
            ∧ o ≠ Execved)) as Hwp.
  { apply wp_conj; [|apply never_execs_wp, execute_never_execs].
    unfold execute. rewrite decide_False by done. apply with_TempDir_removes. }
  apply (wp_exec h _ _ w) in Hwp as [Hremoved Hexec]. by apply Hremoved.
Qed.

Lemma execute_removes_temp_dir_witness :
  let r := exec (on_cloud scripted_oracle)
             (execute example_bucket 1 ["tools/gradle.py"; "r8lib"] true None)
             failing_child in
  ∃ temp mid,
    observed r = existT TempDir temp :: mid ++ [existT (RmTemp temp) tt].
Proof.
  apply (execute_removes_temp_dir (on_cloud scripted_oracle) failing_child example_bucket 1
           ["tools/gradle.py"; "r8lib"] true None).
  - done.
  - vm_compute. discriminate.
Defined.

(** ** The run sequencer *)

Lemma started_app tr tr' : started (tr ++ tr') = started tr ++ started tr'.
Proof. apply omap_app. Qed.

Lemma started_cons e (x : ans e) tr :
  started (existT e x :: tr)
  = match e with
    | Popen argv env _ _ => [(argv, env)]
    | _ => []
    end ++ started tr.
Proof. unfold started. by destruct e. Qed.

Lemma started_no_popen tr :
  Forall (λ x : obs, no_popen (projT1 x)) tr → started tr = [].
Proof.
  induction 1 as [|o tr' He _ IH]; [done|]. destruct o as [e x].
  rewrite started_cons, IH. by destruct e.
Qed.

Lemma performs_started {A} (p : prog A) :
  performs no_popen p → wp p (λ tr _, started tr = []).
Proof.
  intros Hp. eapply wp_mono; [|by apply (performs_wp no_popen)].
  intros tr o. apply started_no_popen.
Qed.

Lemma execute_wait_no_popen fuel begin t : performs no_popen (execute_wait fuel begin t).
Proof.
  revert t. induction fuel as [|fuel IH]; intros t; cbn; [done|].
  split; [done|]. intros [rc|]; cbn; [done|]. split; [done|]. intros now.
  destruct (decide _); cbn.
  - split; [done|]. intros _. split; [done|]. intros _. apply IH.
  - split; [done|]. intros _. apply IH.
Qed.

Lemma handle_output_no_popen bucket archive stderr stdout exitcode timed_out cmd :
  performs no_popen (handle_output bucket archive stderr stdout exitcode timed_out cmd).
Proof. destruct archive; simpl; repeat (split || intros _ || intros ? || exact I). Qed.

(** [execute] starts the command, once, unless it is empty. *)
Lemma execute_started bucket fuel cmd archive env :
  wp (execute bucket fuel cmd archive env) (λ tr _,
    started tr = if decide (cmd = []) then [] else [(cmd, env)]).
Proof.
  unfold execute. destruct (decide _); [done|]. unfold with_TempDir. cbn.
  intros temp. apply wp_finally_RmTemp. cbn. intros started_.
  assert (wp (if started_ : bool
              then begin ← trigger Time;
                   '(returncode, timed_out) ← execute_wait fuel begin false;
                   (if decide (returncode ≠ 0)
                    then handle_output bucket archive (Py.os_path_join temp "stderr")
                           (Py.os_path_join temp "stdout") returncode timed_out
                           (Py.join " " cmd)
                    else Ret tt) ;;
                   Ret (Py.Int returncode)
              else Raise OSError)
            (λ tr _, started tr = [])) as Hrest.
  { apply performs_started. destruct started_; cbn; [|done]. split; [done|]. intros begin.
    apply performs_bind; [apply execute_wait_no_popen|]. intros [rc t].
    apply performs_bind; [|done]. destruct (decide _); [|done].
    apply handle_output_no_popen. }
  eapply wp_mono; [|exact Hrest]. cbn. intros tr o Htr.
  destruct o; rewrite ?started_cons, ?started_app, ?started_cons, Htr; done.
Qed.

Lemma comprehension_started bucket fuel archive env commands :
  wp (comprehension commands (λ cmd, execute bucket fuel cmd archive env))
    (λ tr o, ∀ vs, o = Returned vs →
       started tr = (λ cmd, (cmd, env)) <$> filter (λ cmd, cmd ≠ []) commands).
Proof.
  induction commands as [|cmd commands IH]; cbn [comprehension]; [done|].
  rewrite filter_cons.
  apply wp_bind. eapply wp_mono; [|apply execute_started].
  intros tr [v| | | |] Htr; cbn [bind_post]; try done.
  apply wp_bind. eapply wp_mono; [|exact IH].
  intros tr' [vs| | | |] Htr'; cbn [bind_post]; try done.
  cbn [wp]. intros ? _. rewrite app_nil_r, started_app, Htr, (Htr' vs eq_refl).
  by destruct (decide (cmd = [])), (decide (cmd ≠ [])).
Qed.

Lemma run_once_on_started bucket commands fuel archive :
  wp (run_once_on bucket commands fuel archive) (λ tr o, ∀ v, o = Returned v →
    ∃ environ,
      tr !! 1%nat = Some (existT Environ environ)
      ∧ started tr
        = (λ cmd, (cmd, Some (<["R8_GRADLE_CORES_PER_FORK" := "16"]> environ)))
          <$> filter (λ cmd, cmd ≠ []) commands).
Proof.
  unfold run_once_on. cbn. intros sha environ. apply wp_bind.
  eapply wp_mono; [|apply comprehension_started].
  intros tr [vs| | | |] Htr; cbn [bind_post]; try done.
  unfold archive_status. cbn. intros [] sha' [] v _. exists environ. split; [done|].
  rewrite !started_cons, started_app, !started_cons, (Htr vs eq_refl). cbn.
  by rewrite app_nil_r.
Qed.

(** X2: [run_once] runs all commands, whatever their results.  In every
    run that returns, the children started are the commands of the list
    that are not empty, one child each, in the order of the list, and each
    child gets the environment of the script with
    [R8_GRADLE_CORES_PER_FORK] set to "16". *)
Theorem run_once_starts_every_command
    {W} (h : handler W) (w : W) bucket commands fuel archive v :
  let r := exec h (run_once_on bucket commands fuel archive) w in
  outcome_of r = Returned v →
  ∃ environ,
    observed r !! 1%nat = Some (existT Environ environ)
    ∧ started (observed r)
      = (λ cmd, (cmd, Some (<["R8_GRADLE_CORES_PER_FORK" := "16"]> environ)))
        <$> filter (λ cmd, cmd ≠ []) commands.
Proof.
  intros r Hr.
  by apply (wp_exec h _ _ w (run_once_on_started bucket commands fuel archive) v).
Qed.

Lemma run_once_starts_every_command_witness :
  let r := exec (on_cloud scripted_oracle)
             (run_once_on example_bucket [["tools/test.py"]; []; ["tools/gradle.py"; "r8lib"]]
                2 true) failing_child in
  ∃ environ,
    observed r !! 1%nat = Some (existT Environ environ)
    ∧ started (observed r)
      = (λ cmd, (cmd, Some (<["R8_GRADLE_CORES_PER_FORK" := "16"]> environ)))
        <$> filter (λ cmd, cmd ≠ []) [["tools/test.py"]; []; ["tools/gradle.py"; "r8lib"]].
Proof.
  apply (run_once_starts_every_command (on_cloud scripted_oracle) failing_child
           example_bucket [["tools/test.py"]; []; ["tools/gradle.py"; "r8lib"]] 2 true
           (Py.Bool true)).
  vm_compute. reflexivity.
Defined.

Lemma run_once_on_status bucket commands fuel archive :
  wp (run_once_on bucket commands fuel archive) (λ tr o, ∀ v, o = Returned v →
    ∃ (failed : bool) sha pre,
      v = Py.Bool failed
      ∧ tr = pre ++ [existT GradleStop tt; existT HeadSha1 sha;
                     existT (Upload ("gs://" +:+ get_sha_destination bucket sha +:+ "/status")
                               (if failed then "1" else "0")) tt]).
Proof.
  unfold run_once_on. cbn. intros sha0 environ. apply wp_bind.
  eapply wp_mono; [|apply wp_true].
  intros tr [vs| | | |] _; cbn [bind_post]; try done.
  unfold archive_status. cbn. intros [] sha [] v [= <-].
  exists (Py.any vs), sha, (existT HeadSha1 sha0 :: existT Environ environ :: tr).
  split; [done|]. cbn. rewrite string_app_assoc. by destruct (Py.any vs).
Qed.

(** X3: in every run of [run_once] that returns, with or without
    [--archive], the last three events stop the gradle daemon, read the
    HEAD commit and store the overall status under that commit: "1" when
    the returned flag is [True] and "0" when it is [False]. *)
Theorem run_once_status_matches_result
    {W} (h : handler W) (w : W) bucket commands fuel archive v :
  let r := exec h (run_once_on bucket commands fuel archive) w in
  outcome_of r = Returned v →
  ∃ (failed : bool) sha pre,
    v = Py.Bool failed
    ∧ observed r
      = pre ++ [existT GradleStop tt; existT HeadSha1 sha;
                existT (Upload ("gs://" +:+ get_sha_destination bucket sha +:+ "/status")
                          (if failed then "1" else "0")) tt].
Proof.
  intros r Hr.
  by apply (wp_exec h _ _ w (run_once_on_status bucket commands fuel archive) v).
Qed.

Lemma run_once_status_matches_result_witness :
  let r := exec (on_cloud scripted_oracle)
             (run_once_on example_bucket [["tools/test.py"]; []] 2 false) failing_child in
  ∃ (failed : bool) sha pre,
    Py.Bool true = Py.Bool failed
    ∧ observed r
      = pre ++ [existT GradleStop tt; existT HeadSha1 sha;
                existT (Upload ("gs://" +:+ get_sha_destination example_bucket sha
                                +:+ "/status")
                          (if failed then "1" else "0")) tt].
Proof.
  apply (run_once_status_matches_result (on_cloud scripted_oracle) failing_child
           example_bucket [["tools/test.py"]; []] 2 false (Py.Bool true)).
  vm_compute. reflexivity.
Defined.

Lemma execute_wait_writes_nothing bucket fuel begin t :
  performs (writes_status_only bucket) (execute_wait fuel begin t).
Proof.
  revert t. induction fuel as [|fuel IH]; intros t; cbn; [done|].
  split; [done|]. intros [rc|]; cbn; [done|]. split; [done|]. intros now.
  destruct (decide _); cbn.
  - split; [done|]. intros _. split; [done|]. intros _. apply IH.
  - split; [done|]. intros _. apply IH.
Qed.

Lemma run_once_on_writes_status_only bucket commands fuel :
  performs (writes_status_only bucket) (run_once_on bucket commands fuel false).
Proof.
  unfold run_once_on. cbn. split; [done|]. intros _. split; [done|]. intros environ.
  apply performs_bind.
  - apply performs_comprehension. intros cmd. unfold execute.
    destruct (decide _); [done|]. unfold with_TempDir. cbn. split; [done|].
    intros temp. apply performs_finally; [|by cbn]. cbn. split; [done|].
    intros [|]; cbn; [|done]. split; [done|]. intros begin.
    apply performs_bind; [apply execute_wait_writes_nothing|].
    intros [rc t]. apply performs_bind; [|done].
    destruct (decide _); [|done]. cbn.
    repeat (split || intros _ || intros ? || exact I).
  - intros results. cbn. split; [done|]. intros _. unfold archive_status. cbn.
    split; [done|]. intros sha. split; [|done]. exists sha.
    by rewrite string_app_assoc.
Qed.

(** X4: without [--archive], [run_once] writes nothing to the cloud store
    but the overall status: every upload of a run is the status of some
    commit, and nothing is deleted, whatever the commands do (their output
    is printed instead). *)
Theorem run_once_without_archive_stores_status_only
    {W} (h : handler W) (w : W) bucket commands fuel :
  Forall (λ x : obs, writes_status_only bucket (projT1 x))
    (observed (exec h (run_once_on bucket commands fuel false) w)).
Proof.
  apply (wp_exec h _ (λ tr _, Forall (λ x : obs, writes_status_only bucket (projT1 x)) tr) w).
  apply performs_wp, run_once_on_writes_status_only.
Qed.

(** ** The process exit code *)

Lemma execute_wait_no_exit fuel begin t :
  wp (execute_wait fuel begin t) (λ _ o, ∀ c, o ≠ Exited c).
Proof.
  revert t. induction fuel as [|fuel IH]; intros t; cbn; [done|].
  intros [rc|]; cbn; [done|]. intros now.
  destruct (decide _); cbn; intros; (eapply wp_mono; [|apply IH]); done.
Qed.

Lemma execute_no_exit bucket fuel cmd archive env :
  wp (execute bucket fuel cmd archive env) (λ _ o, ∀ c, o ≠ Exited c).
Proof.
  unfold execute. destruct (decide _); [done|]. unfold with_TempDir. cbn.
  intros temp. apply wp_finally_RmTemp. cbn. intros [|]; cbn; [|done]. intros begin.
  apply wp_bind. eapply wp_mono; [|apply execute_wait_no_exit].
  intros tr [[rc t]| |code| |] Ho; cbn [bind_post]; try done; try (by destruct (Ho code)).
  apply wp_bind. destruct (decide _); [|done].
  unfold handle_output, archive_log. destruct archive; cbn; intros; done.
Qed.

Lemma run_once_on_no_exit bucket commands fuel archive :
  wp (run_once_on bucket commands fuel archive) (λ _ o, ∀ c, o ≠ Exited c).
Proof.
  unfold run_once_on. cbn. intros sha environ. apply wp_bind.
  assert (wp (comprehension commands
                (λ cmd, execute bucket fuel cmd archive
                          (Some (<["R8_GRADLE_CORES_PER_FORK" := "16"]> environ))))
            (λ _ o, ∀ c, o ≠ Exited c)) as Hall.
  { induction commands as [|cmd commands IH]; cbn [comprehension]; [done|].
    apply wp_bind. eapply wp_mono; [|apply execute_no_exit].
    intros tr [v| |code| |] Ho; cbn [bind_post]; try done; try (by destruct (Ho code)).
    apply wp_bind. eapply wp_mono; [|exact IH].
    intros tr' [vs| |code| |] Ho'; cbn [bind_post]; try done; try (by destruct (Ho' code)). }
  eapply wp_mono; [|exact Hall].
  intros tr [vs| |code| |] Ho; cbn [bind_post]; try done; try (by destruct (Ho code)).
Qed.
Lemma script_run_once_exit_code bucket opts fuel cmd_fuel :
  continuous opts = false → bot opts = false → print_logs opts = None →
  wp (script bucket opts fuel cmd_fuel) (λ tr o, ∀ c, o = Exited c →
    c = if existsb record_failed (execution_records tr) then 1 else 0).
Proof.
  intros Hcontinuous Hbot Hlogs. unfold script, Main.
  rewrite Hcontinuous, Hbot, Hlogs. cbn [from_option Py.truthy]. unfold run_once.
  apply wp_bind. eapply wp_mono;
    [|apply wp_conj;
      [apply (run_once_on_records bucket TEST_COMMANDS cmd_fuel (archive opts))
      |apply (run_once_on_no_exit bucket TEST_COMMANDS cmd_fuel (archive opts))]].
  intros tr [v| |code| |] [Hv Hexit]; cbn [bind_post]; try done;
    try (by destruct (Hexit code)).
  destruct (Hv v eq_refl) as [-> _]. cbn. intros c [= <-]. by rewrite app_nil_r.
Qed.

(** X5: the exit status of a plain run of the script (neither
    [--continuous] nor [--bot] nor [--print_logs]).  Whenever the process
    ends through [sys.exit(Main())], its status is 1 if some command ended
    with a non-zero exit code and 0 otherwise. *)
Theorem run_once_exit_code
    {W} (h : handler W) (w : W) bucket opts fuel cmd_fuel c :
  let r := exec h (script bucket opts fuel cmd_fuel) w in
  continuous opts = false → bot opts = false → print_logs opts = None →
  outcome_of r = Exited c →
  (c = 0 ∨ c = 1)
  ∧ (c = 1 ↔ ∃ rec, rec ∈ execution_records (observed r) ∧ exit_code rec ≠ 0).
Proof.
  intros r Hcontinuous Hbot Hlogs Hr.
  pose proof (wp_exec h _ _ w
                (script_run_once_exit_code bucket opts fuel cmd_fuel Hcontinuous Hbot Hlogs)
                c Hr) as Hc.
  fold r in Hc. destruct (existsb record_failed (execution_records (observed r))) eqn:Hany.
  - split; [by right|]. split; [|done]. intros _.
    apply existsb_exists in Hany as (rec & Hin & Hrec). exists rec.
    split; [by apply list_elem_of_In|]. by apply bool_decide_eq_true in Hrec.
  - split; [by left|]. split; [by subst c|]. intros (rec & Hin & Hrec).
    assert (existsb record_failed (execution_records (observed r)) = true) as Hyes.
    { apply existsb_exists. exists rec. split; [by apply list_elem_of_In|].
      by apply bool_decide_eq_true. }
    congruence.
Qed.

Lemma run_once_exit_code_witness :
  let r := exec (on_cloud scripted_oracle) (script example_bucket plain_options 0 1)
             failing_child in
  (1 = 0 ∨ 1 = 1)
  ∧ (1 = 1 ↔ ∃ rec, rec ∈ execution_records (observed r) ∧ exit_code rec ≠ 0).
Proof.
  apply (run_once_exit_code (on_cloud scripted_oracle) failing_child example_bucket
           plain_options 0 1 1); [reflexivity..|].
  vm_compute. reflexivity.
Defined.

Lemma git_checkout_exit git_hash :
  wp (git_checkout git_hash) (λ _ o, ∀ c, o = Exited c → c = 1).
Proof.
  unfold git_checkout, git_pull, ensure_git_clean, subprocess.check_output,
    subprocess.check_call, subprocess.call, utils.get_HEAD_sha1. cbn.
  intros [diff|]; cbn; [|done]. destruct (decide _); cbn; [by intros ? [= <-]|].
  intros [diff'|]; cbn; [|done]. destruct (decide _); cbn; [by intros ? [= <-]|].
  intros rc1. destruct (decide _); cbn; [|done].
  intros rc2. destruct (decide _); cbn; [|done].
  intros sha0 rc. destruct (decide _); cbn; [done|]. by intros sha.
Qed.

Lemma print_magic_file_state_returns bucket :
  wp (print_magic_file_state bucket) (λ _ o, o = Returned tt).
Proof.
  unfold print_magic_file_state, ALL_MAGIC. cbn.
  repeat (intros [|]; cbn; [intros [?|]; cbn|]); done.
Qed.

Lemma run_continuously_iteration_exit bucket cmd_fuel own_content :
  wp (run_continuously_iteration bucket cmd_fuel own_content)
    (λ _ o, ∀ c, o = Exited c → c = 1).
Proof.
  unfold run_continuously_iteration.
  apply wp_bind. unfold restart_if_new_version at 1. cbn. intros new_content.
  destruct (decide _); cbn; [done|].
  apply wp_bind. eapply wp_mono; [|apply print_magic_file_state_returns].
  intros tr ? ->. cbn [bind_post]. cbn. intros [|]; cbn; [|done].
  intros [git_hash|]; cbn; [|done].
  apply wp_bind. eapply wp_mono; [|apply git_checkout_exit].
  intros tr' [checked_out| |code| |] Ho; cbn [bind_post]; try done;
    try (intros c [= <-]; by apply Ho).
  destruct (not_checked_out checked_out).
  - unfold archive_status. cbn. done.
  - apply wp_bind. unfold restart_if_new_version. cbn. intros new_content'.
    destruct (decide _); cbn; [done|]. destruct (decide _); cbn; [by intros ? [= <-]|].
    intros _ _. apply wp_bind. unfold run_once.
    eapply wp_mono; [|apply (run_once_on_no_exit bucket TEST_COMMANDS cmd_fuel true)].
    intros tr'' [v| |code| |] Ho'; cbn [bind_post]; try done.
    by destruct (Ho' code).
Qed.

Lemma run_continuously_ends bucket fuel cmd_fuel :
  wp (run_continuously bucket fuel cmd_fuel) (λ _ o,
    (∀ a, o ≠ Returned a) ∧ ∀ c, o = Exited c → c = 1).
Proof.
  unfold run_continuously. cbn. intros own_content.
  induction fuel as [|fuel IH]; cbn [run_continuously_loop]; [done|].
  apply wp_bind. eapply wp_mono; [|apply run_continuously_iteration_exit].
  intros tr [sleep| |code| |] Ho; cbn [bind_post]; try done.
  - apply wp_bind. destruct sleep; cbn.
    + intros _. eapply wp_mono; [|exact IH]. done.
    + eapply wp_mono; [|exact IH]. done.
  - split; [done|]. intros c [= <-]. by apply Ho.
Qed.

(** X6: the tester ([--continuous]) never ends well.  Its loop
    [run_continuously] never returns, and whenever the process exits, the
    exit status is 1: the repository has local modifications, or the
    checkout left another commit than the one offered. *)
Theorem tester_never_exits_with_success
    {W} (h : handler W) (w : W) bucket opts fuel cmd_fuel :
  continuous opts = true →
  (∀ a, outcome_of (exec h (run_continuously bucket fuel cmd_fuel) w) ≠ Returned a)
  ∧ (∀ c, outcome_of (exec h (script bucket opts fuel cmd_fuel) w) = Exited c → c = 1).
Proof.
  intros Hcontinuous. split.
  - by apply (wp_exec h _ _ w (run_continuously_ends bucket fuel cmd_fuel)).
  - assert (wp (script bucket opts fuel cmd_fuel) (λ _ o, ∀ c, o = Exited c → c = 1))
      as Hwp.
    { unfold script, Main. rewrite Hcontinuous.
      apply wp_bind. apply wp_bind.
      eapply wp_mono; [|apply run_continuously_ends].
      intros tr [[]| |code| |] [Hret Hexit]; cbn [bind_post]; try done.
      - by destruct (Hret tt).
      - intros c' [= <-]. by apply Hexit. }
    by apply (wp_exec h _ _ w Hwp).
Qed.

Lemma tester_never_exits_with_success_witness :
  outcome_of (exec (on_cloud scripted_oracle) (script example_bucket continuous_options 1 1)
                dirty_repo) = Exited 1
  ∧ (∀ a, outcome_of (exec (on_cloud scripted_oracle) (run_continuously example_bucket 1 1)
                        dirty_repo) ≠ Returned a)
  ∧ (∀ c, outcome_of (exec (on_cloud scripted_oracle)
                        (script example_bucket continuous_options 1 1) dirty_repo)
          = Exited c → c = 1).
Proof.
  split; [vm_compute; reflexivity|].
  apply (tester_never_exits_with_success (on_cloud scripted_oracle) dirty_repo
           example_bucket continuous_options 1 1).
  reflexivity.
Defined.

(** * The bot, from its offer on *)

(** A postcondition that events of a kind [N] at the front of the trace do
    not disturb holds after a prefix of such events. *)
Lemma wp_bind_prefix {A B} (N : event → Prop) (Q : list obs → outcome B → Prop)
    (p : prog A) (f : A → prog B) :
  (∀ x tr o, N (projT1 x) → Q tr o → Q (x :: tr) o) →
  (∀ o, Q [] o) →
  performs N p → (∀ a, wp (f a) Q) → wp (p ≫= f) Q.
Proof.
  intros Hcons Hnil Hp Hf. rewrite bind_unfold.
  induction p as [a|e k IH|x|c| |]; simpl; auto.
  destruct Hp as [He Hk]. intros y. eapply wp_mono; [|apply IH, Hk].
  simpl. intros tr o Htr. by apply (Hcons (existT e y)).
Qed.

(** The events of [run_bot] before its offer. *)
Lemma run_bot_prefix bucket (Q : list obs → outcome Py.value → Prop) fuel :
  (∀ x tr o, (match projT1 x with
              | FileExists _ | Cat _ | Delete _ | HeadSha1 => True
              | _ => False
              end) → Q tr o → Q (x :: tr) o) →
  (∀ o, Q [] o) →
  (∀ git_hash,
     wp (begin ← trigger Time; run_bot_collect bucket fuel git_hash begin)
       (λ tr o, Q (existT (Upload (get_magic_file_gs_path bucket READY_FOR_TESTING) git_hash)
                      tt :: tr) o)) →
  wp (run_bot bucket fuel) Q.
Proof.
  intros Hcons Hnil Hrest. unfold run_bot.
  set (N := λ e, match e with
                 | FileExists _ | Cat _ | Delete _ | HeadSha1 => True
                 | _ => False
                 end).
  apply (wp_bind_prefix N); [done|done| |intros _].
  { eapply performs_impl; [|apply print_magic_file_state_reads]. by intros []. }
  apply (wp_bind_prefix N); [done|done| |intros _].
  { apply performs_for_each. intros magic. cbn. split; [done|]. by intros [|]. }
  apply (wp_bind_prefix N); [done|done| |intros _].
  { eapply performs_impl; [|apply print_magic_file_state_reads]. by intros []. }
  apply (wp_bind_prefix N); [done|done|by cbn|intros [|]]; [apply Hnil|].
  apply (wp_bind_prefix N); [done|done|by cbn|intros git_hash].
  cbn. intros []. apply Hrest.
Qed.

Lemma wp_first {A} (P : event → Prop) (p : prog A) :
  match p with Vis e _ => P e | _ => True end →
  wp p (λ tr _, ∀ x tr', tr = x :: tr' → P (projT1 x)).
Proof.
  destruct p as [a|e k|x|c| |]; cbn; try done.
  intros He y. eapply wp_mono; [|apply wp_true]. by intros tr o _ x tr' [= <- _].
Qed.

Lemma run_bot_collect_starts_with_clock bucket fuel git_hash begin :
  wp (run_bot_collect bucket fuel git_hash begin)
    (λ tr _, ∀ x tr', tr = x :: tr' → projT1 x = Time).
Proof.
  apply (wp_first (λ e, e = Time)). unfold run_bot_collect. by destruct fuel.
Qed.

Lemma run_bot_collect_no_upload bucket fuel git_hash begin :
  performs (λ e, ∀ path content, e ≠ Upload path content)
    (run_bot_collect bucket fuel git_hash begin).
Proof.
  unfold run_bot_collect. apply performs_bind; [apply run_bot_wait_no_upload|].
  intros _. cbn. split; [done|]. intros _. unfold get_status. cbn. split; [done|].
  intros [status|]; cbn; [|done]. split; [done|]. intros _.
  destruct (decide _); cbn; done.
Qed.

(** What a run of [run_bot_collect] for [git_hash] gives for [run_bot]: in
    the trace of [run_bot], an upload of [READY_FOR_TESTING] is the one of
    [git_hash], and a poll is one of [run_bot_collect]. *)
Lemma run_bot_from_offer bucket fuel
    (F : string → list obs → list obs → outcome Py.value → Prop)
    (pattern : list obs) :
  (∃ now rest, pattern = existT Time now :: rest) →
  Forall (λ x : obs, ∀ path content, projT1 x ≠ Upload path content) pattern →
  (2 ≤ List.length pattern)%nat →
  (∀ x, pattern !! 1%nat = Some x → projT1 x ≠ Time) →
  (∀ git_hash begin,
     wp (run_bot_collect bucket fuel git_hash begin) (λ tr o,
       ∀ pre post, tr = pre ++ pattern ++ post → F git_hash pre post o)) →
  wp (run_bot bucket fuel) (λ tr o,
    ∀ git_hash,
      existT (Upload (get_magic_file_gs_path bucket READY_FOR_TESTING) git_hash) tt ∈ tr →
      ∀ pre post, tr = pre ++ pattern ++ post → ∃ pre', F git_hash pre' post o).
Proof.
  intros (now & rest & ->) Hpat Hlen Hsnd Hcollect.
  apply run_bot_prefix.
  - intros x tr o Hx Htr git_hash Hin pre post Heq.
    apply elem_of_cons in Hin as [Hin|Hin].
    { apply (f_equal (λ o : obs, projT1 o)) in Hin. rewrite <-Hin in Hx. done. }
    destruct pre as [|y pre]; cbn in Heq; apply cons_eq_inv in Heq as [-> Heq].
    { done. }
    by apply (Htr git_hash Hin pre post).
  - by intros o git_hash ?%elem_of_nil.
  - intros git_hash. cbn. intros begin.
    eapply wp_mono;
      [|apply wp_conj;
        [apply (Hcollect git_hash begin)
        |apply wp_conj;
          [apply performs_wp, run_bot_collect_no_upload
          |apply run_bot_collect_starts_with_clock]]].
    cbn beta. intros tr o (Hfound & Hquiet & Hstart) g Hin pre post Heq.
    assert (g = git_hash) as ->.
    { apply elem_of_cons in Hin as [Hin|Hin]; [by apply upload_obs_inv in Hin as [_ ->]|].
      apply elem_of_cons in Hin as [Hin|Hin]; [obs_clash Hin|].
      eapply Forall_forall in Hquiet; [|done]. by destruct (Hquiet _ _ eq_refl). }
    destruct pre as [|x pre]; cbn in Heq; apply cons_eq_inv in Heq as [Hx Heq].
    { obs_clash Hx. }
    destruct pre as [|y pre]; cbn in Heq; apply cons_eq_inv in Heq as [Hy Heq].
    { exfalso. destruct rest as [|z rest]; [cbn in Hlen; lia|].
      cbn in Heq. specialize (Hstart z (rest ++ post) Heq).
      by apply (Hsnd z). }
    exists pre. by apply Hfound.
Qed.

(** C6: in every run of [run_bot], whatever the store, the clock and a
    tester do: when the bot, after it has offered [git_hash] (written it to
    [READY_FOR_TESTING]), polls (reads the clock, finds [TESTING_COMPLETE]
    present and reads its content) and the content is not [git_hash], the
    run ends with an exception right there: the only event that follows is
    the second read of [TESTING_COMPLETE] for the message; the status is
    not read and nothing is deleted. *)
Theorem bot_raises_on_foreign_finished
    {W} (h : handler W) (w : W) bucket fuel git_hash pre mid now payload post :
  let r := exec h (run_bot bucket fuel) w in
  let offered := get_magic_file_gs_path bucket READY_FOR_TESTING in
  let finished := get_magic_file_gs_path bucket TESTING_COMPLETE in
  observed r = pre ++ existT (Upload offered git_hash) tt
                 :: mid ++ existT Time now
                 :: existT (FileExists finished) true
                 :: existT (Cat finished) (Some payload)
                 :: post →
  payload ≠ git_hash →
  ∃ again,
    post = [existT (Cat finished) again]
    ∧ outcome_of r
      = Raised
          match again with
          | Some payload' =>
              Exception ("Non matching git hashes " +:+ payload'
                         +:+ " and " +:+ git_hash)
          | None => CalledProcessError
          end
    ∧ ∀ o : obs, o ∈ post →
        (∀ path, projT1 o ≠ Delete path)
        ∧ ∀ sha, projT1 o ≠ Cat ("gs://" +:+ get_sha_destination bucket sha +:+ "/status").
Proof.
  intros r offered finished Htr Hp.
  assert (wp (run_bot bucket fuel) (λ tr o,
    ∀ git_hash,
      existT (Upload offered git_hash) tt ∈ tr →
      ∀ pre post,
        tr = pre ++ [existT Time now; existT (FileExists finished) true;
                     existT (Cat finished) (Some payload)] ++ post →
        ∃ _ : list obs,
          payload ≠ git_hash →
          ∃ again,
            post = [existT (Cat finished) again]
            ∧ o = Raised
                    match again with
                    | Some payload' =>
                        Exception ("Non matching git hashes " +:+ payload'
                                   +:+ " and " +:+ git_hash)
                    | None => CalledProcessError
                    end)) as Hwp.
  { apply (run_bot_from_offer bucket fuel
             (λ git_hash _ post o,
                payload ≠ git_hash →
                ∃ again,
                  post = [existT (Cat finished) again]
                  ∧ o = Raised
                          match again with
                          | Some payload' =>
                              Exception ("Non matching git hashes " +:+ payload'
                                         +:+ " and " +:+ git_hash)
                          | None => CalledProcessError
                          end)).
    - by eexists _, _.
    - by repeat constructor.
    - cbn. lia.
    - intros x [= <-]. cbn. discriminate.
    - intros g begin. eapply wp_mono; [|apply run_bot_collect_foreign].
      cbn beta. intros tr o Hfound pre' post' Heq. by apply (Hfound pre' now payload post'). }
  pose proof (wp_exec h _ _ w Hwp) as Hrun.
  cbn beta in Hrun. fold r in Hrun.
  destruct (Hrun git_hash) with (pre := pre ++ existT (Upload offered git_hash) tt :: mid)
                                (post := post)
    as (_ & again & -> & Ho); [| |done|].
  - rewrite Htr. apply elem_of_app. right. by apply list_elem_of_here.
  - rewrite Htr. by rewrite <-app_assoc.
  - exists again. split; [done|]. split; [done|].
    intros o ->%list_elem_of_singleton. simpl. split; [done|].
    intros sha Heq. unfold finished in Heq.
    assert (get_magic_file_gs_path bucket TESTING_COMPLETE
            = "gs://" +:+ get_sha_destination bucket sha +:+ "/status") as Hpath
      by congruence.
    revert Hpath. apply magic_not_status. apply list_elem_of_In. cbv. tauto.
Qed.

Lemma bot_raises_on_foreign_finished_witness :
  let r := exec (with_stale_round example_bucket) (run_bot example_bucket 3) bot_at_abc in
  let finished := get_magic_file_gs_path example_bucket TESTING_COMPLETE in
  ∃ again,
    ([existT (Cat finished) (Some "old")] : list obs) = [existT (Cat finished) again]
    ∧ outcome_of r
      = Raised
          match again with
          | Some payload' =>
              Exception ("Non matching git hashes " +:+ payload'
                         +:+ " and " +:+ "abc")
          | None => CalledProcessError
          end
    ∧ ∀ o : obs, o ∈ [existT (Cat finished) (Some "old")] →
        (∀ path, projT1 o ≠ Delete path)
        ∧ ∀ sha, projT1 o ≠ Cat ("gs://" +:+ get_sha_destination example_bucket sha
                                  +:+ "/status").
Proof.
  intros r.
  apply (bot_raises_on_foreign_finished (with_stale_round example_bucket) bot_at_abc
           example_bucket 3 "abc" (take 11 (observed r)) (take 8 (drop 12 (observed r)))
           0 "old").
  - vm_compute. reflexivity.
  - discriminate.
Defined.

(** A poll of [run_bot_wait] that reads [git_hash] from [TESTING_COMPLETE]
    ends the loop: what follows is the rest of [run_bot]. *)
Lemma run_bot_wait_matching {A} bucket fuel git_hash begin (k : unit → prog A)
    (K : list obs → outcome A → Prop) :
  wp (k tt) (λ tr o,
    K tr o
    ∧ ∀ pre now (b : bool) post,
        tr ≠ pre ++ existT Time now
               :: existT (FileExists (get_magic_file_gs_path bucket TESTING_COMPLETE)) b
               :: post) →
  wp (run_bot_wait bucket fuel git_hash begin ≫= k) (λ tr o,
    ∀ pre now post,
      tr = pre ++ existT Time now
             :: existT (FileExists (get_magic_file_gs_path bucket TESTING_COMPLETE)) true
             :: existT (Cat (get_magic_file_gs_path bucket TESTING_COMPLETE)) (Some git_hash)
             :: post →
      K post o).
Proof.
  intros Hk. induction fuel as [|fuel IH]; cbn.
  { by intros [|? ?]. }
  intros now0. destruct (decide _) as [Hlate|Hlate]; cbn.
  { by intros [|? [|? ?]]. }
  intros [|]; cbn.
  - intros [content|]; cbn.
    + destruct (decide (content = git_hash)) as [->|Hne]; cbn.
      * eapply wp_mono; [|apply Hk]. cbn.
        intros tr o [HK Htr] [|? [|? [|? pre]]] now post Heq.
        -- uncons Heq. by subst post.
        -- uncons Heq. obs_clash Hhd0.
        -- uncons Heq. obs_clash Hhd1.
        -- uncons Heq. by destruct (Htr pre now true
                (existT (Cat (get_magic_file_gs_path bucket TESTING_COMPLETE))
                   (Some git_hash) :: post)).
      * intros again. destruct again as [payload'|]; cbn.
        all: intros [|? [|? [|? [|? [|? ?]]]]] now post Heq; try done.
        all: uncons Heq; try (by obs_clash Hhd0).
        all: apply obs_inj in Hhd1; simpl in Hhd1; congruence.
    + intros [|? [|? [|? [|? ?]]]] now post Heq; try done.
      uncons Heq. by apply obs_inj in Hhd1.
  - apply wp_bind_assoc, wp_bind.
    eapply wp_mono; [|apply performs_wp, print_magic_file_state_reads].
    intros trp [[]| | | |] Hreads; cbn.
    2-5: intros [|? [|? pre]] now post Heq; simpl in Heq;
      apply cons_eq_inv in Heq as [_ Heq];
      [apply cons_eq_inv in Heq as [Heq _]; by apply obs_inj in Heq
      |apply cons_eq_inv in Heq as [Heq _]; obs_clash Heq
      |apply cons_eq_inv in Heq as [_ Heq]; rewrite <-(app_nil_r trp) in Heq;
       symmetry in Heq;
       apply (app_cons_skip (λ o, projT1 o = Time)) in Heq as (pre' & _ & Heq);
       [by destruct pre'| |done];
       eapply Forall_impl; [apply Hreads|]; by intros [[] ?] ?].
    intros []. eapply wp_mono; [|apply IH]. cbn.
    intros tr o Htr [|? [|? pre]] now post Heq; simpl in Heq.
    + apply cons_eq_inv in Heq as [_ Heq]. apply cons_eq_inv in Heq as [Heq _].
      by apply obs_inj in Heq.
    + apply cons_eq_inv in Heq as [_ Heq]. apply cons_eq_inv in Heq as [Heq _].
      obs_clash Heq.
    + apply cons_eq_inv in Heq as [_ Heq]. apply cons_eq_inv in Heq as [_ Heq].
      change (existT (Sleep PULL_DELAY) () :: tr)
        with ([existT (Sleep PULL_DELAY) ()] ++ tr) in Heq.
      rewrite app_assoc in Heq. symmetry in Heq.
      apply (app_cons_skip (λ o, projT1 o = Time)) in Heq as (pre' & -> & ->); [| |done].
      * by apply (Htr pre' now post).
      * apply Forall_app. split; [|by repeat constructor].
        eapply Forall_impl; [apply Hreads|]. by intros [[] ?] ?.
Qed.
Lemma run_bot_collect_matching bucket fuel git_hash begin :
  wp (run_bot_collect bucket fuel git_hash begin) (λ tr o,
    ∀ pre now post,
      tr = pre ++ existT Time now
             :: existT (FileExists (get_magic_file_gs_path bucket TESTING_COMPLETE)) true
             :: existT (Cat (get_magic_file_gs_path bucket TESTING_COMPLETE)) (Some git_hash)
             :: post →
      collected bucket git_hash post o).
Proof.
  unfold run_bot_collect. apply run_bot_wait_matching. cbn.
  intros t. unfold get_status; cbn. intros [status|]; cbn.
  2: { split; [by exists t, None, []|].
       intros [|? pre] now b post Heq; uncons Heq; [obs_clash Hhd0|].
       revert Heq. apply no_time_no_poll. by repeat constructor. }
  intros []. destruct (decide _); cbn.
  1: intros [] [].
  all: split; [unfold collected; do 3 eexists; split; [reflexivity|]; cbn;
               split; [by eexists|]; by rewrite ?decide_True, ?decide_False by done|].
  all: intros [|? pre] now b post Heq; uncons Heq; [obs_clash Hhd0|].
  all: revert Heq; apply no_time_no_poll; by repeat constructor.
Qed.

Lemma run_bot_collected bucket fuel X now :
  wp (run_bot bucket fuel) (λ tr o,
    ∀ git_hash,
      existT (Upload (get_magic_file_gs_path bucket READY_FOR_TESTING) git_hash) tt ∈ tr →
      ∀ pre post,
        tr = pre ++ [existT Time now;
                     existT (FileExists (get_magic_file_gs_path bucket TESTING_COMPLETE)) true;
                     existT (Cat (get_magic_file_gs_path bucket TESTING_COMPLETE)) (Some X)]
                 ++ post →
        ∃ _ : list obs, X = git_hash → collected bucket git_hash post o).
Proof.
  apply (run_bot_from_offer bucket fuel
           (λ git_hash _ post o, X = git_hash → collected bucket git_hash post o)).
  - by eexists _, _.
  - by repeat constructor.
  - cbn. lia.
  - intros x [= <-]. cbn. discriminate.
  - intros g begin. eapply wp_mono; [|apply run_bot_collect_matching].
    cbn beta. intros tr o Hfound pre' post' Heq ->. by apply (Hfound pre' now post').
Qed.

(** C7: in every run of the script as bot ([--bot], not [--continuous]),
    whatever the store, the clock and a tester do: when the handoff of the
    commit [X] completes, that is, the bot has offered [X] and a poll reads
    [X] from [TESTING_COMPLETE], the bot reads the clock and then the
    overall status stored for [X].  When the store has a status, the bot
    deletes [TESTING_COMPLETE] and the process exits with status 0 if the
    status is "0" and with status 1 otherwise, so with a non-zero status if
    it is "1"; when the store has none, the run ends with an exception. *)
Theorem bot_exit_code_follows_status
    {W} (h : handler W) (w : W) bucket opts fuel cmd_fuel X pre mid now post :
  let r := exec h (script bucket opts fuel cmd_fuel) w in
  let offered := get_magic_file_gs_path bucket READY_FOR_TESTING in
  let finished := get_magic_file_gs_path bucket TESTING_COMPLETE in
  continuous opts = false → bot opts = true →
  observed r = pre ++ existT (Upload offered X) tt
                 :: mid ++ existT Time now
                 :: existT (FileExists finished) true
                 :: existT (Cat finished) (Some X)
                 :: post →
  ∃ now' answer rest,
    post = existT Time now'
           :: existT (Cat ("gs://" +:+ get_sha_destination bucket X +:+ "/status")) answer
           :: rest
    ∧ match answer with
      | Some status =>
          (∃ prints, rest = existT (Delete finished) tt :: prints)
          ∧ outcome_of r = Exited (if decide (status = "0") then 0 else 1)
          ∧ (status = "1" →
             ∃ code, process_exit_code (outcome_of r) = Some code ∧ code ≠ 0)
          ∧ (status = "0" → process_exit_code (outcome_of r) = Some 0)
      | None => rest = [] ∧ outcome_of r = Raised CalledProcessError
      end.
Proof.
  intros r offered finished Hcontinuous Hbot Htr.
  assert (wp (script bucket opts fuel cmd_fuel) (λ tr o,
    ∀ pre post,
      existT (Upload offered X) tt ∈ tr →
      tr = pre ++ [existT Time now; existT (FileExists finished) true;
                   existT (Cat finished) (Some X)] ++ post →
      ∃ now' answer rest,
        post = existT Time now'
               :: existT (Cat ("gs://" +:+ get_sha_destination bucket X +:+ "/status"))
                    answer
               :: rest
        ∧ match answer with
          | Some status =>
              (∃ prints, rest = existT (Delete finished) tt :: prints)
              ∧ o = Exited (if decide (status = "0") then 0 else 1)
          | None => rest = [] ∧ o = Raised CalledProcessError
          end)) as Hwp.
  { unfold script, Main. rewrite Hcontinuous, Hbot. apply wp_bind.
    eapply wp_mono; [|apply (run_bot_collected bucket fuel X now)].
    cbn beta. intros tr o Hrun.
    assert (∀ pre post,
              existT (Upload offered X) tt ∈ tr →
              tr = pre ++ [existT Time now; existT (FileExists finished) true;
                           existT (Cat finished) (Some X)] ++ post →
              collected bucket X post o) as Hcollected.
    { intros pre' post' Hin Heq. destruct (Hrun X Hin pre' post' Heq) as [_ H]. by apply H. }
    clear Hrun.
    destruct o as [v| | | |]; cbn; rewrite ?app_nil_r; intros pre' post' Hin Heq.
    all: destruct (Hcollected pre' post' Hin Heq) as (now' & answer & rest & -> & Hans).
    all: exists now', answer, rest; split; [done|].
    all: destruct answer as [status|];
      [destruct Hans as [Hprints Ho]|destruct Hans as [-> Ho]]; try done.
    - injection Ho as ->. split; [done|].
      by destruct (decide (status = "0")), (decide (status ≠ "0")).
    - by injection Ho as ->. }
  pose proof (wp_exec h _ _ w Hwp (pre ++ existT (Upload offered X) tt :: mid) post)
    as Hrun.
  cbn beta in Hrun. fold r in Hrun.
  destruct Hrun as (now' & answer & rest & -> & Hans).
  - rewrite Htr. apply elem_of_app. right. by apply list_elem_of_here.
  - rewrite Htr. by rewrite <-app_assoc.
  - exists now', answer, rest. split; [done|].
    destruct answer as [status|]; [|done].
    destruct Hans as [Hprints Ho]. split; [done|]. split; [done|]. rewrite Ho. split.
    + intros ->. by exists 1.
    + by intros ->.
Qed.

Lemma bot_exit_code_follows_status_witness :
  let r := exec (with_tester example_bucket 1 "")
             (script example_bucket bot_options 3 0) failing_tests in
  let finished := get_magic_file_gs_path example_bucket TESTING_COMPLETE in
  ∃ now' answer rest,
    drop 23 (observed r)
    = existT Time now'
      :: existT (Cat ("gs://" +:+ get_sha_destination example_bucket "abc" +:+ "/status"))
           answer
      :: rest
    ∧ match answer with
      | Some status =>
          (∃ prints, rest = existT (Delete finished) tt :: prints)
          ∧ outcome_of r = Exited (if decide (status = "0") then 0 else 1)
          ∧ (status = "1" →
             ∃ code, process_exit_code (outcome_of r) = Some code ∧ code ≠ 0)
          ∧ (status = "0" → process_exit_code (outcome_of r) = Some 0)
      | None => rest = [] ∧ outcome_of r = Raised CalledProcessError
      end.
Proof.
  intros r.
  apply (bot_exit_code_follows_status (with_tester example_bucket 1 "") failing_tests
           example_bucket bot_options 3 0 "abc"
           (take 11 (observed r)) (take 8 (drop 12 (observed r))) 0
           (drop 23 (observed r))).
  - reflexivity.
  - reflexivity.
  - vm_compute. reflexivity.
Defined.

(** * The command runner and the timeout *)

(** In the wait loop the clock is read only after a poll that found the
    child running. *)
Lemma execute_wait_clock fuel begin t :
  wp (execute_wait fuel begin t) (λ tr _,
    ∀ (rest : list obs) j now,
      Forall (λ o : obs, projT1 o ≠ Time) rest →
      (tr ++ rest) !! j = Some (existT Time now) →
      ∃ i, j = S i ∧ (tr ++ rest) !! i = Some (existT Poll None)).
Proof.
  assert (∀ (rest : list obs) j now,
            Forall (λ o : obs, projT1 o ≠ Time) rest →
            rest !! j = Some (existT Time now) → False) as Hrest.
  { intros rest j now Hrest Hj. eapply Forall_lookup_1 in Hrest; [|done]. done. }
  revert t. induction fuel as [|fuel IH]; intros t; simpl.
  { intros rest j now Hr Hj. by destruct (Hrest _ _ _ Hr Hj). }
  intros [rc|]; simpl.
  - intros rest [|j] now Hr Hj; simpl in *; [done|]. by destruct (Hrest _ _ _ Hr Hj).
  - intros now0. destruct (decide _); simpl.
    + intros [] []. eapply wp_mono; [|apply (IH true)]. simpl.
      intros tr o Htr rest [|[|[|[|j]]]] now Hr Hj; simpl in *; try done.
      * by exists 0%nat.
      * destruct (Htr rest j now Hr Hj) as (i & -> & Hi). by exists (S (S (S (S i)))).
    + intros []. eapply wp_mono; [|apply (IH t)]. simpl.
      intros tr o Htr rest [|[|[|j]]] now Hr Hj; simpl in *; try done.
      * by exists 0%nat.
      * destruct (Htr rest j now Hr Hj) as (i & -> & Hi). by exists (S (S (S i))).
Qed.

Lemma handle_output_no_clock bucket archive stderr stdout exitcode timed_out cmd :
  performs (λ e, e ≠ Time)
    (handle_output bucket archive stderr stdout exitcode timed_out cmd).
Proof.
  destruct archive; simpl; repeat first [split; [discriminate|] | intros ? | exact I].
Qed.

Lemma handle_output_hands_on bucket archive stderr stdout exitcode timed_out cmd :
  wp (handle_output bucket archive stderr stdout exitcode timed_out cmd)
    (λ tr _, hands_on bucket archive cmd timed_out tr).
Proof.
  unfold handle_output, hands_on, archive_log. destruct archive; cbn.
  - intros sha [] [] out [] err []. exists sha.
    do 2 apply list_elem_of_further. apply list_elem_of_here.
  - intros [] [] [] err [] out []. do 2 apply list_elem_of_further. apply list_elem_of_here.
Qed.

(** In [execute] the clock is read at the start of the child and, after
    that, only in the wait loop. *)
Lemma execute_clock bucket fuel cmd archive env :
  wp (execute bucket fuel cmd archive env) (λ tr _,
    ∀ j now, (2 < j)%nat → tr !! j = Some (existT Time now) →
             ∃ i, j = S i ∧ tr !! i = Some (existT Poll None)).
Proof.
  unfold execute. destruct (decide (cmd = [])) as [->|Hcmd]; simpl; [done|].
  intros temp [|]; apply wp_finally_RmTemp; simpl.
  2: { intros [|[|[|[|j]]]] now Hj; simpl; try done; lia. }
  intros begin. apply wp_bind.
  eapply wp_mono; [|apply execute_wait_clock]. simpl. intros tr o Hclock.
  assert (∀ (rest : list obs) j now,
            Forall (λ o : obs, projT1 o ≠ Time) rest → (2 < j)%nat →
            (existT TempDir temp
             :: existT (Popen cmd env (Py.os_path_join temp "stdout")
                          (Py.os_path_join temp "stderr")) true
             :: existT Time begin :: tr ++ rest) !! j = Some (existT Time now) →
            ∃ i, j = S i
                 ∧ (existT TempDir temp
                    :: existT (Popen cmd env (Py.os_path_join temp "stdout")
                                 (Py.os_path_join temp "stderr")) true
                    :: existT Time begin :: tr ++ rest) !! i = Some (existT Poll None))
    as Hlift.
  { intros rest [|[|[|j]]] now Hr Hlt Hj; simpl in *; try lia.
    destruct (Hclock rest j now Hr Hj) as (i & -> & Hi). by exists (S (S (S i))). }
  destruct o as [[rc t]| | | |]; simpl.
  - apply wp_bind.
    assert (wp (if decide (rc ≠ 0)
                then handle_output bucket archive (Py.os_path_join temp "stderr")
                       (Py.os_path_join temp "stdout") rc t (Py.join " " cmd)
                else Ret tt)
              (λ tr _, Forall (λ o : obs, projT1 o ≠ Time) tr)) as Hout.
    { apply (performs_wp (λ e, e ≠ Time)).
      destruct (decide _); [apply handle_output_no_clock|done]. }
    eapply wp_mono; [|exact Hout]. intros tr' [[]| | | |] Htr'; simpl.
    all: rewrite ?app_nil_r, <-?app_assoc; intros j now Hlt Hj.
    all: eapply Hlift; [|exact Hlt|exact Hj].
    all: rewrite ?Forall_app; repeat split; try done; by repeat constructor.
  - intros j now Hlt Hj. eapply (Hlift [existT (RmTemp temp) ()]); [|exact Hlt|exact Hj].
    by repeat constructor.
  - intros j now Hlt Hj. eapply (Hlift [existT (RmTemp temp) ()]); [|exact Hlt|exact Hj].
    by repeat constructor.
  - intros j now Hlt Hj. rewrite <-(app_nil_r tr) in Hj |- *.
    by eapply (Hlift []); [|exact Hlt|exact Hj].
  - intros j now Hlt Hj. rewrite <-(app_nil_r tr) in Hj |- *.
    by eapply (Hlift []); [|exact Hlt|exact Hj].
Qed.

(** The flag that the wait loop returns is the one of the Execution Record
    and the one handed to [handle_output]. *)
Lemma execute_hands_on bucket fuel cmd archive env :
  wp (execute bucket fuel cmd archive env) (λ tr o, ∀ rc, o = Returned (Py.Int rc) →
    ∃ t, execution_records tr = [Record_ rc t]
         ∧ (rc ≠ 0 → hands_on bucket archive (Py.join " " cmd) t tr)).
Proof.
  unfold execute. destruct (decide (cmd = [])) as [->|Hcmd]; simpl; [done|].
  intros temp [|]; apply wp_finally_RmTemp; simpl; [|done].
  intros begin. apply wp_bind.
  eapply wp_mono; [|apply execute_wait_record]. simpl. intros tr o Hrec.
  destruct o as [[rc t]| | | |]; simpl; try done.
  apply wp_bind.
  assert (wp (if decide (rc ≠ 0)
              then handle_output bucket archive (Py.os_path_join temp "stderr")
                     (Py.os_path_join temp "stdout") rc t (Py.join " " cmd)
              else Ret tt)
            (λ tr _, Forall (λ o, no_child (projT1 o)) tr
                     ∧ (rc ≠ 0 → hands_on bucket archive (Py.join " " cmd) t tr))) as Hout.
  { apply wp_conj.
    - apply performs_wp. destruct (decide _); [apply handle_output_no_child|done].
    - destruct (decide _) as [Hrc|Hrc]; [|by intros ?].
      eapply wp_mono; [|apply handle_output_hands_on]. done. }
  eapply wp_mono; [|exact Hout]. intros tr' [[]| | | |] [Hquiet Hhands]; simpl; try done.
  rewrite app_nil_r. intros rc' [= <-]. exists t. split.
  - unfold execution_records. simpl. rewrite <-app_assoc, (Hrec _ _ eq_refl).
    by rewrite records_from_no_child.
  - intros Hrc. specialize (Hhands Hrc). unfold hands_on in *.
    destruct archive.
    + destruct Hhands as [sha Hin]. exists sha.
      do 3 apply list_elem_of_further. rewrite <-app_assoc.
      apply elem_of_app. right. apply elem_of_app. by left.
    + do 3 apply list_elem_of_further. rewrite <-app_assoc.
      apply elem_of_app. right. apply elem_of_app. by left.
Qed.

(** C3, as the code has it.  In every run of [execute], whatever the child
    and the clock do: when the clock, read after the child's start, is more
    than [RUN_TIMEOUT] past the start, this reading follows a poll that
    found the child still running, and [terminate] is sent to the child at
    once.  When [execute] then returns, the Execution Record has timed-out
    = true, and so has the flag that [execute] hands to [handle_output]
    (archived as "True" under the label of the command, or printed) when
    the exit code is not 0; the value that [execute] returns for the
    aggregate failure flag counts as failed exactly when the exit code is
    not 0, so with exit code 0 the command counts as a success. *)
Theorem execute_overdue_terminated
    {W} (h : handler W) (w : W) bucket fuel cmd archive env (j : nat) begin now :
  let r := exec h (execute bucket fuel cmd archive env) w in
  observed r !! 2%nat = Some (existT Time begin) →
  (2 < j)%nat →
  observed r !! j = Some (existT Time now) →
  now - begin > RUN_TIMEOUT →
  (∃ i, j = S i ∧ observed r !! i = Some (existT Poll None))
  ∧ observed r !! S j = Some (existT Terminate tt)
  ∧ ∀ v, outcome_of r = Returned v →
      ∃ rc, v = Py.Int rc
            ∧ execution_records (observed r) = [Record_ rc true]
            ∧ (Py.truthy v = true ↔ rc ≠ 0)
            ∧ (rc ≠ 0 → hands_on bucket archive (Py.join " " cmd) true (observed r)).
Proof.
  intros r Hbegin Hlt Hj Hnow.
  destruct (wp_exec h _ _ w (execute_clock bucket fuel cmd archive env) j now Hlt Hj)
    as (i & -> & Hi).
  fold r in Hi.
  destruct (execute_overdue h w bucket fuel cmd archive env i begin now Hbegin Hi Hj Hnow)
    as [Hterminate Hreturned].
  split; [by exists i|]. split; [done|].
  intros v Hv. destruct (Hreturned v Hv) as (rc & -> & Hrecord & Htruthy).
  exists rc. split; [done|]. split; [done|]. split; [done|].
  destruct (wp_exec h _ _ w (execute_hands_on bucket fuel cmd archive env) rc Hv)
    as (t & Hrecord' & Hhands).
  assert (t = true) as -> by (unfold r in *; congruence).
  done.
Qed.

Lemma execute_overdue_terminated_witness :
  let r := exec (on_cloud scripted_oracle)
             (execute example_bucket 2 ["tools/test.py"] true None) killed_child in
  (∃ i, 4%nat = S i ∧ observed r !! i = Some (existT Poll None))
  ∧ observed r !! 5%nat = Some (existT Terminate tt)
  ∧ ∀ v, outcome_of r = Returned v →
      ∃ rc, v = Py.Int rc
            ∧ execution_records (observed r) = [Record_ rc true]
            ∧ (Py.truthy v = true ↔ rc ≠ 0)
            ∧ (rc ≠ 0 → hands_on example_bucket true (Py.join " " ["tools/test.py"]) true
                          (observed r)).
Proof.
  apply (execute_overdue_terminated (on_cloud scripted_oracle) killed_child
           example_bucket 2 ["tools/test.py"] true None 4 0 21601).
  - vm_compute. reflexivity.
  - lia.
  - vm_compute. reflexivity.
  - vm_compute. reflexivity.
Defined.

(** * The clean-up of the bot *)

Lemma app_cons_unique (P : obs → Prop) (a b pre post : list obs) (x y : obs) :
  Forall (λ o, ¬ P o) a → Forall (λ o, ¬ P o) b → P x → P y →
  pre ++ x :: post = a ++ y :: b →
  pre = a ∧ x = y ∧ post = b.
Proof.
  intros Ha Hb Hx Hy Heq.
  apply (app_cons_skip P) in Heq as (pre' & -> & Heq); [|done|done].
  destruct pre' as [|z pre']; cbn in Heq; apply cons_eq_inv in Heq as [<- Heq].
  - by rewrite app_nil_r.
  - exfalso. rewrite Heq in Hb. apply Forall_app in Hb as [_ Hb].
    by apply Forall_cons in Hb as [Hb _].
Qed.

Lemma print_magic_file_state_trace bucket :
  wp (print_magic_file_state bucket) (λ tr o,
    o = Returned tt ∧ Forall (λ x : obs, is_read (projT1 x)) tr).
Proof.
  apply wp_conj; [apply print_magic_file_state_returns|].
  apply (performs_wp is_read), print_magic_file_state_reads.
Qed.

Lemma run_bot_sweep bucket :
  wp (for_each ALL_MAGIC (λ magic,
        ex ← get_magic_file_exists bucket magic;
        if ex : bool then delete_magic_file bucket magic else Ret tt))
    (λ tr o,
       o = Returned tt
       ∧ ∃ b1 b2 b3,
           tr = sweep bucket READY_FOR_TESTING b1 ++ sweep bucket TESTING b2
                ++ sweep bucket TESTING_COMPLETE b3).
Proof.
  unfold ALL_MAGIC. cbn.
  intros b1. destruct b1; cbn; [intros []|].
  all: intros b2; destruct b2; cbn; [intros []|].
  all: intros b3; destruct b3; cbn; [intros []|].
  all: split; [done|].
  all: first [by exists true, true, true | by exists true, true, false
             |by exists true, false, true | by exists true, false, false
             |by exists false, true, true | by exists false, true, false
             |by exists false, false, true | by exists false, false, false].
Qed.

Lemma reads_no_upload (tr : list obs) :
  Forall (λ x : obs, is_read (projT1 x)) tr →
  Forall (λ x : obs, ¬ ∃ path content, projT1 x = Upload path content) tr.
Proof.
  intros Htr. eapply Forall_impl; [exact Htr|].
  intros [e x] He (path & content & Heq). cbn in *. by subst e.
Qed.

Lemma sweep_no_upload bucket name found :
  Forall (λ x : obs, ¬ ∃ path content, projT1 x = Upload path content)
    (sweep bucket name found).
Proof. destruct found; repeat constructor; by intros (? & ? & ?). Qed.

(** Before its offer [run_bot] prints the state, checks each magic file
    and deletes it if found, prints the state again, and finds
    [READY_FOR_TESTING] absent. *)
Lemma run_bot_cleans bucket fuel :
  wp (run_bot bucket fuel) (λ tr _,
    ∀ pre git_hash post,
      tr = pre ++ existT (Upload (get_magic_file_gs_path bucket READY_FOR_TESTING) git_hash) tt
               :: post →
      ∃ state1 b1 b2 b3 state2,
        Forall (λ x : obs, is_read (projT1 x)) state1
        ∧ Forall (λ x : obs, is_read (projT1 x)) state2
        ∧ pre = state1
                ++ sweep bucket READY_FOR_TESTING b1 ++ sweep bucket TESTING b2
                ++ sweep bucket TESTING_COMPLETE b3
                ++ state2
                ++ [existT (FileExists (get_magic_file_gs_path bucket READY_FOR_TESTING)) false;
                    existT HeadSha1 git_hash]).
Proof.
  unfold run_bot.
  apply wp_bind. eapply wp_mono; [|apply print_magic_file_state_trace].
  intros state1 ? [-> H1]. cbn [bind_post].
  apply wp_bind. eapply wp_mono; [|apply run_bot_sweep].
  intros ? ? [-> (b1 & b2 & b3 & ->)]. cbn [bind_post].
  apply wp_bind. eapply wp_mono; [|apply print_magic_file_state_trace].
  intros state2 ? [-> H2]. cbn [bind_post].
  set (P := λ x : obs, ∃ path content, projT1 x = Upload path content).
  assert (Forall (λ x, ¬ P x)
            (state1 ++ sweep bucket READY_FOR_TESTING b1 ++ sweep bucket TESTING b2
             ++ sweep bucket TESTING_COMPLETE b3 ++ state2)) as Hquiet.
  { rewrite !Forall_app. repeat split;
      first [by apply reads_no_upload | apply sweep_no_upload]. }
  cbn. intros [|]; cbn.
  - intros pre git_hash post Heq. exfalso.
    match type of Heq with
    | ?l = _ => assert (Forall (λ x, ¬ P x) l) as Hall
    end.
    { rewrite ?Forall_app, ?Forall_cons. repeat split;
        first [by apply reads_no_upload | apply sweep_no_upload
              | by intros (? & ? & ?) | by constructor]. }
    rewrite Heq in Hall. apply Forall_app in Hall as [_ Hall].
    apply Forall_cons in Hall as [Hall _]. apply Hall. by eexists _, _.
  - intros g0 [] begin.
    eapply wp_mono;
      [|apply (performs_wp (λ e, ∀ path content, e ≠ Upload path content)),
          run_bot_collect_no_upload].
    cbn beta. intros rest o Hrest pre git_hash post Heq.
    exists state1, b1, b2, b3, state2. split; [done|]. split; [done|].
    assert (pre = (state1 ++ sweep bucket READY_FOR_TESTING b1 ++ sweep bucket TESTING b2
                   ++ sweep bucket TESTING_COMPLETE b3 ++ state2)
                  ++ [existT (FileExists (get_magic_file_gs_path bucket READY_FOR_TESTING))
                        false;
                      existT HeadSha1 g0]
            ∧ existT (Upload (get_magic_file_gs_path bucket READY_FOR_TESTING) git_hash) tt
              = (existT (Upload (get_magic_file_gs_path bucket READY_FOR_TESTING) g0) tt : obs)
            ∧ post = existT Time begin :: rest) as (-> & Hg & _).
    { apply (app_cons_unique P).
      - apply Forall_app. split; [done|]. repeat constructor; by intros (? & ? & ?).
      - constructor; [by intros (? & ? & ?)|].
        eapply Forall_impl; [exact Hrest|]. intros [e x] He (path & content & Hx).
        cbn in *. by apply (He path content).
      - by eexists _, _.
      - by eexists _, _.
      - etrans; [symmetry; exact Heq|]. rewrite <-?app_assoc. reflexivity. }
    apply upload_obs_inv in Hg as [_ ->]. by rewrite <-?app_assoc.
Qed.


